(** * ctsha: compile-time SHA-1 / SHA-2 digests (ctsha.hpp)

    A shallow embedding of the header [ctsha.hpp] and of the test helper
    [ctsha_tests.hpp], followed by the properties of the digest engine.

    Conventions of the embedding.
    - [std::uint32_t] and [std::uint64_t] values are integers of [Z] in
      [0, 2^w); every operation writes its wrap-around out.  [std::size_t]
      is the 64-bit unsigned type of the x86-64 platform the library is
      built for.
    - [std::byte] is [Byte.byte]; [std::array] is a list.
    - [__float128] is IEEE 754 binary128 (113 bits of precision), with the
      operations of the Standard Library's [SpecFloat] rounding to nearest,
      ties to even.
    - Everything that makes a constant evaluation fail is a [fault]: an
      unsatisfied [requires] clause, [std::array::at] out of range, a
      recursion that exceeds the evaluation depth, and undefined behaviour.
    - The host is little endian ([std::endian::native]). *)

From Stdlib Require Import String Ascii.
From Stdlib Require Import ZArith List Lia Bool Znumtheory Sorted.
From Stdlib Require Import Strings.Byte DecimalString.
From Stdlib Require Import Floats.SpecFloat.
Import ListNotations.
Local Open Scope Z_scope.

(** ** Failing evaluations *)

Inductive fault : Set :=
| constraint_not_satisfied  (* a requires clause rejects the instantiation *)
| out_of_range              (* std::array::at throws std::out_of_range *)
| invalid_argument          (* the test helper throws std::invalid_argument *)
| depth_exceeded            (* the recursion does not return within the budget *)
| undefined_behaviour.      (* an access or a conversion outside its domain *)

Inductive result (A : Type) : Type :=
| Ok (a : A)
| Err (f : fault).

Arguments Ok {A} a.
Arguments Err {A} f.

Definition bind {A B : Type} (r : result A) (k : A -> result B) : result B :=
  match r with
  | Ok a => k a
  | Err f => Err f
  end.

Notation "x <- r ;; k" := (bind r (fun x => k))
  (at level 61, r at next level, right associativity).

(** [for (t = 0; t < n; ++t) s = body(t, s);] *)
Fixpoint for_loop_from {S : Type} (n : nat) (t : nat)
    (body : nat -> S -> result S) (s : S) : result S :=
  match n with
  | O => Ok s
  | Datatypes.S n' => s' <- body t s ;; for_loop_from n' (Datatypes.S t) body s'
  end.

Definition for_loop {S : Type} (n : nat) (body : nat -> S -> result S) (s : S)
  : result S :=
  for_loop_from n 0%nat body s.

(** [std::array::at], reading and writing. *)
Definition at_ {A : Type} (a : list A) (i : nat) : result A :=
  match nth_error a i with
  | Some x => Ok x
  | None => Err out_of_range
  end.

Fixpoint set_nth {A : Type} (a : list A) (i : nat) (x : A) : list A :=
  match a, i with
  | [], _ => []
  | _ :: a', O => x :: a'
  | y :: a', Datatypes.S i' => y :: set_nth a' i' x
  end.

Definition set_at {A : Type} (a : list A) (i : nat) (x : A) : result (list A) :=
  if (i <? length a)%nat then Ok (set_nth a i x) else Err out_of_range.

(** [generate_array<num_elements>(func)]: the array [func<0>(), ..., func<n-1>()]. *)
Fixpoint generate_array_from {A : Type} (n : nat) (i : nat)
    (func : nat -> result A) : result (list A) :=
  match n with
  | O => Ok []
  | Datatypes.S n' =>
      x <- func i ;;
      xs <- generate_array_from n' (Datatypes.S i) func ;;
      Ok (x :: xs)
  end.

Definition generate_array {A : Type} (num_elements : nat) (func : nat -> result A)
  : result (list A) :=
  generate_array_from num_elements 0%nat func.

(** ** Unsigned machine integers *)

Definition bits_per_byte : Z := 8.

(** [sha_word]: the two word types of the SHA algorithms. *)
Inductive word_t : Set := uint32_t | uint64_t.

(** [bits<data_t>] and [sizeof(data_t)]. *)
Definition bits (w : word_t) : Z :=
  match w with uint32_t => 32 | uint64_t => 64 end.

Definition sizeof (w : word_t) : Z := bits w / bits_per_byte.

(** [bytes<bits>]: bytes needed for a number of bits, rounded up. *)
Definition bytes (nbits : Z) : Z := (nbits + (bits_per_byte - 1)) / bits_per_byte.

Definition modulus (w : word_t) : Z := 2 ^ bits w.

(** Conversion to the unsigned type [w]. *)
Definition wrap (w : word_t) (x : Z) : Z := x mod modulus w.

Definition size_t : word_t := uint64_t.

Definition wadd (w : word_t) (x y : Z) : Z := wrap w (x + y).
Definition wmul (w : word_t) (x y : Z) : Z := wrap w (x * y).
Definition wshl (w : word_t) (x n : Z) : Z := wrap w (Z.shiftl x n).
Definition wshr (x n : Z) : Z := Z.shiftr x n.

(** ** [__float128] *)

Module Float128.

Definition prec : Z := 113.
Definition emax : Z := 16384.

Definition t : Set := spec_float.

(** Conversion of an integer, rounded to nearest. *)
Definition of_Z (z : Z) : t := binary_normalize prec emax z 0 false.

(** The value [m * 2^e], rounded to nearest. *)
Definition of_scaled (m e : Z) : t := binary_normalize prec emax m e false.

Definition mul : t -> t -> t := SFmul prec emax.
Definition div : t -> t -> t := SFdiv prec emax.
Definition add : t -> t -> t := SFadd prec emax.
Definition sub : t -> t -> t := SFsub prec emax.
Definition leb : t -> t -> bool := SFleb.
Definition geb (x y : t) : bool := SFleb y x.

(** Conversion to an integer type: the value truncated toward zero. *)
Definition trunc (x : t) : option Z :=
  match x with
  | S754_zero _ => Some 0
  | S754_finite s m e =>
      let a := match e with
               | Zneg p => Zpos m / 2 ^ Zpos p
               | _ => Zpos m * 2 ^ e
               end in
      Some (if s then - a else a)
  | _ => None
  end.

(** Conversion to an integer type holding [lo <= z <= hi]; the behaviour
    is undefined when the truncated value is not representable. *)
Definition to_integer (lo hi : Z) (x : t) : result Z :=
  match trunc x with
  | Some z => if (lo <=? z) && (z <=? hi) then Ok z else Err undefined_behaviour
  | None => Err undefined_behaviour
  end.

Definition to_unsigned (w : word_t) (x : t) : result Z :=
  to_integer 0 (modulus w - 1) x.

Definition to_int128 (x : t) : result Z :=
  to_integer (- 2 ^ 127) (2 ^ 127 - 1) x.

(** The literal [1.0e-32] has type [double]: it is the binary64 number
    nearest to 10^-32, [7307508186654515 * 2^-159], and converts to
    [__float128] without rounding. *)
Definition double_1e_32_mantissa : Z := 7307508186654515.
Definition double_1e_32_exponent : Z := -159.

Definition lit_1e_32 : t := of_scaled double_1e_32_mantissa double_1e_32_exponent.
Definition lit_minus_1e_32 : t := SFopp lit_1e_32.
Definition lit_1 : t := of_Z 1.

End Float128.

(** [float128_root(value, root, guess)]: Newton-Raphson iteration.  [depth]
    bounds the number of nested calls. *)
Fixpoint float128_root (depth : nat) (value : Float128.t) (root : Z)
    (guess : Float128.t) : result Float128.t :=
  match depth with
  | O => Err depth_exceeded
  | S depth' =>
      (* for (i = 0; i < root - 2; ++i, exp *= guess); *)
      let exp := Z.iter (wrap size_t (root - 2))
                   (fun e => Float128.mul e guess) guess in
      let guess2 :=
        Float128.div
          (Float128.add
             (Float128.mul
                (Float128.sub (Float128.of_Z root) Float128.lit_1) guess)
             (Float128.div value exp))
          (Float128.of_Z root) in
      let d := Float128.sub guess guess2 in
      if Float128.leb d Float128.lit_1e_32 && Float128.geb d Float128.lit_minus_1e_32
      then Ok guess
      else float128_root depth' value root guess2
  end.

(** ** Primes *)

(** [is_prime(value, divisor)] *)
Fixpoint is_prime (depth : nat) (value divisor : Z) : result bool :=
  match depth with
  | O => Err depth_exceeded
  | S depth' =>
      if wmul uint64_t divisor divisor >? value then Ok true
      else if divisor =? 0 then Err undefined_behaviour
      else if value mod divisor =? 0 then Ok false
      else is_prime depth' value (wadd uint64_t divisor 1)
  end.

(** [next_prime(value)] *)
Fixpoint next_prime (depth : nat) (value : Z) : result Z :=
  match depth with
  | O => Err depth_exceeded
  | S depth' =>
      p <- is_prime depth' value 2 ;;
      if p then Ok value else next_prime depth' (wadd uint64_t value 1)
  end.

(** [prime(index, value)] *)
Fixpoint prime_from (depth : nat) (index value : Z) : result Z :=
  match depth with
  | O => Err depth_exceeded
  | S depth' =>
      if index =? 0 then Ok value
      else
        v <- next_prime depth' (wadd uint64_t value 1) ;;
        prime_from depth' (wrap uint64_t (index - 1)) v
  end.

(** The bound on nested calls under which the constants are evaluated
    (GCC stops a constant evaluation at [-fconstexpr-depth], 512 unless the
    build changes it). *)
Definition constexpr_depth : nat := 512.

(** [prime(index)], with the default [value = 2]. *)
Definition prime (index : Z) : result Z := prime_from constexpr_depth index 2.

(** ** Bytes and byte order *)

(** [static_cast<std::byte>(x)]: the low eight bits. *)
Definition byte_of_Z (z : Z) : byte :=
  match Byte.of_N (Z.to_N (z mod 256)) with
  | Some b => b
  | None => x00
  end.

(** [static_cast<word_t>(b)] *)
Definition Z_of_byte (b : byte) : Z := Z.of_N (Byte.to_N b).

Inductive endian : Set := little | big.

(** [std::endian::native] *)
Definition native : endian := little.

Definition endian_eqb (a b : endian) : bool :=
  match a, b with
  | little, little | big, big => true
  | _, _ => false
  end.

(** [byte_swap(value)] *)
Definition byte_swap (w : word_t) (value : Z) : Z :=
  fold_left
    (fun swapped byte_index =>
       let byte_value :=
         wshr (Z.land value (wshl w 255 (byte_index * bits_per_byte)))
              (byte_index * bits_per_byte) in
       Z.lor swapped
             (wshl w byte_value ((sizeof w - byte_index - 1) * bits_per_byte)))
    (map Z.of_nat (seq 0 (Z.to_nat (sizeof w)))) 0.

(** [big_endian_to_host(value)] *)
Definition big_endian_to_host (w : word_t) (value : Z) : Z :=
  if endian_eqb native little then byte_swap w value else value.

(** The bytes of one element of [to_bytes]. *)
Definition element_bytes (endianness : endian) (w : word_t) (element : Z)
  : list byte :=
  map (fun byte_index =>
         let shift :=
           if endian_eqb endianness little
           then byte_index * bits_per_byte
           else (sizeof w - byte_index - 1) * bits_per_byte in
         byte_of_Z (wshr (Z.land element (wshl w 255 shift)) shift))
      (map Z.of_nat (seq 0 (Z.to_nat (sizeof w)))).

(** [to_bytes<endianness>(value)] *)
Definition to_bytes (endianness : endian) (w : word_t) (value : list Z)
  : list byte :=
  flat_map (element_bytes endianness w) value.

(** ** Functions on words (FIPS 180-4 sections 3.2 and 4.1) *)

Definition rotate_right (w : word_t) (num_bits : Z) (x : Z) : Z :=
  Z.lor (wshr x num_bits) (wshl w x (bits w - num_bits)).

Definition rotate_left (w : word_t) (num_bits : Z) (x : Z) : Z :=
  Z.lor (wshl w x num_bits) (wshr x (bits w - num_bits)).

Definition choose (w : word_t) (x y z : Z) : Z :=
  Z.lxor (Z.land x y) (Z.land (wrap w (Z.lnot x)) z).

Definition majority (x y z : Z) : Z :=
  Z.lxor (Z.lxor (Z.land x y) (Z.land x z)) (Z.land y z).

Definition parity (x y z : Z) : Z := Z.lxor (Z.lxor x y) z.

Definition Sigma0 (w : word_t) (x : Z) : Z :=
  match w with
  | uint32_t =>
      Z.lxor (Z.lxor (rotate_right w 2 x) (rotate_right w 13 x)) (rotate_right w 22 x)
  | uint64_t =>
      Z.lxor (Z.lxor (rotate_right w 28 x) (rotate_right w 34 x)) (rotate_right w 39 x)
  end.

Definition Sigma1 (w : word_t) (x : Z) : Z :=
  match w with
  | uint32_t =>
      Z.lxor (Z.lxor (rotate_right w 6 x) (rotate_right w 11 x)) (rotate_right w 25 x)
  | uint64_t =>
      Z.lxor (Z.lxor (rotate_right w 14 x) (rotate_right w 18 x)) (rotate_right w 41 x)
  end.

Definition sigma0 (w : word_t) (x : Z) : Z :=
  match w with
  | uint32_t =>
      Z.lxor (Z.lxor (rotate_right w 7 x) (rotate_right w 18 x)) (wshr x 3)
  | uint64_t =>
      Z.lxor (Z.lxor (rotate_right w 1 x) (rotate_right w 8 x)) (wshr x 7)
  end.

Definition sigma1 (w : word_t) (x : Z) : Z :=
  match w with
  | uint32_t =>
      Z.lxor (Z.lxor (rotate_right w 17 x) (rotate_right w 19 x)) (wshr x 10)
  | uint64_t =>
      Z.lxor (Z.lxor (rotate_right w 19 x) (rotate_right w 61 x)) (wshr x 6)
  end.

(** ** Message preprocessing (FIPS 180-4 section 5) *)

(** [bits<block_t<word_t>>] and [sizeof(block_t<word_t>)]: sixteen words. *)
Definition block_bits (w : word_t) : Z := 16 * sizeof w * bits_per_byte.
Definition block_bytes (w : word_t) : Z := 16 * sizeof w.

(** The constants [min_bits] and [blocks] of [preprocess_message], in
    [std::size_t] arithmetic. *)
Definition min_bits (w : word_t) (original_bytes : Z) : Z :=
  wadd size_t (wadd size_t (wmul size_t original_bytes bits_per_byte) 1)
       (2 * bits w).

Definition blocks (w : word_t) (original_bytes : Z) : Z :=
  wadd size_t (min_bits w original_bytes) (block_bits w - 1) / block_bits w.

(** [std::copy(src.begin(), src.end(), dst.begin() + pos)]; writing past the
    end of [dst] is undefined. *)
Definition copy_to {A : Type} (src dst : list A) (pos : nat) : result (list A) :=
  if (pos + length src <=? length dst)%nat
  then Ok (firstn pos dst ++ src ++ skipn (pos + length src) dst)
  else Err undefined_behaviour.

(** Assignment through the iterator [dst.begin() + pos]; undefined past the
    end of [dst]. *)
Definition store {A : Type} (dst : list A) (pos : nat) (x : A) : result (list A) :=
  if (pos <? length dst)%nat then Ok (set_nth dst pos x)
  else Err undefined_behaviour.

(** The byte buffer [message] of [preprocess_message], before it is cut
    into words. *)
Definition padded_message (w : word_t) (original_message : list byte)
  : result (list byte) :=
  let original_bytes := Z.of_nat (length original_message) in
  let message_size := wmul size_t (blocks w original_bytes) (block_bytes w) in
  let message := repeat x00 (Z.to_nat message_size) in
  message <- copy_to original_message message 0 ;;
  message <- store message (length original_message) x80 ;;
  let size :=
    to_bytes big uint64_t [wmul uint64_t (wrap uint64_t original_bytes) bits_per_byte] in
  if (length message <? length size)%nat then Err undefined_behaviour
  else copy_to size message (length message - length size).

(** One word read from the buffer:
    [word |= static_cast<word_t>(byte) << (byte_index * bits_per_byte)] for
    the byte under [bytes_iter]. *)
Fixpoint word_of_bytes (w : word_t) (byte_index : Z) (bs : list byte) (word : Z) : Z :=
  match bs with
  | [] => word
  | b :: bs' =>
      word_of_bytes w (byte_index + 1) bs'
        (Z.lor word (wshl w (Z_of_byte b) (byte_index * bits_per_byte)))
  end.

(** [count] consecutive groups of [k] elements. *)
Fixpoint chunks {A : Type} (k : nat) (count : nat) (l : list A) : list (list A) :=
  match count with
  | O => []
  | S count' => firstn k l :: chunks k count' (skipn k l)
  end.

(** [preprocess_message<word_t>(original_message)] *)
Definition preprocess_message (w : word_t) (original_message : list byte)
  : result (list (list Z)) :=
  message <- padded_message w original_message ;;
  let nblocks := Z.to_nat (blocks w (Z.of_nat (length original_message))) in
  let words :=
    map (fun bs => word_of_bytes w 0 bs 0)
        (chunks (Z.to_nat (sizeof w)) (16 * nblocks) message) in
  Ok (chunks 16 nblocks words).

(** ** Constants *)

(** [sha1_functions]: the eighty SHA-1 functions (FIPS 180-4 section 4.1.1). *)
Definition sha1_functions : result (list (Z -> Z -> Z -> Z)) :=
  generate_array 80 (fun index =>
    let funcs := [choose uint32_t; parity; majority; parity] in
    at_ funcs (index / 20)%nat).

(** [sha1_constants]: the eighty SHA-1 constants (FIPS 180-4 section 4.2.1). *)
Definition sha1_constants : result (list Z) :=
  generate_array 80 (fun index =>
    let roots := [2; 3; 5; 10] in
    r <- at_ roots (index / 20)%nat ;;
    v <- float128_root constexpr_depth (Float128.of_Z r) 2 Float128.lit_1 ;;
    Float128.to_unsigned uint32_t
      (Float128.mul v (Float128.of_Z (Z.shiftl 1 30)))).

(** [sha1_initialization_vector] (FIPS 180-4 section 5.3.1). *)
Definition sha1_initialization_vector : list Z :=
  [ byte_swap uint32_t 0x01234567;
    byte_swap uint32_t 0x89abcdef;
    byte_swap uint32_t 0xfedcba98;
    byte_swap uint32_t 0x76543210;
    byte_swap uint32_t 0xf0e1d2c3 ].

(** [sha2_constant<word_t>(prime_number, root)] *)
Definition sha2_constant (w : word_t) (prime_number : Z) (root : Z) : result Z :=
  value <- float128_root constexpr_depth (Float128.of_Z prime_number) root
             Float128.lit_1 ;;
  whole <- Float128.to_int128 value ;;
  let fractional := Float128.sub value (Float128.of_Z whole) in
  let big_fractional :=
    Float128.mul fractional (Float128.of_Z (Z.shiftl 1 (bits w))) in
  Float128.to_unsigned w big_fractional.

Definition sha2_32_bit_constants : result (list Z) :=
  generate_array 64 (fun index =>
    p <- prime (Z.of_nat index) ;;
    sha2_constant uint32_t (wrap uint32_t p) 3).

Definition sha2_64_bit_constants : result (list Z) :=
  generate_array 80 (fun index =>
    p <- prime (Z.of_nat index) ;;
    sha2_constant uint64_t p 3).

Definition sha224_initialization_vector : result (list Z) :=
  generate_array 8 (fun index =>
    p <- prime (Z.of_nat index + 8) ;;
    c <- sha2_constant uint64_t p 2 ;;
    Ok (wrap uint32_t c)).

Definition sha256_initialization_vector : result (list Z) :=
  generate_array 8 (fun index =>
    p <- prime (Z.of_nat index) ;;
    sha2_constant uint32_t (wrap uint32_t p) 2).

Definition sha384_initialization_vector : result (list Z) :=
  generate_array 8 (fun index =>
    p <- prime (Z.of_nat index + 8) ;;
    sha2_constant uint64_t p 2).

Definition sha512_initialization_vector : result (list Z) :=
  generate_array 8 (fun index =>
    p <- prime (Z.of_nat index) ;;
    sha2_constant uint64_t p 2).

(** ** The digest engine *)

(** The blocks are consumed in sequence, each updating the running state. *)
Fixpoint fold_blocks {S B : Type} (step : S -> B -> result S) (bs : list B) (s : S)
  : result S :=
  match bs with
  | [] => Ok s
  | b :: bs' => s' <- step s b ;; fold_blocks step bs' s'
  end.

(** [for (si, vi ...; ++si, ++vi) *si = *vi + *si;] *)
Fixpoint add_working (w : word_t) (state v : list Z) : list Z :=
  match state, v with
  | si :: state', vi :: v' => wadd w vi si :: add_working w state' v'
  | _, _ => state
  end.

Module detail.

(** The message schedule of [sha1]. *)
Definition sha1_schedule (block : list Z) : result (list Z) :=
  for_loop 80 (fun t w =>
    x <- (if (t <? 16)%nat
          then b <- at_ block t ;; Ok (big_endian_to_host uint32_t b)
          else
            w3 <- at_ w (t - 3) ;;
            w8 <- at_ w (t - 8) ;;
            w14 <- at_ w (t - 14) ;;
            w16 <- at_ w (t - 16) ;;
            Ok (rotate_left uint32_t 1
                  (Z.lxor (Z.lxor (Z.lxor w3 w8) w14) w16))) ;;
    set_at w t x) (repeat 0 80).

(** One round of [sha1] on the working variables. *)
Definition sha1_round (fs : list (Z -> Z -> Z -> Z)) (ks w : list Z)
    (t : nat) (v : list Z) : result (list Z) :=
  v0 <- at_ v 0 ;; f <- at_ fs t ;;
  v1 <- at_ v 1 ;; v2 <- at_ v 2 ;; v3 <- at_ v 3 ;; v4 <- at_ v 4 ;;
  k <- at_ ks t ;; wt <- at_ w t ;;
  let upper_t :=
    wadd uint32_t
      (wadd uint32_t
         (wadd uint32_t
            (wadd uint32_t (rotate_left uint32_t 5 v0) (f v1 v2 v3)) v4) k) wt in
  x <- at_ v 3 ;; v <- set_at v 4 x ;;
  x <- at_ v 2 ;; v <- set_at v 3 x ;;
  x <- at_ v 1 ;; v <- set_at v 2 (rotate_left uint32_t 30 x) ;;
  x <- at_ v 0 ;; v <- set_at v 1 x ;;
  set_at v 0 upper_t.

Definition sha1_block (fs : list (Z -> Z -> Z -> Z)) (ks : list Z)
    (state block : list Z) : result (list Z) :=
  w <- sha1_schedule block ;;
  v <- for_loop (length w) (sha1_round fs ks w) state ;;
  Ok (add_working uint32_t state v).

(** The state of [detail::sha1] after the last block. *)
Definition sha1_state (message : list byte) : result (list Z) :=
  fs <- sha1_functions ;;
  ks <- sha1_constants ;;
  message_blocks <- preprocess_message uint32_t message ;;
  fold_blocks (sha1_block fs ks) message_blocks sha1_initialization_vector.

(** [detail::sha1(message)] *)
Definition sha1 (message : list byte) : result (list byte) :=
  state <- sha1_state message ;;
  Ok (to_bytes big uint32_t state).

(** The message schedule of [sha2]; it has one word per constant. *)
Definition sha2_schedule (w_t : word_t) (num_constants : nat) (block : list Z)
  : result (list Z) :=
  for_loop num_constants (fun t w =>
    x <- (if (t <? 16)%nat
          then b <- at_ block t ;; Ok (big_endian_to_host w_t b)
          else
            w2 <- at_ w (t - 2) ;;
            w7 <- at_ w (t - 7) ;;
            w15 <- at_ w (t - 15) ;;
            w16 <- at_ w (t - 16) ;;
            Ok (wadd w_t
                  (wadd w_t (wadd w_t (sigma1 w_t w2) w7) (sigma0 w_t w15))
                  w16)) ;;
    set_at w t x) (repeat 0 num_constants).

(** One round of [sha2] on the working variables. *)
Definition sha2_round (w_t : word_t) (constants w : list Z)
    (t : nat) (v : list Z) : result (list Z) :=
  v7 <- at_ v 7 ;; v4 <- at_ v 4 ;; v5 <- at_ v 5 ;; v6 <- at_ v 6 ;;
  k <- at_ constants t ;; wt <- at_ w t ;;
  let t1 :=
    wadd w_t
      (wadd w_t
         (wadd w_t (wadd w_t v7 (Sigma1 w_t v4)) (choose w_t v4 v5 v6)) k) wt in
  v0 <- at_ v 0 ;; v1 <- at_ v 1 ;; v2 <- at_ v 2 ;;
  let t2 := wadd w_t (Sigma0 w_t v0) (majority v0 v1 v2) in
  x <- at_ v 6 ;; v <- set_at v 7 x ;;
  x <- at_ v 5 ;; v <- set_at v 6 x ;;
  x <- at_ v 4 ;; v <- set_at v 5 x ;;
  x <- at_ v 3 ;; v <- set_at v 4 (wadd w_t x t1) ;;
  x <- at_ v 2 ;; v <- set_at v 3 x ;;
  x <- at_ v 1 ;; v <- set_at v 2 x ;;
  x <- at_ v 0 ;; v <- set_at v 1 x ;;
  set_at v 0 (wadd w_t t1 t2).

Definition sha2_block (w_t : word_t) (constants : list Z)
    (state block : list Z) : result (list Z) :=
  w <- sha2_schedule w_t (length constants) block ;;
  v <- for_loop (length w) (sha2_round w_t constants w) state ;;
  Ok (add_working w_t state v).

(** The state of [detail::sha2] after the last block. *)
Definition sha2_state (w_t : word_t) (message : list byte)
    (initialization_vector constants : list Z) : result (list Z) :=
  message_blocks <- preprocess_message w_t message ;;
  fold_blocks (sha2_block w_t constants) message_blocks initialization_vector.

(** [detail::sha2<digest_bits>(message, initialization_vector, constants)].
    The state is an array of eight words; a digest longer than the state
    has no conversion from [full_digest] to the return type. *)
Definition sha2 (digest_bits : Z) (w_t : word_t) (message : list byte)
    (initialization_vector constants : list Z) : result (list byte) :=
  state <- sha2_state w_t message initialization_vector constants ;;
  let full_digest := to_bytes big w_t state in
  let sizeof_state := 8 * sizeof w_t in
  if bytes digest_bits <? sizeof_state
  then Ok (firstn (Z.to_nat (bytes digest_bits)) full_digest)
  else if bytes digest_bits =? sizeof_state then Ok full_digest
  else Err constraint_not_satisfied.

(** [std::byte{x}]: list initialisation, ill-formed when [x] does not fit. *)
Definition byte_init (x : Z) : result byte :=
  if (0 <=? x) && (x <=? 255) then Ok (byte_of_Z x)
  else Err constraint_not_satisfied.

(** The code of a character literal. *)
Definition chr (c : ascii) : Z := Z.of_N (N_of_ascii c).

(** The intermediate vector of [sha512_t_initialization_vector]: the
    SHA-512 vector with every byte xored with 0xa5. *)
Definition intermediate_iv : result (list Z) :=
  iv <- sha512_initialization_vector ;;
  Ok (map (fun entry => Z.lxor entry 0xa5a5a5a5a5a5a5a5) iv).

(** The message hashed by [sha512_t_initialization_vector]: the prefix
    followed by the digits of [hash_bits], one branch per number of digits.
    The array [message] is declared without initialiser and filled by the
    two copies. *)
Definition sha512_t_message (hash_bits : Z) : result (list byte) :=
  let prefix := map byte_of_Z
    [chr "S"; chr "H"; chr "A"; chr "-"; chr "5"; chr "1"; chr "2"; chr "/"] in
  t <- (if hash_bits <? 10 then
          d0 <- byte_init (hash_bits + chr "0") ;; Ok [d0]
        else if hash_bits <? 100 then
          d1 <- byte_init (hash_bits / 10 + chr "0") ;;
          d0 <- byte_init (hash_bits mod 10 + chr "0") ;;
          Ok [d1; d0]
        else
          d2 <- byte_init (hash_bits / 100 + chr "0") ;;
          d1 <- byte_init (hash_bits mod 100 / 10 + chr "0") ;;
          d0 <- byte_init (hash_bits mod 10 + chr "0") ;;
          Ok [d2; d1; d0]) ;;
  message <- copy_to prefix (repeat x00 (8 + length t)) 0 ;;
  copy_to t message (length prefix).

(** The conversion of [hash_result] into words, at the end of
    [sha512_t_initialization_vector]. *)
Definition words_of_hash_result (hash_result : list byte) : result (list Z) :=
  for_loop 8 (fun iv_index iv =>
    iv_value <-
      for_loop (Z.to_nat bits_per_byte) (fun byte_index iv_value =>
        let index := (iv_index * Z.to_nat (sizeof uint64_t) + byte_index)%nat in
        let shift := Z.of_nat byte_index * bits_per_byte in
        b <- at_ hash_result index ;;
        Ok (Z.lor iv_value (wshl uint64_t (Z_of_byte b) shift))) 0 ;;
    set_at iv iv_index (big_endian_to_host uint64_t iv_value)) (repeat 0 8).

(** [sha512_t_initialization_vector<hash_bits>] (FIPS 180-4 section 5.3.6). *)
Definition sha512_t_initialization_vector (hash_bits : Z) : result (list Z) :=
  if (hash_bits =? 0) || (hash_bits =? 384) then Err constraint_not_satisfied
  else
    iiv <- intermediate_iv ;;
    message <- sha512_t_message hash_bits ;;
    constants <- sha2_64_bit_constants ;;
    hash_result <- sha2 512 uint64_t message iiv constants ;;
    words_of_hash_result hash_result.

End detail.

(** ** Public interface *)

Definition sha1 (message : list byte) : result (list byte) :=
  detail.sha1 message.

Definition sha224 (message : list byte) : result (list byte) :=
  iv <- sha224_initialization_vector ;;
  constants <- sha2_32_bit_constants ;;
  detail.sha2 224 uint32_t message iv constants.

Definition sha256 (message : list byte) : result (list byte) :=
  iv <- sha256_initialization_vector ;;
  constants <- sha2_32_bit_constants ;;
  detail.sha2 256 uint32_t message iv constants.

Definition sha384 (message : list byte) : result (list byte) :=
  iv <- sha384_initialization_vector ;;
  constants <- sha2_64_bit_constants ;;
  detail.sha2 384 uint64_t message iv constants.

Definition sha512 (message : list byte) : result (list byte) :=
  iv <- sha512_initialization_vector ;;
  constants <- sha2_64_bit_constants ;;
  detail.sha2 512 uint64_t message iv constants.

Definition sha512_t (hash_bits : Z) (message : list byte) : result (list byte) :=
  if (hash_bits =? 0) || (hash_bits =? 384) || negb (hash_bits <? 512)
  then Err constraint_not_satisfied
  else
    iv <- detail.sha512_t_initialization_vector hash_bits ;;
    constants <- sha2_64_bit_constants ;;
    detail.sha2 hash_bits uint64_t message iv constants.

(** ** Test helpers (ctsha_tests.hpp) *)

(** The literal operators: one [std::byte] per character of the literal. *)
Definition bytes_of_string (s : string) : list byte :=
  map byte_of_ascii (list_ascii_of_string s).

Definition hex2val (c : ascii) : result Z :=
  let c := detail.chr c in
  if (detail.chr "0" <=? c) && (c <=? detail.chr "9") then Ok (c - detail.chr "0")
  else if (detail.chr "a" <=? c) && (c <=? detail.chr "f")
       then Ok (c - detail.chr "a" + 10)
  else if (detail.chr "A" <=? c) && (c <=? detail.chr "F")
       then Ok (c - detail.chr "A" + 10)
  else Err invalid_argument.

Fixpoint hex_pairs (chars : list ascii) : result (list byte) :=
  match chars with
  | hi :: lo :: rest =>
      h <- hex2val hi ;;
      l <- hex2val lo ;;
      bs <- hex_pairs rest ;;
      Ok (byte_of_Z (Z.lor (Z.shiftl h 4) l) :: bs)
  | _ => Ok []
  end.

(** The literal operator [_hex_bytes]; it requires at least two characters
    and an even number of them. *)
Definition hex_bytes (s : string) : result (list byte) :=
  let chars := list_ascii_of_string s in
  if (2 <=? length chars)%nat && Nat.even (length chars)
  then hex_pairs chars
  else Err constraint_not_satisfied.

(** * Properties *)

(** ** Notions used in the statements *)

(** The eighty 64-bit constants of FIPS 180-4 section 4.2.3, as the tests
    of the repository assert them. *)
Definition fips_64_bit_constants : list Z :=
  [ 0x428a2f98d728ae22; 0x7137449123ef65cd; 0xb5c0fbcfec4d3b2f;
    0xe9b5dba58189dbbc; 0x3956c25bf348b538; 0x59f111f1b605d019;
    0x923f82a4af194f9b; 0xab1c5ed5da6d8118; 0xd807aa98a3030242;
    0x12835b0145706fbe; 0x243185be4ee4b28c; 0x550c7dc3d5ffb4e2;
    0x72be5d74f27b896f; 0x80deb1fe3b1696b1; 0x9bdc06a725c71235;
    0xc19bf174cf692694; 0xe49b69c19ef14ad2; 0xefbe4786384f25e3;
    0x0fc19dc68b8cd5b5; 0x240ca1cc77ac9c65; 0x2de92c6f592b0275;
    0x4a7484aa6ea6e483; 0x5cb0a9dcbd41fbd4; 0x76f988da831153b5;
    0x983e5152ee66dfab; 0xa831c66d2db43210; 0xb00327c898fb213f;
    0xbf597fc7beef0ee4; 0xc6e00bf33da88fc2; 0xd5a79147930aa725;
    0x06ca6351e003826f; 0x142929670a0e6e70; 0x27b70a8546d22ffc;
    0x2e1b21385c26c926; 0x4d2c6dfc5ac42aed; 0x53380d139d95b3df;
    0x650a73548baf63de; 0x766a0abb3c77b2a8; 0x81c2c92e47edaee6;
    0x92722c851482353b; 0xa2bfe8a14cf10364; 0xa81a664bbc423001;
    0xc24b8b70d0f89791; 0xc76c51a30654be30; 0xd192e819d6ef5218;
    0xd69906245565a910; 0xf40e35855771202a; 0x106aa07032bbd1b8;
    0x19a4c116b8d2d0c8; 0x1e376c085141ab53; 0x2748774cdf8eeb99;
    0x34b0bcb5e19b48a8; 0x391c0cb3c5c95a63; 0x4ed8aa4ae3418acb;
    0x5b9cca4f7763e373; 0x682e6ff3d6b2b8a3; 0x748f82ee5defb2fc;
    0x78a5636f43172f60; 0x84c87814a1f0ab72; 0x8cc702081a6439ec;
    0x90befffa23631e28; 0xa4506cebde82bde9; 0xbef9a3f7b2c67915;
    0xc67178f2e372532b; 0xca273eceea26619c; 0xd186b8c721c0c207;
    0xeada7dd6cde0eb1e; 0xf57d4f7fee6ed178; 0x06f067aa72176fba;
    0x0a637dc5a2c898a6; 0x113f9804bef90dae; 0x1b710b35131c471b;
    0x28db77f523047d84; 0x32caab7b40c72493; 0x3c9ebe0a15c9bebc;
    0x431d67c49c100d4c; 0x4cc5d4becb3e42b6; 0x597f299cfc657e2a;
    0x5fcb6fab3ad6faec; 0x6c44198c4a475817 ].

(** The sixty-four 32-bit constants of section 4.2.2 are the high halves
    of the first sixty-four. *)
Definition fips_32_bit_constants : list Z :=
  map (fun k => Z.shiftr k 32) (firstn 64 fips_64_bit_constants).

(** The vectors of sections 5.3.5 and 5.3.4, as the tests assert them. *)
Definition fips_sha512_vector : list Z :=
  [ 0x6a09e667f3bcc908; 0xbb67ae8584caa73b; 0x3c6ef372fe94f82b;
    0xa54ff53a5f1d36f1; 0x510e527fade682d1; 0x9b05688c2b3e6c1f;
    0x1f83d9abfb41bd6b; 0x5be0cd19137e2179 ].

Definition fips_sha384_vector : list Z :=
  [ 0xcbbb9d5dc1059ed8; 0x629a292a367cd507; 0x9159015a3070dd17;
    0x152fecd8f70e5939; 0x67332667ffc00b31; 0x8eb44a8768581511;
    0xdb0c2e0d64f98fa7; 0x47b5481dbefa4fa4 ].

(** The vector of SHA-256 (section 5.3.3) holds the high halves of the
    words of the SHA-512 vector, that of SHA-224 (section 5.3.2) the low
    halves of the words of the SHA-384 vector. *)
Definition fips_sha256_vector : list Z :=
  map (fun k => Z.shiftr k 32) fips_sha512_vector.

Definition fips_sha224_vector : list Z :=
  map (fun k => k mod 2 ^ 32) fips_sha384_vector.

(** The SHA-1 constants as FIPS 180-4 section 4.2.1 lists them. *)
Definition sha1_band_values : list Z :=
  [0x5a827999; 0x6ed9eba1; 0x8f1bbcdc; 0xca62c1d6].

(** The first [w] bits of the fractional part of the square root of [p]:
    floor(sqrt(p) * 2^w) modulo 2^w. *)
Definition sqrt_fractional_bits (w : word_t) (p : Z) : Z :=
  Z.sqrt (p * 2 ^ (2 * bits w)) mod 2 ^ bits w.

(** The value of a byte sequence read least significant byte first. *)
Fixpoint le_value (bs : list byte) : Z :=
  match bs with
  | [] => 0
  | b :: bs' => Z_of_byte b + 256 * le_value bs'
  end.

(** The [k] low base-256 digits of [x], least significant first. *)
Definition digits (k : nat) (x : Z) : list byte :=
  map (fun i => byte_of_Z ((x / 2 ^ (8 * Z.of_nat i)) mod 256)) (seq 0 k).

(** The [std::size_t] computations of [preprocess_message] do not wrap
    around for a message of [original_bytes] bytes. *)
Definition fits (w : word_t) (original_bytes : Z) : Prop :=
  8 * original_bytes + 1 + 2 * bits w + (block_bits w - 1) < 2 ^ 64.

(** The value of a byte sequence read most significant byte first. *)
Definition be_value (bs : list byte) : Z :=
  fold_left (fun acc b => acc * 256 + Z_of_byte b) bs 0.

(** [x] is a value of the unsigned type [w]. *)
Definition in_range (w : word_t) (x : Z) : Prop := 0 <= x < modulus w.

Local Open Scope string_scope.

(** The decimal digits of a positive number, without leading zero. *)
Definition decimal (t : Z) : string :=
  NilEmpty.string_of_uint (N.to_uint (Z.to_N t)).

(** The message of the SHA-512/t bootstrap (FIPS 180-4 section 5.3.6). *)
Definition bootstrap_message (t : Z) : list byte :=
  bytes_of_string ("SHA-512/" ++ decimal t).

Fixpoint bytes_eqb (a b : list byte) : bool :=
  match a, b with
  | [], [] => true
  | x :: a', y :: b' => Byte.eqb x y && bytes_eqb a' b'
  | _, _ => false
  end.

(** What the three branches of [sha512_t_message] are checked against. *)
Definition bootstrap_message_check (t : Z) : bool :=
  match detail.sha512_t_message t with
  | Ok m => bytes_eqb m (bootstrap_message t)
  | Err _ => false
  end
  && (1 <=? String.length (decimal t))%nat
  && (String.length (decimal t) <=? 3)%nat
  && match String.get 0 (decimal t) with
     | Some c => negb (Ascii.eqb c "0")
     | None => false
     end.

Local Close Scope string_scope.

(** The bound below which the 64-bit products of [is_prime] do not wrap
    around. *)
Definition no_wrap_bound : Z := (2 ^ 32 - 1) * (2 ^ 32 - 1).

(** One Newton step of [float128_root]: [guess2] as a function of [guess]. *)
Definition newton_step (value : Float128.t) (root : Z) (guess : Float128.t)
  : Float128.t :=
  let exp := Z.iter (wrap size_t (root - 2))
               (fun e => Float128.mul e guess) guess in
  Float128.div
    (Float128.add
       (Float128.mul (Float128.sub (Float128.of_Z root) Float128.lit_1) guess)
       (Float128.div value exp))
    (Float128.of_Z root).

(** The test that ends the iteration of [float128_root]. *)
Definition within_tolerance (value : Float128.t) (root : Z) (guess : Float128.t)
  : bool :=
  let d := Float128.sub guess (newton_step value root guess) in
  Float128.leb d Float128.lit_1e_32 && Float128.geb d Float128.lit_minus_1e_32.

(** The primes up to 409, in increasing order. *)
Definition primes_to_409 : list Z :=
  [ 2; 3; 5; 7; 11; 13; 17; 19; 23; 29; 31; 37; 41; 43; 47; 53; 59; 61; 67; 71;
    73; 79; 83; 89; 97; 101; 103; 107; 109; 113; 127; 131; 137; 139; 149; 151;
    157; 163; 167; 173; 179; 181; 191; 193; 197; 199; 211; 223; 227; 229; 233;
    239; 241; 251; 257; 263; 269; 271; 277; 281; 283; 293; 307; 311; 313; 317;
    331; 337; 347; 349; 353; 359; 367; 373; 379; 383; 389; 397; 401; 409 ].

(** [k] holds the first [nbits] bits of the fractional part of the [r]-th
    root of [p]: with [m] the integer part of the root,
    (m + k / 2^nbits)^r <= p < (m + (k + 1) / 2^nbits)^r. *)
Definition root_fractional_bits (r nbits p k : Z) : Prop :=
  0 <= k < 2 ^ nbits /\
  exists m, 0 <= m /\
    (m * 2 ^ nbits + k) ^ r <= p * (2 ^ nbits) ^ r < (m * 2 ^ nbits + k + 1) ^ r.

Definition root_fractional_bits_check (r nbits p k : Z) : bool :=
  (0 <=? k) && (k <? 2 ^ nbits) &&
  existsb (fun m =>
             ((m * 2 ^ nbits + k) ^ r <=? p * (2 ^ nbits) ^ r) &&
             (p * (2 ^ nbits) ^ r <? (m * 2 ^ nbits + k + 1) ^ r))
          [0; 1; 2; 3; 4; 5; 6; 7; 8; 9; 10; 11; 12; 13; 14; 15; 16; 17; 18; 19; 20].

(** [is_prime] from divisor 2, as a boolean (false on a fault). *)
Definition is_prime_bool (value : Z) : bool :=
  match is_prime constexpr_depth value 2 with
  | Ok b => b
  | Err _ => false
  end.

(** The characters that [hex2val] accepts. *)
Definition is_hex_digit (c : ascii) : bool :=
  let n := detail.chr c in
  ((48 <=? n) && (n <=? 57)) || ((97 <=? n) && (n <=? 102))
  || ((65 <=? n) && (n <=? 70)).

Definition result_Z_eqb (a b : result Z) : bool :=
  match a, b with
  | Ok x, Ok y => x =? y
  | _, _ => false
  end.

(** ** Bytes as base-256 digits *)

Lemma Z_of_byte_range (b : byte) : 0 <= Z_of_byte b < 256.
Proof.
  unfold Z_of_byte. pose proof (Byte.to_N_bounded b). lia.
Qed.

Lemma byte_of_Z_of_byte (b : byte) : byte_of_Z (Z_of_byte b) = b.
Proof.
  unfold byte_of_Z, Z_of_byte.
  rewrite Z.mod_small by (pose proof (Byte.to_N_bounded b); lia).
  rewrite N2Z.id, Byte.of_to_N. reflexivity.
Qed.

Lemma Z_of_byte_of_Z (z : Z) : Z_of_byte (byte_of_Z z) = z mod 256.
Proof.
  unfold byte_of_Z, Z_of_byte.
  pose proof (Z.mod_pos_bound z 256 ltac:(lia)) as Hm.
  destruct (Byte.of_N (Z.to_N (z mod 256))) as [b|] eqn:E.
  - apply Byte.to_of_N in E. rewrite E. lia.
  - apply Byte.of_N_None_iff in E. lia.
Qed.

Lemma le_value_bound (bs : list byte) :
  0 <= le_value bs < 2 ^ (8 * Z.of_nat (length bs)).
Proof.
  induction bs as [|b bs IH]; cbn [le_value]; cbn [length].
  - change (2 ^ (8 * Z.of_nat 0)) with 1. lia.
  - pose proof (Z_of_byte_range b).
    replace (8 * Z.of_nat (S (length bs))) with (8 + 8 * Z.of_nat (length bs)) by lia.
    rewrite Z.pow_add_r by lia. change (2 ^ 8) with 256.
    remember (2 ^ (8 * Z.of_nat (length bs))) as P. lia.
Qed.

Lemma digits_length (k : nat) (x : Z) : length (digits k x) = k.
Proof. unfold digits. rewrite length_map, length_seq. reflexivity. Qed.

Lemma digits_S (k : nat) (x : Z) :
  digits (S k) x = byte_of_Z (x mod 256) :: digits k (x / 256).
Proof.
  unfold digits. cbn [seq map]. f_equal.
  - change (2 ^ (8 * Z.of_nat 0)) with 1. rewrite Z.div_1_r. reflexivity.
  - rewrite <- seq_shift, map_map. apply map_ext. intros i.
    replace (8 * Z.of_nat (S i)) with (8 + 8 * Z.of_nat i) by lia.
    rewrite Z.pow_add_r by lia. change (2 ^ 8) with 256.
    rewrite Z.div_div by (try lia; apply Z.pow_pos_nonneg; lia).
    reflexivity.
Qed.

Lemma digits_le_value (bs : list byte) : digits (length bs) (le_value bs) = bs.
Proof.
  induction bs as [|b bs IH]; [reflexivity|].
  cbn [length]. rewrite digits_S. cbn [le_value].
  pose proof (Z_of_byte_range b).
  replace (Z_of_byte b + 256 * le_value bs)
    with (Z_of_byte b + le_value bs * 256) by lia.
  f_equal.
  - rewrite Z.mod_add by lia.
    rewrite Z.mod_small by lia. apply byte_of_Z_of_byte.
  - rewrite Z.div_add by lia.
    rewrite (Z.div_small (Z_of_byte b)) by lia. exact IH.
Qed.

Lemma le_value_digits (k : nat) (x : Z) :
  le_value (digits k x) = x mod 2 ^ (8 * Z.of_nat k).
Proof.
  revert x. induction k as [|k IH]; intros x.
  - simpl. rewrite Z.mod_1_r. reflexivity.
  - rewrite digits_S. cbn [le_value]. rewrite IH, Z_of_byte_of_Z, Z.mod_mod by lia.
    replace (8 * Z.of_nat (S k)) with (8 + 8 * Z.of_nat k) by lia.
    rewrite Z.pow_add_r by lia. change (2 ^ 8) with 256.
    rewrite Z.rem_mul_r by (try lia; apply Z.pow_pos_nonneg; lia).
    reflexivity.
Qed.

(** ** The bit operations of the byte conversions *)

Lemma lor_shiftl_add (a b s : Z) :
  0 <= s -> 0 <= a < 2 ^ s -> Z.lor a (Z.shiftl b s) = a + b * 2 ^ s.
Proof.
  intros Hs Ha.
  rewrite <- Z.shiftl_mul_pow2 by lia.
  rewrite <- Z.add_lor_land.
  assert (Z.land a (Z.shiftl b s) = 0) as ->; [|lia].
  apply Z.bits_inj'. intros n Hn.
  rewrite Z.land_spec, Z.bits_0.
  destruct (Z.lt_ge_cases n s) as [Hlt|Hge].
  - rewrite Z.shiftl_spec_low by lia. apply andb_false_r.
  - assert (Z.testbit a n = false) as ->; [|reflexivity].
    destruct (Z.eq_dec a 0) as [->|Hne]; [apply Z.bits_0|].
    apply Z.bits_above_log2; [lia|].
    assert (Z.log2 a < s) by (apply Z.log2_lt_pow2; lia). lia.
Qed.

Lemma wshl_small (w : word_t) (x s : Z) :
  0 <= s -> 0 <= x < 256 -> s + 8 <= bits w -> wshl w x s = x * 2 ^ s.
Proof.
  intros Hs Hx Hw. unfold wshl, wrap, modulus.
  rewrite Z.shiftl_mul_pow2 by lia.
  apply Z.mod_small.
  assert (0 < 2 ^ s) by (apply Z.pow_pos_nonneg; lia).
  split; [nia|].
  apply Z.lt_le_trans with (2 ^ (s + 8)).
  - rewrite Z.pow_add_r by lia. change (2 ^ 8) with 256. nia.
  - apply Z.pow_le_mono_r; lia.
Qed.

(** The byte selected by [(x & (0xff << shift)) >> shift]. *)
Lemma extract_byte (w : word_t) (x s : Z) :
  0 <= s -> s + 8 <= bits w ->
  wshr (Z.land x (wshl w 255 s)) s = (x / 2 ^ s) mod 256.
Proof.
  intros Hs Hw. unfold wshr.
  rewrite wshl_small by lia.
  rewrite <- Z.shiftl_mul_pow2 by lia.
  rewrite Z.shiftr_land, Z.shiftr_shiftl_l by lia.
  rewrite Z.sub_diag, Z.shiftl_0_r.
  change 255 with (Z.ones 8). rewrite Z.land_ones by lia.
  rewrite Z.shiftr_div_pow2 by lia. reflexivity.
Qed.

Lemma sizeof_cases (w : word_t) :
  (sizeof w = 4 /\ bits w = 32) \/ (sizeof w = 8 /\ bits w = 64).
Proof. destruct w; [left|right]; split; reflexivity. Qed.

Lemma element_bytes_little (w : word_t) (x : Z) :
  element_bytes little w x = digits (Z.to_nat (sizeof w)) x.
Proof.
  unfold element_bytes, digits. rewrite map_map. apply map_ext_in.
  intros i Hi. apply in_seq in Hi. simpl endian_eqb. cbv iota.
  unfold bits_per_byte.
  rewrite extract_byte; [f_equal; f_equal; f_equal; f_equal; lia | lia |].
  destruct (sizeof_cases w) as [[H1 H2]|[H1 H2]]; rewrite H1 in Hi; rewrite H2; lia.
Qed.

Lemma element_bytes_big (w : word_t) (x : Z) :
  element_bytes big w x = rev (digits (Z.to_nat (sizeof w)) x).
Proof.
  rewrite <- element_bytes_little. destruct w; reflexivity.
Qed.

Lemma word_of_bytes_le (w : word_t) (bs : list byte) :
  forall idx word,
    0 <= idx -> 0 <= word < 2 ^ (8 * idx) ->
    8 * (idx + Z.of_nat (length bs)) <= bits w ->
    word_of_bytes w idx bs word = word + 2 ^ (8 * idx) * le_value bs.
Proof.
  induction bs as [|b bs IH]; intros idx word Hidx Hword Hfit.
  - cbn [word_of_bytes le_value]. lia.
  - cbn [length] in Hfit. cbn [word_of_bytes]. cbn [le_value].
    pose proof (Z_of_byte_range b) as Hb.
    unfold bits_per_byte.
    replace (idx * 8) with (8 * idx) by lia.
    rewrite wshl_small by lia.
    rewrite <- Z.shiftl_mul_pow2 by lia.
    rewrite lor_shiftl_add by lia.
    assert (0 < 2 ^ (8 * idx)) by (apply Z.pow_pos_nonneg; lia).
    assert (E : 2 ^ (8 * (idx + 1)) = 2 ^ (8 * idx) * 256).
    { replace (8 * (idx + 1)) with (8 * idx + 8) by lia.
      rewrite Z.pow_add_r by lia. reflexivity. }
    rewrite IH; [rewrite E; ring | lia | rewrite E; nia | lia].
Qed.

Lemma word_of_bytes_value (w : word_t) (bs : list byte) :
  length bs = Z.to_nat (sizeof w) ->
  word_of_bytes w 0 bs 0 = le_value bs.
Proof.
  intros H. rewrite word_of_bytes_le.
  - change (2 ^ (8 * 0)) with 1. lia.
  - lia.
  - simpl. lia.
  - rewrite H. destruct w; simpl; lia.
Qed.

(** Reading a word from the buffer and writing it back in little-endian
    order gives the bytes read. *)
Lemma element_bytes_word_of_bytes (w : word_t) (bs : list byte) :
  length bs = Z.to_nat (sizeof w) ->
  element_bytes little w (word_of_bytes w 0 bs 0) = bs.
Proof.
  intros H. rewrite word_of_bytes_value by exact H.
  rewrite element_bytes_little, <- H. apply digits_le_value.
Qed.
(** ** The derived tables

    Each table is evaluated once; the values are those of FIPS 180-4 and of
    the static assertions of the repository's tests. *)

Ltac by_computation :=
  repeat match goal with |- _ /\ _ => split end; vm_compute; reflexivity.

Lemma sha2_64_bit_constants_value :
  sha2_64_bit_constants = Ok fips_64_bit_constants.
Proof. by_computation. Qed.

Lemma sha2_32_bit_constants_value :
  sha2_32_bit_constants = Ok fips_32_bit_constants.
Proof. by_computation. Qed.

Lemma sha512_initialization_vector_value :
  sha512_initialization_vector = Ok fips_sha512_vector.
Proof. by_computation. Qed.

Lemma sha384_initialization_vector_value :
  sha384_initialization_vector = Ok fips_sha384_vector.
Proof. by_computation. Qed.

Lemma sha256_initialization_vector_value :
  sha256_initialization_vector = Ok fips_sha256_vector.
Proof. by_computation. Qed.

Lemma sha224_initialization_vector_value :
  sha224_initialization_vector = Ok fips_sha224_vector.
Proof. by_computation. Qed.

Lemma sha1_constants_value :
  sha1_constants = Ok (flat_map (fun k => repeat k 20) sha1_band_values).
Proof. by_computation. Qed.

Lemma sha1_functions_value :
  sha1_functions =
    Ok (flat_map (fun f => repeat f 20) [choose uint32_t; parity; majority; parity]).
Proof. reflexivity. Qed.

Example test_sha2_32_bit_constants :
  firstn 4 fips_32_bit_constants = [0x428a2f98; 0x71374491; 0xb5c0fbcf; 0xe9b5dba5] /\
  skipn 60 fips_32_bit_constants = [0x90befffa; 0xa4506ceb; 0xbef9a3f7; 0xc67178f2].
Proof. by_computation. Qed.

Example test_initialization_vectors :
  fips_sha256_vector =
    [0x6a09e667; 0xbb67ae85; 0x3c6ef372; 0xa54ff53a;
     0x510e527f; 0x9b05688c; 0x1f83d9ab; 0x5be0cd19] /\
  fips_sha224_vector =
    [0xc1059ed8; 0x367cd507; 0x3070dd17; 0xf70e5939;
     0xffc00b31; 0x68581511; 0x64f98fa7; 0xbefa4fa4].
Proof. by_computation. Qed.

(** ** Message preprocessing *)

Lemma copy_to_app {A : Type} (src l old r : list A) :
  length old = length src ->
  copy_to src (l ++ old ++ r) (length l) = Ok (l ++ src ++ r).
Proof.
  intros H. unfold copy_to.
  replace (length (l ++ old ++ r)) with (length l + length src + length r)%nat
    by (rewrite !length_app; lia).
  destruct (Nat.leb_spec (length l + length src) (length l + length src + length r));
    [|lia].
  f_equal.
  rewrite firstn_app, firstn_all, Nat.sub_diag, firstn_O, app_nil_r.
  f_equal. f_equal.
  rewrite skipn_app, skipn_all2 by lia.
  replace (length l + length src - length l)%nat with (length old) by lia.
  rewrite skipn_app, skipn_all, Nat.sub_diag. reflexivity.
Qed.

Lemma copy_to_front {A : Type} (src old r : list A) :
  length old = length src ->
  copy_to src (old ++ r) 0 = Ok (src ++ r).
Proof. intros H. exact (copy_to_app src [] old r H). Qed.

Lemma set_nth_app {A : Type} (l r : list A) (y x : A) :
  set_nth (l ++ y :: r) (length l) x = l ++ x :: r.
Proof.
  induction l as [|a l IH]; [reflexivity|].
  cbn [app length set_nth]. rewrite IH. reflexivity.
Qed.

Lemma store_app {A : Type} (l r : list A) (y x : A) :
  store (l ++ y :: r) (length l) x = Ok (l ++ x :: r).
Proof.
  unfold store. rewrite length_app. cbn [length].
  destruct (Nat.ltb_spec (length l) (length l + S (length r))); [|lia].
  rewrite set_nth_app. reflexivity.
Qed.

Lemma length_element_bytes (e : endian) (w : word_t) (x : Z) :
  length (element_bytes e w x) = Z.to_nat (sizeof w).
Proof.
  unfold element_bytes. rewrite !length_map, length_seq. reflexivity.
Qed.

Lemma length_to_bytes (e : endian) (w : word_t) (l : list Z) :
  length (to_bytes e w l) = (Z.to_nat (sizeof w) * length l)%nat.
Proof.
  unfold to_bytes. induction l as [|x l IH]; cbn [flat_map length]; [lia|].
  rewrite length_app, length_element_bytes, IH. lia.
Qed.

Lemma blocks_value (w : word_t) (n : Z) :
  0 <= n -> fits w n ->
  blocks w n = (8 * n + 1 + 2 * bits w + (block_bits w - 1)) / block_bits w.
Proof.
  intros Hn Hf. unfold fits in Hf. unfold blocks, min_bits, wadd, wmul, wrap.
  change (modulus size_t) with (2 ^ 64). unfold bits_per_byte.
  assert (0 < block_bits w) by (destruct w; reflexivity).
  assert (0 < bits w) by (destruct w; reflexivity).
  rewrite (Z.mod_small (n * 8)) by lia.
  rewrite (Z.mod_small (n * 8 + 1)) by lia.
  rewrite (Z.mod_small (n * 8 + 1 + 2 * bits w)) by lia.
  rewrite (Z.mod_small (n * 8 + 1 + 2 * bits w + (block_bits w - 1))) by lia.
  f_equal. lia.
Qed.

(** The number of blocks is the least [k] with room for the message, the
    1 bit and the length field. *)
Lemma blocks_least (w : word_t) (n : Z) :
  0 <= n -> fits w n ->
  block_bits w * (blocks w n - 1) < 8 * n + 1 + 2 * bits w <= block_bits w * blocks w n.
Proof.
  intros Hn Hf. rewrite blocks_value by assumption.
  assert (0 < block_bits w) by (destruct w; reflexivity).
  pose proof (Z.div_mod (8 * n + 1 + 2 * bits w + (block_bits w - 1)) (block_bits w)
                ltac:(lia)) as E.
  pose proof (Z.mod_pos_bound (8 * n + 1 + 2 * bits w + (block_bits w - 1))
                (block_bits w) ltac:(lia)) as B.
  lia.
Qed.

Lemma message_size_value (w : word_t) (n : Z) :
  0 <= n -> fits w n ->
  wmul size_t (blocks w n) (block_bytes w) = blocks w n * block_bytes w /\
  n + 1 + 2 * sizeof w <= blocks w n * block_bytes w.
Proof.
  intros Hn Hf. pose proof (blocks_least w n Hn Hf) as L.
  unfold fits in Hf. unfold wmul, wrap. change (modulus size_t) with (2 ^ 64).
  destruct w;
    change (block_bits _) with 512 in *||change (block_bits _) with 1024 in *;
    change (block_bytes _) with 64 in *||change (block_bytes _) with 128 in *;
    change (bits _) with 32 in *||change (bits _) with 64 in *;
    change (sizeof _) with 4 in *||change (sizeof _) with 8 in *.
  - split; [apply Z.mod_small|]; lia.
  - split; [apply Z.mod_small|]; lia.
Qed.

(** The buffer that [preprocess_message] fills: the message, the byte 0x80,
    zero bytes, and a length field of [2 * sizeof w] bytes whose last eight
    hold the bit count. *)
Lemma padded_message_structure (w : word_t) (msg : list byte) :
  fits w (Z.of_nat (length msg)) ->
  exists zeros : nat,
    padded_message w msg =
      Ok (msg ++ [x80] ++ repeat x00 zeros ++
          (repeat x00 (Z.to_nat (2 * sizeof w - 8)) ++
           to_bytes big uint64_t [8 * Z.of_nat (length msg)])) /\
    Z.of_nat (length msg) + 1 + Z.of_nat zeros + 2 * sizeof w =
      blocks w (Z.of_nat (length msg)) * block_bytes w.
Proof.
  intros Hf. set (n := Z.of_nat (length msg)) in *.
  assert (Hn : 0 <= n) by (unfold n; lia).
  destruct (message_size_value w n Hn Hf) as [Hsz Hroom].
  set (total := blocks w n * block_bytes w) in *.
  set (pad := Z.to_nat (2 * sizeof w - 8)).
  assert (Hpad : Z.of_nat pad + 8 = 2 * sizeof w)
    by (unfold pad; destruct w; reflexivity).
  exists (Z.to_nat (total - n - 1 - 2 * sizeof w)).
  set (zeros := Z.to_nat (total - n - 1 - 2 * sizeof w)).
  split; [|unfold zeros; lia].
  unfold padded_message. fold n. rewrite Hsz. fold total.
  assert (Hlen8 : forall x, length (to_bytes big uint64_t [x]) = 8%nat)
    by (intros x; reflexivity).
  replace (wmul uint64_t (wrap uint64_t n) bits_per_byte) with (8 * n).
  2:{ unfold wmul, wrap, bits_per_byte. change (modulus uint64_t) with (2 ^ 64).
      unfold fits in Hf.
      assert (0 < block_bits w) by (destruct w; reflexivity).
      assert (0 < bits w) by (destruct w; reflexivity).
      rewrite (Z.mod_small n) by lia. rewrite Z.mod_small by lia. lia. }
  set (size := to_bytes big uint64_t [8 * n]).
  replace (Z.to_nat total) with (length msg + (1 + (zeros + pad + 8)))%nat
    by (unfold zeros, n in *; lia).
  rewrite repeat_app.
  rewrite copy_to_front by apply repeat_length.
  cbn [bind].
  cbn [repeat Nat.add]. rewrite store_app. cbn [bind].
  rewrite repeat_app.
  assert (Hl : length (msg ++ x80 :: repeat x00 (zeros + pad) ++ repeat x00 8)
               = (length (msg ++ x80 :: repeat x00 (zeros + pad)) + 8)%nat).
  { rewrite !length_app. cbn [length]. rewrite !length_app, !repeat_length. lia. }
  rewrite Hl. replace (length size) with 8%nat by (symmetry; apply Hlen8).
  destruct (Nat.ltb_spec (length (msg ++ x80 :: repeat x00 (zeros + pad)) + 8) 8);
    [lia|].
  replace (length (msg ++ x80 :: repeat x00 (zeros + pad)) + 8 - 8)%nat
    with (length (msg ++ x80 :: repeat x00 (zeros + pad))) by lia.
  pose proof (copy_to_app size (msg ++ x80 :: repeat x00 (zeros + pad))
                (repeat x00 8) [] ltac:(reflexivity)) as C.
  rewrite !app_nil_r in C.
  replace (msg ++ x80 :: repeat x00 (zeros + pad) ++ repeat x00 8)
    with ((msg ++ x80 :: repeat x00 (zeros + pad)) ++ repeat x00 8)
    by (rewrite <- app_assoc; reflexivity).
  rewrite C. f_equal.
  rewrite repeat_app, <- !app_assoc. cbn [app].
  rewrite <- !app_assoc. reflexivity.
Qed.

Lemma length_chunks {A : Type} (k c : nat) (l : list A) :
  length (chunks k c l) = c.
Proof.
  revert l. induction c as [|c IH]; intros l; cbn [chunks length]; [|rewrite IH];
    reflexivity.
Qed.

Lemma concat_chunks {A : Type} (k c : nat) (l : list A) :
  length l = (k * c)%nat -> concat (chunks k c l) = l.
Proof.
  revert l. induction c as [|c IH]; intros l H; cbn [chunks concat].
  - destruct l; [reflexivity|]. cbn [length] in H. lia.
  - rewrite IH by (rewrite length_skipn; lia). apply firstn_skipn.
Qed.

Lemma Forall_length_chunks {A : Type} (k c : nat) (l : list A) :
  length l = (k * c)%nat -> Forall (fun x => length x = k) (chunks k c l).
Proof.
  revert l. induction c as [|c IH]; intros l H; cbn [chunks]; constructor.
  - apply firstn_length_le. lia.
  - apply IH. rewrite length_skipn. lia.
Qed.

(** The words of [preprocess_message], written back in the byte order of
    the little-endian host, are the buffer they were read from. *)
Lemma to_bytes_words_of_chunks (w : word_t) (cs : list (list byte)) :
  Forall (fun bs => length bs = Z.to_nat (sizeof w)) cs ->
  to_bytes little w (map (fun bs => word_of_bytes w 0 bs 0) cs) = concat cs.
Proof.
  unfold to_bytes. induction 1 as [|bs cs Hbs _ IH]; [reflexivity|].
  cbn [map flat_map concat]. rewrite IH, element_bytes_word_of_bytes by exact Hbs.
  reflexivity.
Qed.

Lemma be_value_app (a b : list byte) :
  be_value (a ++ b) = fold_left (fun acc x => acc * 256 + Z_of_byte x) b (be_value a).
Proof. unfold be_value. apply fold_left_app. Qed.

Lemma be_value_zeros (k : nat) : be_value (repeat x00 k) = 0.
Proof.
  induction k as [|k IH]; [reflexivity|].
  cbn [repeat]. rewrite repeat_cons, be_value_app, IH. reflexivity.
Qed.

Lemma be_value_rev (l : list byte) : be_value (rev l) = le_value l.
Proof.
  induction l as [|b l IH]; [reflexivity|].
  cbn [rev le_value]. rewrite be_value_app, IH. cbn [fold_left]. lia.
Qed.

Lemma be_value_length_field (k : nat) (x : Z) :
  0 <= x < 2 ^ 64 ->
  be_value (repeat x00 k ++ to_bytes big uint64_t [x]) = x.
Proof.
  intros Hx. rewrite be_value_app, be_value_zeros.
  change (fold_left _ ?l 0) with (be_value l).
  unfold to_bytes. cbn [flat_map]. rewrite app_nil_r, element_bytes_big.
  rewrite be_value_rev, le_value_digits.
  apply Z.mod_small. exact Hx.
Qed.

(** Once the buffer is filled, [preprocess_message] returns it cut into
    blocks of sixteen words. *)
Lemma preprocess_message_blocks (w : word_t) (msg padded : list byte) :
  fits w (Z.of_nat (length msg)) ->
  padded_message w msg = Ok padded ->
  Z.of_nat (length padded) = blocks w (Z.of_nat (length msg)) * block_bytes w ->
  exists message_blocks,
    preprocess_message w msg = Ok message_blocks /\
    to_bytes little w (concat message_blocks) = padded /\
    Forall (fun block => length block = 16%nat) message_blocks /\
    Z.of_nat (length message_blocks) = blocks w (Z.of_nat (length msg)) /\
    0 < blocks w (Z.of_nat (length msg)).
Proof.
  intros Hfit Hp Hlen.
  set (n := Z.of_nat (length msg)) in *.
  assert (Hn : 0 <= n) by (unfold n; lia).
  assert (Hblocks : 0 < blocks w n).
  { rewrite blocks_value by assumption.
    assert (0 < block_bits w) by (destruct w; reflexivity).
    assert (0 < bits w) by (destruct w; reflexivity).
    apply Z.div_str_pos. lia. }
  set (nblocks := Z.to_nat (blocks w n)).
  set (k := Z.to_nat (sizeof w)).
  assert (Hk : length padded = (k * (16 * nblocks))%nat).
  { apply Nat2Z.inj. rewrite Hlen. unfold k, nblocks, block_bytes.
    destruct w; change (sizeof _) with 4 || change (sizeof _) with 8; lia. }
  exists (chunks 16 nblocks
            (map (fun bs => word_of_bytes w 0 bs 0)
                 (chunks k (16 * nblocks) padded))).
  split; [unfold preprocess_message; rewrite Hp; reflexivity|].
  split.
  { rewrite concat_chunks by (rewrite length_map, length_chunks; lia).
    rewrite to_bytes_words_of_chunks by (apply Forall_length_chunks; exact Hk).
    apply concat_chunks. exact Hk. }
  split.
  { apply Forall_length_chunks. rewrite length_map, length_chunks. lia. }
  split; [rewrite length_chunks; unfold nblocks; lia | exact Hblocks].
Qed.

Lemma length_padded (w : word_t) (msg : list byte) (zeros : nat) :
  Z.of_nat (length msg) + 1 + Z.of_nat zeros + 2 * sizeof w =
    blocks w (Z.of_nat (length msg)) * block_bytes w ->
  Z.of_nat
    (length (msg ++ [x80] ++ repeat x00 zeros ++
             (repeat x00 (Z.to_nat (2 * sizeof w - 8)) ++
              to_bytes big uint64_t [8 * Z.of_nat (length msg)]))) =
    blocks w (Z.of_nat (length msg)) * block_bytes w.
Proof.
  intros Hz. rewrite !length_app, !repeat_length, length_to_bytes. cbn [length].
  rewrite <- Hz.
  destruct w; change (sizeof uint32_t) with 4; change (sizeof uint64_t) with 8; lia.
Qed.

(** C2. For a message of n bytes and a word of W bits, the buffer that
    [preprocess_message] cuts into blocks is the message, the byte 0x80,
    zero bytes, and a length field of 2W/8 bytes: the big-endian value 8n,
    of which the last eight bytes (the low 64 bits) are populated. Its
    length is that of the least number of blocks of 16W/8 bytes with room
    for 8n + 1 + 2W bits, and the blocks returned are this buffer. *)
Theorem preprocess_message_padding (w : word_t) (msg : list byte)
    (Hfit : fits w (Z.of_nat (length msg))) :
  exists (padded : list byte) (message_blocks : list (list Z))
         (zeros : nat) (length_field : list byte),
    padded_message w msg = Ok padded /\
    preprocess_message w msg = Ok message_blocks /\
    to_bytes little w (concat message_blocks) = padded /\
    Forall (fun block => length block = 16%nat) message_blocks /\
    padded = msg ++ [x80] ++ repeat x00 zeros ++ length_field /\
    Z.of_nat (length length_field) = 2 * bits w / 8 /\
    be_value length_field = 8 * Z.of_nat (length msg) /\
    length_field =
      repeat x00 (length length_field - 8) ++
      to_bytes big uint64_t [(8 * Z.of_nat (length msg)) mod 2 ^ 64] /\
    Z.of_nat (length padded) =
      blocks w (Z.of_nat (length msg)) * (16 * bits w / 8) /\
    Z.of_nat (length message_blocks) = blocks w (Z.of_nat (length msg)) /\
    16 * bits w * (blocks w (Z.of_nat (length msg)) - 1)
      < 8 * Z.of_nat (length msg) + 1 + 2 * bits w
      <= 16 * bits w * blocks w (Z.of_nat (length msg)).
Proof.
  destruct (padded_message_structure w msg Hfit) as [zeros [Hp Hz]].
  pose proof (length_padded w msg zeros Hz) as Hlen.
  destruct (preprocess_message_blocks w msg _ Hfit Hp Hlen)
    as [message_blocks [Hpre [Hser [Hsix [Hcount _]]]]].
  set (n := Z.of_nat (length msg)) in *.
  assert (Hn : 0 <= n) by (unfold n; lia).
  pose proof (blocks_least w n Hn Hfit) as Hleast.
  set (pad := Z.to_nat (2 * sizeof w - 8)) in *.
  set (field := repeat x00 pad ++ to_bytes big uint64_t [8 * n]) in *.
  assert (Hbits : 8 * n < 2 ^ 64).
  { unfold fits in Hfit.
    assert (0 < block_bits w) by (destruct w; reflexivity).
    assert (0 < bits w) by (destruct w; reflexivity). lia. }
  assert (Hfield : Z.of_nat (length field) = 2 * sizeof w).
  { unfold field. rewrite length_app, repeat_length, length_to_bytes.
    unfold pad. destruct w; reflexivity. }
  exists (msg ++ [x80] ++ repeat x00 zeros ++ field), message_blocks, zeros, field.
  split; [exact Hp|].
  split; [exact Hpre|].
  split; [exact Hser|].
  split; [exact Hsix|].
  split; [reflexivity|].
  split; [rewrite Hfield; destruct w; reflexivity|].
  split; [apply be_value_length_field; lia|].
  split.
  { assert (Hsub : (length field - 8)%nat = pad).
    { assert (8 <= 2 * sizeof w) by (destruct w; cbv; discriminate).
      assert (0 <= 2 * sizeof w - 8) by lia. unfold pad. lia. }
    rewrite Hsub, Z.mod_small by lia. reflexivity. }
  split; [rewrite Hlen; destruct w; reflexivity|].
  split; [exact Hcount|].
  destruct w; exact Hleast.
Qed.

Lemma preprocess_message_padding_witness :
  exists (padded : list byte) (message_blocks : list (list Z))
         (zeros : nat) (length_field : list byte),
    padded_message uint32_t (repeat x61 63) = Ok padded /\
    preprocess_message uint32_t (repeat x61 63) = Ok message_blocks /\
    to_bytes little uint32_t (concat message_blocks) = padded /\
    Forall (fun block => length block = 16%nat) message_blocks /\
    padded = repeat x61 63 ++ [x80] ++ repeat x00 zeros ++ length_field /\
    Z.of_nat (length length_field) = 2 * bits uint32_t / 8 /\
    be_value length_field = 8 * Z.of_nat (length (repeat x61 63)) /\
    length_field =
      repeat x00 (length length_field - 8) ++
      to_bytes big uint64_t [(8 * Z.of_nat (length (repeat x61 63))) mod 2 ^ 64] /\
    Z.of_nat (length padded) =
      blocks uint32_t (Z.of_nat (length (repeat x61 63))) * (16 * bits uint32_t / 8) /\
    Z.of_nat (length message_blocks) =
      blocks uint32_t (Z.of_nat (length (repeat x61 63))) /\
    16 * bits uint32_t * (blocks uint32_t (Z.of_nat (length (repeat x61 63))) - 1)
      < 8 * Z.of_nat (length (repeat x61 63)) + 1 + 2 * bits uint32_t
      <= 16 * bits uint32_t * blocks uint32_t (Z.of_nat (length (repeat x61 63))).
Proof.
  apply (preprocess_message_padding uint32_t (repeat x61 63)).
  vm_compute. reflexivity.
Defined.

(** The number of blocks around a block boundary: one byte short of it and
    at it, for both word widths, and around the last length that leaves
    room for the length field in the same block. *)
Example blocks_boundaries :
  map (blocks uint32_t) [0; 55; 56; 63; 64; 119; 120] = [1; 1; 2; 2; 2; 2; 3] /\
  map (blocks uint64_t) [0; 111; 112; 127; 128; 239; 240] = [1; 1; 2; 2; 2; 2; 3].
Proof. split; reflexivity. Qed.
(** ** The engine runs to completion *)

Lemma for_loop_from_inv {S : Type} (P : nat -> S -> Prop)
    (body : nat -> S -> result S) (n : nat) :
  forall t s,
    P t s ->
    (forall i x, (t <= i < t + n)%nat -> P i x ->
                 exists x', body i x = Ok x' /\ P (Datatypes.S i) x') ->
    exists s', for_loop_from n t body s = Ok s' /\ P (t + n)%nat s'.
Proof.
  induction n as [|n IH]; intros t s HP Hbody.
  - exists s. rewrite Nat.add_0_r. split; [reflexivity | exact HP].
  - destruct (Hbody t s ltac:(lia) HP) as [s1 [E1 P1]].
    destruct (IH (Datatypes.S t) s1 P1) as [s' [E' P']].
    { intros i x Hi. apply Hbody. lia. }
    exists s'. cbn [for_loop_from]. rewrite E1. cbn [bind].
    split; [exact E' | replace (t + Datatypes.S n)%nat with (Datatypes.S t + n)%nat by lia;
                       exact P'].
Qed.

Lemma at_ok {A : Type} (a : list A) (i : nat) :
  (i < length a)%nat -> exists x, at_ a i = Ok x.
Proof.
  intros H. unfold at_.
  destruct (nth_error a i) as [x|] eqn:E; [exists x; reflexivity|].
  apply nth_error_None in E. lia.
Qed.

Lemma length_set_nth {A : Type} (a : list A) (i : nat) (x : A) :
  length (set_nth a i x) = length a.
Proof.
  revert i. induction a as [|y a IH]; intros i; [reflexivity|].
  destruct i; cbn [set_nth length]; [|rewrite IH]; reflexivity.
Qed.

Lemma set_at_ok {A : Type} (a : list A) (i : nat) (x : A) :
  (i < length a)%nat ->
  exists a', set_at a i x = Ok a' /\ length a' = length a.
Proof.
  intros H. exists (set_nth a i x). unfold set_at.
  destruct (Nat.ltb_spec i (length a)); [|lia].
  split; [reflexivity | apply length_set_nth].
Qed.

Lemma wadd_in_range (w : word_t) (x y : Z) : in_range w (wadd w x y).
Proof.
  unfold in_range, wadd, wrap. apply Z.mod_pos_bound.
  destruct w; reflexivity.
Qed.

Lemma add_working_in_range (w : word_t) (state v : list Z) :
  length state = length v ->
  length (add_working w state v) = length state /\
  Forall (in_range w) (add_working w state v).
Proof.
  revert v. induction state as [|s state IH]; intros [|x v] H;
    try discriminate H.
  - split; [reflexivity | constructor].
  - cbn [add_working length]. injection H as H.
    destruct (IH v H) as [L F].
    split; [rewrite L; reflexivity|].
    constructor; [apply wadd_in_range | exact F].
Qed.

Ltac at_step H :=
  let x := fresh "x" in
  let E := fresh "E" in
  destruct (at_ok _ _ H) as [x E]; rewrite E; cbn [bind]; clear E.

Lemma sha2_schedule_ok (w_t : word_t) (num_constants : nat) (block : list Z) :
  length block = 16%nat ->
  exists w, detail.sha2_schedule w_t num_constants block = Ok w /\
            length w = num_constants.
Proof.
  intros Hb. unfold detail.sha2_schedule, for_loop.
  destruct (for_loop_from_inv (fun _ w => length w = num_constants)
              (fun t w =>
                 x <- (if (t <? 16)%nat
                       then b <- at_ block t ;; Ok (big_endian_to_host w_t b)
                       else
                         w2 <- at_ w (t - 2) ;;
                         w7 <- at_ w (t - 7) ;;
                         w15 <- at_ w (t - 15) ;;
                         w16 <- at_ w (t - 16) ;;
                         Ok (wadd w_t
                               (wadd w_t (wadd w_t (sigma1 w_t w2) w7)
                                     (sigma0 w_t w15)) w16)) ;;
                 set_at w t x)
              num_constants 0%nat (repeat 0 num_constants))
    as [w [E L]].
  - apply repeat_length.
  - intros t w Ht Hw.
    destruct (Nat.ltb_spec t 16).
    + assert (Hi : (t < length block)%nat) by lia. at_step Hi.
      destruct (set_at_ok w t (big_endian_to_host w_t x) ltac:(lia)) as [w' [E' L']].
      exists w'. split; [exact E' | lia].
    + assert (H2 : (t - 2 < length w)%nat) by lia. at_step H2.
      assert (H7 : (t - 7 < length w)%nat) by lia. at_step H7.
      assert (H15 : (t - 15 < length w)%nat) by lia. at_step H15.
      assert (H16 : (t - 16 < length w)%nat) by lia. at_step H16.
      match goal with
      | |- exists _, set_at w t ?v = _ /\ _ =>
          destruct (set_at_ok w t v ltac:(lia)) as [w' [E' L']]
      end.
      exists w'. split; [exact E' | lia].
  - exists w. split; [exact E | exact L].
Qed.

Lemma sha2_round_ok (w_t : word_t) (constants w : list Z) (t : nat) (v : list Z) :
  length v = 8%nat -> (t < length constants)%nat -> (t < length w)%nat ->
  exists v', detail.sha2_round w_t constants w t v = Ok v' /\ length v' = 8%nat.
Proof.
  intros Hv Hk Hw.
  destruct v as [|a [|b [|c [|d [|e [|f [|g [|h [|? ?]]]]]]]]]; try discriminate Hv.
  unfold detail.sha2_round.
  cbn [at_ nth_error bind].
  at_step Hk. at_step Hw.
  cbn [at_ nth_error bind set_at set_nth length Nat.ltb Nat.leb].
  eexists. split; reflexivity.
Qed.

Lemma sha2_block_ok (w_t : word_t) (constants state block : list Z) :
  length state = 8%nat -> length block = 16%nat ->
  exists state',
    detail.sha2_block w_t constants state block = Ok state' /\
    length state' = 8%nat /\ Forall (in_range w_t) state'.
Proof.
  intros Hs Hb. unfold detail.sha2_block.
  destruct (sha2_schedule_ok w_t (length constants) block Hb) as [w [Ew Lw]].
  rewrite Ew. cbn [bind]. unfold for_loop.
  destruct (for_loop_from_inv (fun _ v => length v = 8%nat)
              (detail.sha2_round w_t constants w) (length w) 0%nat state Hs)
    as [v [Ev Lv]].
  { intros t v Ht Hv. apply sha2_round_ok; [exact Hv | lia | lia]. }
  rewrite Ev. cbn [bind].
  destruct (add_working_in_range w_t state v ltac:(lia)) as [L F].
  eexists. split; [reflexivity|]. split; [lia | exact F].
Qed.

Lemma fold_blocks_sha2_ok (w_t : word_t) (constants : list Z)
    (message_blocks : list (list Z)) :
  Forall (fun block => length block = 16%nat) message_blocks ->
  forall state,
    length state = 8%nat ->
    (message_blocks = [] -> Forall (in_range w_t) state) ->
    exists state',
      fold_blocks (detail.sha2_block w_t constants) message_blocks state = Ok state' /\
      length state' = 8%nat /\ Forall (in_range w_t) state'.
Proof.
  induction 1 as [|block message_blocks Hb _ IH]; intros state Hs Hr.
  - exists state. split; [reflexivity|]. split; [exact Hs | apply Hr; reflexivity].
  - destruct (sha2_block_ok w_t constants state block Hs Hb) as [s1 [E1 [L1 F1]]].
    destruct (IH s1 L1 (fun _ => F1)) as [s' [E' [L' F']]].
    exists s'. cbn [fold_blocks]. rewrite E1. cbn [bind].
    split; [exact E'|]. split; assumption.
Qed.

(** [sha2] reaches a final state of eight words of the word type, for
    every message, starting vector of eight words and table of constants. *)
Lemma sha2_state_ok (w_t : word_t) (message : list byte)
    (initialization_vector constants : list Z) :
  fits w_t (Z.of_nat (length message)) ->
  length initialization_vector = 8%nat ->
  exists state,
    detail.sha2_state w_t message initialization_vector constants = Ok state /\
    length state = 8%nat /\ Forall (in_range w_t) state.
Proof.
  intros Hf Hiv.
  destruct (padded_message_structure w_t message Hf) as [zeros [Hpad Hz]].
  destruct (preprocess_message_blocks w_t message _ Hf Hpad
              (length_padded w_t message zeros Hz))
    as [message_blocks [Hp [_ [Hb [Hn Hpos]]]]].
  unfold detail.sha2_state. rewrite Hp. cbn [bind].
  apply fold_blocks_sha2_ok; [exact Hb | exact Hiv|].
  intros ->. cbn [length] in Hn. lia.
Qed.
(** ** Words and their big-endian bytes *)

Lemma fold_left_map {A B C : Type} (f : A -> B -> A) (g : C -> B) (l : list C) :
  forall a, fold_left f (map g l) a = fold_left (fun a x => f a (g x)) l a.
Proof. induction l as [|x l IH]; intros a; [reflexivity | apply IH]. Qed.

Lemma fold_left_ext_in {A B : Type} (f g : A -> B -> A) (l : list B) :
  (forall x, In x l -> forall a, f a x = g a x) ->
  forall a, fold_left f l a = fold_left g l a.
Proof.
  induction l as [|x l IH]; intros H a; [reflexivity|].
  cbn [fold_left]. rewrite H by (left; reflexivity).
  apply IH. intros y Hy. apply H. right. exact Hy.
Qed.

Lemma digits_snoc (j : nat) (x : Z) :
  digits (S j) x = digits j x ++ [byte_of_Z ((x / 2 ^ (8 * Z.of_nat j)) mod 256)].
Proof. unfold digits. rewrite seq_S, map_app. reflexivity. Qed.

Lemma be_value_snoc (l : list byte) (b : byte) :
  be_value (l ++ [b]) = be_value l * 256 + Z_of_byte b.
Proof. rewrite be_value_app. reflexivity. Qed.

Lemma be_value_nonneg (l : list byte) : 0 <= be_value l.
Proof.
  induction l as [|b l IH] using rev_ind; [unfold be_value; simpl; lia|].
  rewrite be_value_snoc. pose proof (Z_of_byte_range b). lia.
Qed.

(** [byte_swap] writes the bytes of its argument in the opposite order. *)
Lemma byte_swap_value (w : word_t) (v : Z) :
  byte_swap w v = be_value (digits (Z.to_nat (sizeof w)) v).
Proof.
  unfold byte_swap. rewrite fold_left_map.
  set (k := Z.to_nat (sizeof w)).
  assert (Hk : Z.of_nat k = sizeof w /\ 8 * sizeof w = bits w)
    by (unfold k; destruct w; split; reflexivity).
  destruct Hk as [Hk Hb].
  rewrite (fold_left_ext_in _
             (fun sw i =>
                Z.lor sw (((v / 2 ^ (8 * Z.of_nat i)) mod 256)
                          * 2 ^ (8 * (Z.of_nat k - 1 - Z.of_nat i))))).
  2:{ intros i Hi sw. apply in_seq in Hi. unfold bits_per_byte.
      rewrite extract_byte by lia.
      rewrite wshl_small by (try lia; apply Z.mod_pos_bound; lia).
      f_equal. f_equal; [f_equal; f_equal; f_equal; lia | f_equal; lia]. }
  assert (G : forall j, (j <= k)%nat ->
            fold_left
              (fun sw i =>
                 Z.lor sw (((v / 2 ^ (8 * Z.of_nat i)) mod 256)
                           * 2 ^ (8 * (Z.of_nat k - 1 - Z.of_nat i))))
              (seq 0 j) 0
            = be_value (digits j v) * 2 ^ (8 * (Z.of_nat k - Z.of_nat j))).
  { induction j as [|j IH]; intros Hj; [reflexivity|].
    rewrite seq_S, fold_left_app, IH by lia. cbn [fold_left Nat.add].
    rewrite digits_snoc, be_value_snoc, Z_of_byte_of_Z, Z.mod_mod by lia.
    set (d := (v / 2 ^ (8 * Z.of_nat j)) mod 256).
    assert (Hd : 0 <= d < 256) by (apply Z.mod_pos_bound; lia).
    set (s := 8 * (Z.of_nat k - 1 - Z.of_nat j)).
    assert (Hs : 0 <= s) by (unfold s; lia).
    replace (8 * (Z.of_nat k - Z.of_nat j)) with (s + 8) by (unfold s; lia).
    replace (8 * (Z.of_nat k - Z.of_nat (S j))) with s by (unfold s; lia).
    assert (0 < 2 ^ s) by (apply Z.pow_pos_nonneg; lia).
    rewrite Z.lor_comm, <- (Z.shiftl_mul_pow2 _ (s + 8)) by lia.
    rewrite lor_shiftl_add.
    - rewrite Z.pow_add_r by lia. change (2 ^ 8) with 256. ring.
    - lia.
    - rewrite Z.pow_add_r by lia. change (2 ^ 8) with 256. nia. }
  rewrite (G k (le_n k)), Z.sub_diag. change (2 ^ (8 * 0)) with 1. lia.
Qed.

(** A word survives being written as big-endian bytes, read back byte by
    byte into the low end of a word, and converted with
    [big_endian_to_host]. *)
Lemma word_of_big_endian_bytes (w : word_t) (x : Z) :
  in_range w x ->
  big_endian_to_host w (word_of_bytes w 0 (element_bytes big w x) 0) = x.
Proof.
  intros Hx. unfold big_endian_to_host. cbn [native endian_eqb].
  rewrite word_of_bytes_value by apply length_element_bytes.
  rewrite byte_swap_value, element_bytes_big.
  set (k := Z.to_nat (sizeof w)).
  rewrite <- (digits_length k x) at 1.
  rewrite <- (length_rev (digits k x)), digits_le_value.
  rewrite be_value_rev, le_value_digits.
  apply Z.mod_small. unfold in_range, modulus in Hx.
  replace (8 * Z.of_nat k) with (bits w) by (unfold k; destruct w; reflexivity).
  exact Hx.
Qed.

Lemma chunks_concat {A : Type} (k : nat) (cs : list (list A)) :
  Forall (fun c => length c = k) cs ->
  chunks k (length cs) (concat cs) = cs.
Proof.
  induction 1 as [|c cs Hc _ IH]; [reflexivity|].
  cbn [length chunks concat].
  rewrite firstn_app, <- Hc, firstn_all, Nat.sub_diag, firstn_O, app_nil_r.
  rewrite skipn_app, skipn_all, Nat.sub_diag. cbn [app skipn].
  rewrite Hc, IH. reflexivity.
Qed.

(** The loop that turns the 64 bytes of a digest into eight words. *)
Lemma words_of_hash_result_chunks (hash_result : list byte) :
  length hash_result = 64%nat ->
  detail.words_of_hash_result hash_result =
    Ok (map (fun c => big_endian_to_host uint64_t (word_of_bytes uint64_t 0 c 0))
            (chunks 8 8 hash_result)).
Proof.
  intros H.
  do 64 (destruct hash_result as [|? hash_result]; [discriminate H|]).
  destruct hash_result; [|discriminate H].
  reflexivity.
Qed.

Lemma words_of_hash_result_to_bytes (state : list Z) :
  length state = 8%nat -> Forall (in_range uint64_t) state ->
  detail.words_of_hash_result (to_bytes big uint64_t state) = Ok state.
Proof.
  intros Hl Hr.
  rewrite words_of_hash_result_chunks by (rewrite length_to_bytes, Hl; reflexivity).
  f_equal. unfold to_bytes. rewrite flat_map_concat_map.
  replace 8%nat with (length (map (element_bytes big uint64_t) state)) at 2
    by (rewrite length_map; exact Hl).
  rewrite chunks_concat.
  - rewrite map_map. rewrite <- (map_id state) at 2.
    apply map_ext_in. intros x Hx. apply word_of_big_endian_bytes.
    rewrite Forall_forall in Hr. apply Hr. exact Hx.
  - apply Forall_forall. intros c Hc. apply in_map_iff in Hc.
    destruct Hc as [x [<- _]]. apply length_element_bytes.
Qed.
(** ** The SHA-512/t bootstrap *)

Lemma bytes_eqb_eq (a b : list byte) : bytes_eqb a b = true -> a = b.
Proof.
  revert b. induction a as [|x a IH]; intros [|y b] H; try discriminate H.
  - reflexivity.
  - cbn [bytes_eqb] in H. apply andb_prop in H. destruct H as [H1 H2].
    apply Byte.byte_dec_bl in H1. rewrite H1, (IH b H2). reflexivity.
Qed.

Lemma between_cases (P : Z -> bool) (n : nat) :
  forallb P (map Z.of_nat (seq 1 n)) = true ->
  forall t, 0 < t <= Z.of_nat n -> P t = true.
Proof.
  intros H t Ht. rewrite forallb_forall in H. apply H.
  apply in_map_iff. exists (Z.to_nat t). split; [lia|].
  apply in_seq. lia.
Qed.

Lemma bootstrap_message_checked :
  forallb bootstrap_message_check (map Z.of_nat (seq 1 511)) = true.
Proof. vm_compute. reflexivity. Qed.

Lemma sha512_t_message_value (t : Z) :
  0 < t < 512 ->
  detail.sha512_t_message t = Ok (bootstrap_message t) /\
  (1 <= String.length (decimal t) <= 3)%nat /\
  String.get 0 (decimal t) <> Some "0"%char.
Proof.
  intros Ht.
  pose proof (between_cases _ 511 bootstrap_message_checked t ltac:(lia)) as H.
  unfold bootstrap_message_check in H.
  apply andb_prop in H. destruct H as [H H4].
  apply andb_prop in H. destruct H as [H H3].
  apply andb_prop in H. destruct H as [H1 H2].
  split; [|split].
  - destruct (detail.sha512_t_message t) as [m|]; [|discriminate H1].
    apply bytes_eqb_eq in H1. rewrite H1. reflexivity.
  - apply Nat.leb_le in H2. apply Nat.leb_le in H3. lia.
  - destruct (String.get 0 (decimal t)) as [c|]; [|discriminate H4].
    intros E. injection E as ->. discriminate H4.
Qed.

Lemma length_bootstrap_message (t : Z) :
  (String.length (decimal t) <= 3)%nat ->
  (length (bootstrap_message t) <= 11)%nat.
Proof.
  intros H. unfold bootstrap_message, bytes_of_string.
  rewrite length_map.
  assert (L : forall s, length (list_ascii_of_string s) = String.length s).
  { induction s as [|c s IH]; [reflexivity|]. cbn. rewrite IH. reflexivity. }
  rewrite L. cbn [String.append String.length].
  lia.
Qed.

Lemma sha512_initialization_vector_ok :
  exists iv, sha512_initialization_vector = Ok iv /\ length iv = 8%nat.
Proof.
  exists fips_sha512_vector.
  split; [exact sha512_initialization_vector_value | reflexivity].
Qed.

Lemma sha2_64_bit_constants_ok :
  exists constants,
    sha2_64_bit_constants = Ok constants /\ length constants = 80%nat.
Proof.
  exists fips_64_bit_constants.
  split; [exact sha2_64_bit_constants_value | reflexivity].
Qed.

Lemma short_message_fits (w : word_t) (message : list byte) :
  (length message <= 1000)%nat -> fits w (Z.of_nat (length message)).
Proof.
  intros H. unfold fits.
  destruct w;
    change (bits uint32_t) with 32; change (block_bits uint32_t) with 512;
    change (bits uint64_t) with 64; change (block_bits uint64_t) with 1024;
    change (2 ^ 64) with 18446744073709551616; lia.
Qed.

Lemma sha2_digest (digest_bits : Z) (w_t : word_t) (message : list byte)
    (initialization_vector constants state : list Z) :
  detail.sha2_state w_t message initialization_vector constants = Ok state ->
  length state = 8%nat ->
  0 < digest_bits <= 8 * bits w_t ->
  detail.sha2 digest_bits w_t message initialization_vector constants =
    Ok (firstn (Z.to_nat (bytes digest_bits)) (to_bytes big w_t state)) /\
  Z.of_nat (length (firstn (Z.to_nat (bytes digest_bits)) (to_bytes big w_t state)))
    = bytes digest_bits.
Proof.
  intros Es Hl Hd. unfold detail.sha2. rewrite Es. cbn [bind].
  assert (Hlen : Z.of_nat (length (to_bytes big w_t state)) = 8 * sizeof w_t).
  { rewrite length_to_bytes, Hl. destruct w_t; reflexivity. }
  assert (Hb : 0 < bytes digest_bits <= 8 * sizeof w_t).
  { unfold bytes, bits_per_byte.
    destruct w_t; change (bits uint32_t) with 32 in Hd;
      change (bits uint64_t) with 64 in Hd;
      change (sizeof uint32_t) with 4; change (sizeof uint64_t) with 8;
      change (8 - 1) with 7;
      pose proof (Z.div_mod (digest_bits + 7) 8 ltac:(lia));
      pose proof (Z.mod_pos_bound (digest_bits + 7) 8 ltac:(lia)); lia. }
  destruct (Z.ltb_spec (bytes digest_bits) (8 * sizeof w_t)) as [Hlt|Hge].
  - split; [reflexivity|]. rewrite length_firstn. lia.
  - assert (E : bytes digest_bits = 8 * sizeof w_t) by lia.
    rewrite E, Z.eqb_refl.
    rewrite firstn_all2 by lia. split; [reflexivity | exact Hlen].
Qed.

(** The vector of SHA-512/t is the state that the engine reaches on the
    bootstrap message, from the SHA-512 vector xored with 0xa5 bytes. *)
Lemma sha512_t_bootstrap (t : Z) :
  0 < t < 512 -> t <> 384 ->
  exists iv512 constants state,
    sha512_initialization_vector = Ok iv512 /\
    sha2_64_bit_constants = Ok constants /\
    detail.sha2_state uint64_t (bootstrap_message t)
      (map (fun entry => Z.lxor entry 0xa5a5a5a5a5a5a5a5) iv512) constants
      = Ok state /\
    length state = 8%nat /\
    Forall (in_range uint64_t) state /\
    detail.sha512_t_initialization_vector t = Ok state.
Proof.
  intros Ht H384.
  destruct sha512_initialization_vector_ok as [iv512 [Eiv Liv]].
  destruct sha2_64_bit_constants_ok as [constants [Ek Lk]].
  destruct (sha512_t_message_value t Ht) as [Em [Hd _]].
  pose proof (length_bootstrap_message t ltac:(lia)) as Hm.
  destruct (sha2_state_ok uint64_t (bootstrap_message t)
              (map (fun entry => Z.lxor entry 0xa5a5a5a5a5a5a5a5) iv512) constants)
    as [state [Es [Ls Rs]]].
  { apply short_message_fits. lia. }
  { rewrite length_map. exact Liv. }
  exists iv512, constants, state.
  split; [exact Eiv|]. split; [exact Ek|]. split; [exact Es|].
  split; [exact Ls|]. split; [exact Rs|].
  unfold detail.sha512_t_initialization_vector.
  destruct (Z.eqb_spec t 0) as [?|_]; [lia|].
  destruct (Z.eqb_spec t 384) as [?|_]; [lia|].
  cbn [orb]. unfold detail.intermediate_iv.
  rewrite Eiv, Em, Ek. cbn [bind].
  destruct (sha2_digest 512 uint64_t _ _ _ _ Es Ls ltac:(cbv; split; congruence))
    as [Ed _].
  rewrite Ed. cbn [bind].
  rewrite firstn_all2 by (rewrite length_to_bytes, Ls; cbv; lia).
  apply words_of_hash_result_to_bytes; assumption.
Qed.

(** C4. For every truncation length t other than 0 and 384 and below 512,
    the SHA-512/t vector is the state of eight 64-bit words that the
    engine reaches, with the 64-bit round constants and the SHA-512 vector
    xored in every byte with 0xa5, on the ASCII message "SHA-512/" followed
    by the one to three decimal digits of t without leading zero; the
    state is taken whole. *)
Theorem sha512_t_initialization_vector_bootstrap (t : Z)
    (Ht : 0 < t < 512) (H384 : t <> 384) :
  exists iv512 constants state,
    sha512_initialization_vector = Ok iv512 /\
    sha2_64_bit_constants = Ok constants /\
    detail.sha2_state uint64_t
      (bytes_of_string (String.append "SHA-512/" (decimal t)))
      (map (fun entry => Z.lxor entry 0xa5a5a5a5a5a5a5a5) iv512) constants
      = Ok state /\
    length state = 8%nat /\
    detail.sha512_t_initialization_vector t = Ok state /\
    (1 <= String.length (decimal t) <= 3)%nat /\
    String.get 0 (decimal t) <> Some "0"%char.
Proof.
  destruct (sha512_t_bootstrap t Ht H384)
    as [iv512 [constants [state [Eiv [Ek [Es [Ls [_ Et]]]]]]]].
  destruct (sha512_t_message_value t Ht) as [_ [Hd Hz]].
  exists iv512, constants, state.
  split; [exact Eiv|]. split; [exact Ek|]. split; [exact Es|].
  split; [exact Ls|]. split; [exact Et|]. split; [exact Hd | exact Hz].
Qed.

Lemma sha512_t_initialization_vector_bootstrap_witness :
  exists iv512 constants state,
    sha512_initialization_vector = Ok iv512 /\
    sha2_64_bit_constants = Ok constants /\
    detail.sha2_state uint64_t
      (bytes_of_string (String.append "SHA-512/" (decimal 224)))
      (map (fun entry => Z.lxor entry 0xa5a5a5a5a5a5a5a5) iv512) constants
      = Ok state /\
    length state = 8%nat /\
    detail.sha512_t_initialization_vector 224 = Ok state /\
    (1 <= String.length (decimal 224) <= 3)%nat /\
    String.get 0 (decimal 224) <> Some "0"%char.
Proof. apply (sha512_t_initialization_vector_bootstrap 224); lia. Defined.

Lemma sha512_t_accepted (hash_bits : Z) (message : list byte) :
  0 < hash_bits < 512 -> hash_bits <> 384 ->
  fits uint64_t (Z.of_nat (length message)) ->
  exists iv constants state,
    detail.sha512_t_initialization_vector hash_bits = Ok iv /\
    sha2_64_bit_constants = Ok constants /\
    detail.sha2_state uint64_t message iv constants = Ok state /\
    length state = 8%nat /\
    length (to_bytes big uint64_t state) = 64%nat /\
    detail.sha2 512 uint64_t message iv constants
      = Ok (to_bytes big uint64_t state) /\
    sha512_t hash_bits message =
      Ok (firstn (Z.to_nat (bytes hash_bits)) (to_bytes big uint64_t state)) /\
    Z.of_nat (length (firstn (Z.to_nat (bytes hash_bits))
                        (to_bytes big uint64_t state))) = bytes hash_bits.
Proof.
  intros Hb H384 Hf.
  destruct (sha512_t_bootstrap hash_bits Hb H384)
    as [iv512 [constants [iv [_ [Ek [_ [Liv [_ Eiv]]]]]]]].
  destruct (sha2_state_ok uint64_t message iv constants Hf Liv)
    as [state [Es [Ls _]]].
  assert (L64 : length (to_bytes big uint64_t state) = 64%nat)
    by (rewrite length_to_bytes, Ls; reflexivity).
  exists iv, constants, state.
  split; [exact Eiv|]. split; [exact Ek|]. split; [exact Es|].
  split; [exact Ls|]. split; [exact L64|].
  split.
  { destruct (sha2_digest 512 uint64_t _ _ _ _ Es Ls ltac:(cbv; split; congruence))
      as [Ed _].
    rewrite Ed. rewrite firstn_all2 by (rewrite L64; cbv; lia). reflexivity. }
  destruct (sha2_digest hash_bits uint64_t _ _ _ _ Es Ls
              ltac:(change (bits uint64_t) with 64; lia)) as [Ed Ld].
  split; [|exact Ld].
  unfold sha512_t.
  destruct (Z.eqb_spec hash_bits 0) as [?|_]; [lia|].
  destruct (Z.eqb_spec hash_bits 384) as [?|_]; [lia|].
  destruct (Z.ltb_spec hash_bits 512) as [_|?]; [|lia].
  cbn [orb negb]. rewrite Eiv, Ek. exact Ed.
Qed.

(** C5. For every message, the digests of [sha512_t] at 224 and at 256 are
    the first 28 and the first 32 bytes of the 64-byte big-endian
    serialisation of the state that the SHA-512 engine reaches from the
    corresponding bootstrap vector; nothing is derived again. *)
Theorem sha512_t_truncation (message : list byte)
    (Hfit : fits uint64_t (Z.of_nat (length message))) :
  exists iv224 iv256 constants state224 state256,
    detail.sha512_t_initialization_vector 224 = Ok iv224 /\
    detail.sha512_t_initialization_vector 256 = Ok iv256 /\
    sha2_64_bit_constants = Ok constants /\
    detail.sha2_state uint64_t message iv224 constants = Ok state224 /\
    detail.sha2_state uint64_t message iv256 constants = Ok state256 /\
    length (to_bytes big uint64_t state224) = 64%nat /\
    length (to_bytes big uint64_t state256) = 64%nat /\
    detail.sha2 512 uint64_t message iv224 constants
      = Ok (to_bytes big uint64_t state224) /\
    detail.sha2 512 uint64_t message iv256 constants
      = Ok (to_bytes big uint64_t state256) /\
    sha512_t 224 message = Ok (firstn 28 (to_bytes big uint64_t state224)) /\
    sha512_t 256 message = Ok (firstn 32 (to_bytes big uint64_t state256)).
Proof.
  destruct (sha512_t_accepted 224 message ltac:(lia) ltac:(lia) Hfit)
    as [iv224 [constants [state224 [E1 [Ek [S1 [_ [L1 [F1 [D1 _]]]]]]]]]].
  destruct (sha512_t_accepted 256 message ltac:(lia) ltac:(lia) Hfit)
    as [iv256 [constants' [state256 [E2 [Ek' [S2 [_ [L2 [F2 [D2 _]]]]]]]]]].
  assert (constants' = constants) as ->.
  { rewrite Ek in Ek'. injection Ek' as E. symmetry. exact E. }
  exists iv224, iv256, constants, state224, state256.
  split; [exact E1|]. split; [exact E2|]. split; [exact Ek|].
  split; [exact S1|]. split; [exact S2|]. split; [exact L1|]. split; [exact L2|].
  split; [exact F1|]. split; [exact F2|]. split; [exact D1 | exact D2].
Qed.

Lemma sha512_t_truncation_witness :
  exists iv224 iv256 constants state224 state256,
    detail.sha512_t_initialization_vector 224 = Ok iv224 /\
    detail.sha512_t_initialization_vector 256 = Ok iv256 /\
    sha2_64_bit_constants = Ok constants /\
    detail.sha2_state uint64_t [x61; x62; x63] iv224 constants = Ok state224 /\
    detail.sha2_state uint64_t [x61; x62; x63] iv256 constants = Ok state256 /\
    length (to_bytes big uint64_t state224) = 64%nat /\
    length (to_bytes big uint64_t state256) = 64%nat /\
    detail.sha2 512 uint64_t [x61; x62; x63] iv224 constants
      = Ok (to_bytes big uint64_t state224) /\
    detail.sha2 512 uint64_t [x61; x62; x63] iv256 constants
      = Ok (to_bytes big uint64_t state256) /\
    sha512_t 224 [x61; x62; x63] = Ok (firstn 28 (to_bytes big uint64_t state224)) /\
    sha512_t 256 [x61; x62; x63] = Ok (firstn 32 (to_bytes big uint64_t state256)).
Proof.
  apply (sha512_t_truncation [x61; x62; x63]). vm_compute. reflexivity.
Defined.

(** C8. [sha512_t] at 0, at 384 and from 512 on is rejected by its
    requires clause, whatever the message, and gives no digest; at every
    other length the evaluation returns a digest of [bytes<hash_bits>]
    bytes, with no fault. *)
Theorem sha512_t_configuration (hash_bits : Z) (Hbits : 0 <= hash_bits) :
  ((hash_bits = 0 \/ hash_bits = 384 \/ 512 <= hash_bits) ->
   forall message,
     sha512_t hash_bits message = Err constraint_not_satisfied) /\
  (~ (hash_bits = 0 \/ hash_bits = 384 \/ 512 <= hash_bits) ->
   forall message,
     fits uint64_t (Z.of_nat (length message)) ->
     exists digest,
       sha512_t hash_bits message = Ok digest /\
       Z.of_nat (length digest) = bytes hash_bits).
Proof.
  split.
  - intros H message. unfold sha512_t.
    destruct (Z.eqb_spec hash_bits 0); [reflexivity|].
    destruct (Z.eqb_spec hash_bits 384); [reflexivity|].
    destruct (Z.ltb_spec hash_bits 512); [lia | reflexivity].
  - intros H message Hf.
    destruct (sha512_t_accepted hash_bits message ltac:(lia) ltac:(lia) Hf)
      as [iv [constants [state [_ [_ [_ [_ [_ [_ [D L]]]]]]]]]].
    eexists. split; [exact D | exact L].
Qed.

Lemma sha512_t_configuration_witness :
  (forall message, sha512_t 384 message = Err constraint_not_satisfied) /\
  (exists digest,
     sha512_t 224 [x61; x62; x63] = Ok digest /\
     Z.of_nat (length digest) = bytes 224).
Proof.
  split.
  - apply (sha512_t_configuration 384); lia.
  - apply (sha512_t_configuration 224); [lia | lia | vm_compute; reflexivity].
Defined.
(** ** Primes *)

(** Trial division up to the square root decides primality. *)
Lemma trial_division_prime (v : Z) :
  2 <= v ->
  (forall k, 2 <= k -> k * k <= v -> v mod k <> 0) ->
  Znumtheory.prime v.
Proof.
  intros Hv H. apply prime_alt. split; [lia|].
  intros n Hn [q Hq].
  assert (Hq2 : 2 <= q) by nia.
  destruct (Z.le_gt_cases (n * n) v) as [Hle|Hgt].
  - apply (H n); [lia | exact Hle|].
    rewrite Hq. apply Z.mod_mul. lia.
  - apply (H q); [exact Hq2 | nia|].
    rewrite Hq, Z.mul_comm. apply Z.mod_mul. lia.
Qed.

Lemma prime_trial_division (v : Z) :
  Znumtheory.prime v -> forall k, 2 <= k -> k * k <= v -> v mod k <> 0.
Proof.
  intros Hp k Hk Hkk Hm.
  apply prime_alt in Hp. destruct Hp as [_ Hp].
  apply (Hp k); [nia|].
  apply Z.mod_divide; [lia | exact Hm].
Qed.

Lemma no_wrap_square (d v : Z) :
  2 <= d -> (d - 1) * (d - 1) <= v -> v < no_wrap_bound ->
  wmul uint64_t d d = d * d /\ wadd uint64_t d 1 = d + 1.
Proof.
  intros Hd Hdv Hv. unfold no_wrap_bound in Hv.
  assert (Hd' : d <= 2 ^ 32 - 1) by nia.
  unfold wmul, wadd, wrap. change (modulus uint64_t) with (2 ^ 64).
  change (2 ^ 32) with 4294967296 in *.
  change (2 ^ 64) with 18446744073709551616.
  split; apply Z.mod_small; nia.
Qed.

(** [is_prime] from divisor [d] on: with enough depth it returns whether
    no divisor from [d] up to the square root divides [v]. *)
Lemma is_prime_run (n : nat) :
  forall v d,
    2 <= d -> (d - 1) * (d - 1) <= v -> v < no_wrap_bound ->
    (Z.to_nat (v - d) + 2 <= n)%nat ->
    exists b,
      is_prime n v d = Ok b /\
      (b = true <-> forall k, d <= k -> k * k <= v -> v mod k <> 0).
Proof.
  induction n as [|n IH]; intros v d Hd Hdv Hv Hn; [lia|].
  destruct (no_wrap_square d v Hd Hdv Hv) as [Hmul Hadd].
  cbn [is_prime]. rewrite Hmul, Hadd.
  destruct (Z.gtb_spec (d * d) v) as [Hgt|Hle].
  - exists true. split; [reflexivity|].
    split; [|reflexivity]. intros _ k Hk Hkk. nia.
  - destruct (Z.eqb_spec d 0) as [?|_]; [lia|].
    destruct (Z.eqb_spec (v mod d) 0) as [Hz|Hnz].
    + exists false. split; [reflexivity|].
      split; [discriminate|]. intros H. exfalso. apply (H d); [lia | exact Hle | exact Hz].
    + assert (H1 : (d + 1 - 1) * (d + 1 - 1) <= v)
        by (replace (d + 1 - 1) with d by lia; exact Hle).
      assert (H2 : (Z.to_nat (v - (d + 1)) + 2 <= n)%nat)
        by (assert (d < v) by nia; lia).
      destruct (IH v (d + 1) ltac:(lia) H1 Hv H2) as [b [Eb Hb]].
      exists b. split; [exact Eb|].
      rewrite Hb. split; intros H k Hk Hkk.
      * destruct (Z.eq_dec k d) as [->|Hne]; [exact Hnz | apply H; [lia | exact Hkk]].
      * apply H; [lia | exact Hkk].
Qed.

Lemma is_prime_correct (n : nat) (v : Z) :
  2 <= v -> v < no_wrap_bound -> (Z.to_nat v <= n)%nat ->
  exists b, is_prime n v 2 = Ok b /\ (b = true <-> Znumtheory.prime v).
Proof.
  intros Hv Hb Hn.
  destruct (is_prime_run n v 2) as [b [Eb Pb]]; try lia.
  exists b. split; [exact Eb|]. rewrite Pb. split.
  - intros H. apply trial_division_prime; assumption.
  - intros H k. apply prime_trial_division. exact H.
Qed.

(** [next_prime] below a prime [p]: with enough depth it returns the least
    prime from [v] on. *)
Lemma next_prime_run (p : Z) (g : nat) :
  Znumtheory.prime p -> p < no_wrap_bound ->
  forall v n,
    2 <= v <= p -> Z.to_nat (p - v) = g ->
    (Z.to_nat p + g + 2 <= n)%nat ->
    exists q,
      next_prime n v = Ok q /\ Znumtheory.prime q /\ v <= q <= p /\
      (forall r, Znumtheory.prime r -> v <= r -> q <= r).
Proof.
  intros Hp Hb. induction g as [|g IH]; intros v n Hv Hg Hn;
    (destruct n as [|n]; [lia|]);
    (destruct (is_prime_correct n v) as [b [Eb Pb]]; [lia | lia | lia|]);
    cbn [next_prime]; rewrite Eb; cbn [bind]; destruct b.
  - exists v. split; [reflexivity|]. split; [apply Pb; reflexivity|].
    split; [lia|]. intros r _ Hr. exact Hr.
  - exfalso. assert (v = p) by lia. subst v.
    destruct Pb as [_ Pb]. specialize (Pb Hp). discriminate Pb.
  - exists v. split; [reflexivity|]. split; [apply Pb; reflexivity|].
    split; [lia|]. intros r _ Hr. exact Hr.
  - assert (Hw : wadd uint64_t v 1 = v + 1).
    { unfold wadd, wrap. change (modulus uint64_t) with (2 ^ 64).
      unfold no_wrap_bound in Hb. apply Z.mod_small.
      change (2 ^ 32) with 4294967296 in Hb.
      change (2 ^ 64) with 18446744073709551616. lia. }
    rewrite Hw.
    destruct (IH (v + 1) n) as [q [Eq [Pq [Rq Mq]]]]; try lia.
    exists q. split; [exact Eq|]. split; [exact Pq|]. split; [lia|].
    intros r Hr Hvr. apply Mq; [exact Hr|].
    destruct (Z.eq_dec r v) as [->|Hne]; [|lia].
    destruct Pb as [_ Pb]. specialize (Pb Hr). discriminate Pb.
Qed.

(** [next_prime] returns 0 at 0, which is not a prime: [is_prime] accepts 0
    and 1 because no divisor has a square below them. *)
Lemma next_prime_zero :
  ~ (forall value, 0 <= value ->
       exists depth q,
         next_prime depth value = Ok q /\ Znumtheory.prime q /\ value <= q /\
         (forall r, Znumtheory.prime r -> value <= r -> q <= r)).
Proof.
  intros H. destruct (H 0 ltac:(lia)) as [depth [q [E [Hq _]]]].
  assert (q = 0) as ->.
  { destruct depth as [|[|depth]]; cbn in E; try discriminate E.
    injection E as E. symmetry. exact E. }
  destruct Hq as [Hq _]. lia.
Qed.

(** C6, amended. For every value from 2 on with a prime p at or above it
    below (2^32 - 1)^2, [next_prime] returns, at every sufficient depth of
    recursion and without fault, the least prime at or above the value. *)
Theorem next_prime_least_prime (value p : Z)
    (Hv : 2 <= value <= p) (Hp : Znumtheory.prime p) (Hb : p < no_wrap_bound) :
  exists q depth,
    (forall n, (depth <= n)%nat -> next_prime n value = Ok q) /\
    Znumtheory.prime q /\ value <= q /\
    (forall r, Znumtheory.prime r -> value <= r -> q <= r).
Proof.
  set (depth := (Z.to_nat p + Z.to_nat (p - value) + 2)%nat).
  destruct (next_prime_run p (Z.to_nat (p - value)) Hp Hb value depth Hv eq_refl
              (le_n _)) as [q [Eq [Pq [Rq Mq]]]].
  exists q, depth. split.
  - intros n Hn.
    destruct (next_prime_run p (Z.to_nat (p - value)) Hp Hb value n Hv eq_refl
                ltac:(unfold depth in Hn; lia)) as [q' [Eq' [Pq' [Rq' Mq']]]].
    rewrite Eq'. f_equal.
    apply Z.le_antisymm; [apply Mq' | apply Mq]; assumption || lia.
  - split; [exact Pq|]. split; [lia | exact Mq].
Qed.

Lemma prime_11 : Znumtheory.prime 11.
Proof.
  apply trial_division_prime; [lia|].
  intros k Hk Hkk.
  assert (k = 2 \/ k = 3) as [-> | ->] by nia; discriminate.
Qed.

Lemma next_prime_least_prime_witness :
  exists q depth,
    (forall n, (depth <= n)%nat -> next_prime n 8 = Ok q) /\
    Znumtheory.prime q /\ 8 <= q /\
    (forall r, Znumtheory.prime r -> 8 <= r -> q <= r).
Proof.
  apply (next_prime_least_prime 8 11); [lia | exact prime_11 | vm_compute; reflexivity].
Defined.

(** Near the top of the 64-bit range [next_prime] wraps around to 0. *)
Example next_prime_wraps :
  next_prime constexpr_depth (2 ^ 64 - 1) = Ok 0.
Proof. vm_compute. reflexivity. Qed.

(** The tests of [next_prime] and [is_prime]. *)
Example next_prime_tests :
  map (next_prime constexpr_depth) [2; 3; 4; 5; 6; 7; 8; 9] =
    [Ok 2; Ok 3; Ok 5; Ok 5; Ok 7; Ok 7; Ok 11; Ok 11] /\
  map (fun v => is_prime constexpr_depth v 2) [2; 3; 4; 5; 6; 7; 8; 9; 10; 11] =
    map Ok [true; true; false; true; false; true; false; false; false; true] /\
  map (next_prime constexpr_depth) [0; 1] = [Ok 0; Ok 1].
Proof.
  repeat match goal with |- _ /\ _ => split end; vm_compute; reflexivity.
Qed.
(** ** The floating literal *)

(** [7307508186654515 * 2^-159] has a 53-bit significand and lies within
    half a unit in the last place of 10^-32: it is the [double] that the
    literal [1.0e-32] denotes, and binary128 holds it exactly. *)
Lemma double_1e_32_nearest :
  2 ^ 52 <= Float128.double_1e_32_mantissa < 2 ^ 53 /\
  2 * Z.abs (Float128.double_1e_32_mantissa * 10 ^ 32
             - 2 ^ (- Float128.double_1e_32_exponent)) <= 10 ^ 32 /\
  Float128.lit_1e_32 =
    S754_finite false
      (Z.to_pos (Float128.double_1e_32_mantissa * 2 ^ 60))
      (Float128.double_1e_32_exponent - 60).
Proof.
  split; [split; vm_compute; congruence|].
  split; [vm_compute; congruence | vm_compute; reflexivity].
Qed.

(** ** The static assertions of the source's tests

    The values that the tests of the repository assert, evaluated on the
    embedding. *)

Example test_bits_and_bytes :
  map bits [uint32_t; uint64_t] = [32; 64] /\
  map bytes [0; 1; 7; 8; 9; 10; 15; 16; 17] = [0; 1; 1; 1; 2; 2; 2; 2; 3].
Proof. by_computation. Qed.

Example test_byte_swap :
  byte_swap uint32_t 0x89abcdef = 0xefcdab89 /\
  byte_swap uint64_t 0x0123456789abcdef = 0xefcdab8967452301.
Proof. by_computation. Qed.

Example test_float128_root :
  float128_root constexpr_depth (Float128.of_Z 9) 2 Float128.lit_1
    = Ok (Float128.of_Z 3) /\
  float128_root constexpr_depth (Float128.of_Z 27) 3 Float128.lit_1
    = Ok (Float128.of_Z 3) /\
  float128_root constexpr_depth (Float128.of_Z 81) 4 Float128.lit_1
    = Ok (Float128.of_Z 3).
Proof. by_computation. Qed.

Example test_prime :
  map prime [0; 1; 2; 3; 4; 5] = [Ok 2; Ok 3; Ok 5; Ok 7; Ok 11; Ok 13].
Proof. by_computation. Qed.

Example test_sha1_initialization_vector :
  sha1_initialization_vector =
    [0x67452301; 0xefcdab89; 0x98badcfe; 0x10325476; 0xc3d2e1f0].
Proof. by_computation. Qed.

(** The state that the engine reaches from explicit tables. *)
Lemma sha2_with_tables (digest_bits : Z) (w_t : word_t) (message : list byte)
    (iv_table constants_table : result (list Z)) (iv constants : list Z)
    (digest : list byte) :
  iv_table = Ok iv -> constants_table = Ok constants ->
  detail.sha2 digest_bits w_t message iv constants = Ok digest ->
  (iv' <- iv_table ;; constants' <- constants_table ;;
   detail.sha2 digest_bits w_t message iv' constants') = Ok digest.
Proof. intros -> -> H. exact H. Qed.

(** The vector of SHA-512/224 as FIPS 180-4 section 5.3.6.1 lists it. *)
Example test_sha512_224_initialization_vector :
  detail.sha512_t_initialization_vector 224 =
    Ok [0x8C3D37C819544DA2; 0x73E1996689DCD4D6; 0x1DFAB7AE32FF9C82;
        0x679DD514582F9FCF; 0x0F6D2B697BD44DA8; 0x77E36F7304C48942;
        0x3F9D85A86A1D36C8; 0x1112E6AD91D692A1].
Proof.
  destruct (sha512_t_bootstrap 224 ltac:(lia) ltac:(lia))
    as [iv512 [constants [state [Eiv [Ek [Es [_ [_ Et]]]]]]]].
  rewrite sha512_initialization_vector_value in Eiv. injection Eiv as <-.
  rewrite sha2_64_bit_constants_value in Ek. injection Ek as <-.
  rewrite Et. rewrite <- Es. vm_compute. reflexivity.
Qed.

Local Open Scope string_scope.

Example test_sha224_abc :
  sha224 (bytes_of_string "abc") =
    hex_bytes "23097d223405d8228642a477bda255b32aadbce4bda0b3f7e36c9da7".
Proof.
  unfold sha224.
  apply (sha2_with_tables _ _ _ _ _ _ _ _ sha224_initialization_vector_value
           sha2_32_bit_constants_value).
  vm_compute. reflexivity.
Qed.

Example test_sha512_abc :
  sha512 (bytes_of_string "abc") =
    hex_bytes ("ddaf35a193617abacc417349ae20413112e6fa4e89a97ea20a9eeee64b55d39a"
               ++ "2192992a274fc1a836ba3c23a3feebbd454d4423643ce80e2a9ac94fa54ca49f").
Proof.
  unfold sha512.
  apply (sha2_with_tables _ _ _ _ _ _ _ _ sha512_initialization_vector_value
           sha2_64_bit_constants_value).
  vm_compute. reflexivity.
Qed.

Example test_sha512_224_abc :
  sha512_t 224 (bytes_of_string "abc") =
    hex_bytes "4634270f707b6a54daae7530460842e20e37ed265ceee9a43e8924aa".
Proof.
  change (sha512_t 224 (bytes_of_string "abc"))
    with (iv <- detail.sha512_t_initialization_vector 224 ;;
          constants <- sha2_64_bit_constants ;;
          detail.sha2 224 uint64_t (bytes_of_string "abc") iv constants).
  apply (sha2_with_tables _ _ _ _ _ _ _ _ test_sha512_224_initialization_vector
           sha2_64_bit_constants_value).
  vm_compute. reflexivity.
Qed.

Local Close Scope string_scope.

Local Open Scope string_scope.

(** ** Known digests *)

(** C1. [sha256] of the three-byte message "abc" is the 32-byte digest
    written ba7816bf 8f01cfea 414140de 5dae2223 b00361a3 96177a9c b410ff61
    f20015ad in hexadecimal. *)
Theorem sha256_abc :
  exists digest,
    length (bytes_of_string "abc") = 3%nat /\
    sha256 (bytes_of_string "abc") = Ok digest /\
    length digest = 32%nat /\
    hex_bytes "ba7816bf8f01cfea414140de5dae2223b00361a396177a9cb410ff61f20015ad"
      = Ok digest.
Proof.
  eexists. split; [reflexivity|].
  split.
  - unfold sha256.
    apply (sha2_with_tables _ _ _ _ _ _ _ _ sha256_initialization_vector_value
             sha2_32_bit_constants_value).
    vm_compute. reflexivity.
  - split; vm_compute; reflexivity.
Qed.

(** The 39 hexadecimal digits a9993e36 4706816a ba3e2571 7850c26c 9cd0d89
    are one digit short of twenty bytes: [_hex_bytes] rejects them, and the
    digest of "abc" is no byte sequence they denote. *)
Lemma sha1_abc_39_digits :
  ~ (exists digest,
       sha1 (bytes_of_string "abc") = Ok digest /\
       length digest = 20%nat /\
       hex_bytes "a9993e364706816aba3e25717850c26c9cd0d89" = Ok digest).
Proof.
  intros [digest [_ [_ H]]]. vm_compute in H. discriminate H.
Qed.

(** C9, amended. [sha1] of the three-byte message "abc" is the 20-byte
    digest written a9993e36 4706816a ba3e2571 7850c26c 9cd0d89d in
    hexadecimal (forty digits). *)
Theorem sha1_abc :
  exists digest,
    length (bytes_of_string "abc") = 3%nat /\
    sha1 (bytes_of_string "abc") = Ok digest /\
    length digest = 20%nat /\
    hex_bytes "a9993e364706816aba3e25717850c26c9cd0d89d" = Ok digest.
Proof.
  eexists. split; [reflexivity|].
  split.
  - unfold sha1, detail.sha1, detail.sha1_state.
    rewrite sha1_functions_value, sha1_constants_value.
    vm_compute. reflexivity.
  - split; vm_compute; reflexivity.
Qed.

Local Close Scope string_scope.

(** ** Derived constants *)

(** C7. The first of the 32-bit round constants is 0x428a2f98, the first
    32 bits of the fractional part of the cube root of the first prime, 2
    (the root lies between (2^32 + 0x428a2f98) / 2^32 and the next multiple
    of 2^-32); and [prime] at 0..4 is 2, 3, 5, 7, 11. *)
Theorem first_round_constant_and_primes :
  (exists constants,
     sha2_32_bit_constants = Ok constants /\
     length constants = 64%nat /\
     at_ constants 0 = Ok 0x428a2f98) /\
  (p <- prime 0 ;; sha2_constant uint32_t (wrap uint32_t p) 3) = Ok 0x428a2f98 /\
  (2 ^ 32 + 0x428a2f98) ^ 3 <= 2 * (2 ^ 32) ^ 3 < (2 ^ 32 + 0x428a2f98 + 1) ^ 3 /\
  map prime [0; 1; 2; 3; 4] = [Ok 2; Ok 3; Ok 5; Ok 7; Ok 11].
Proof.
  split.
  - exists fips_32_bit_constants.
    split; [exact sha2_32_bit_constants_value|]. split; reflexivity.
  - split; [vm_compute; reflexivity|].
    split; [split; vm_compute; congruence|].
    vm_compute; reflexivity.
Qed.

Lemma below_cases (P : nat -> Prop) (n : nat) :
  Forall P (seq 0 n) -> forall t, (t < n)%nat -> P t.
Proof.
  intros H t Ht. rewrite Forall_forall in H. apply H.
  apply in_seq. lia.
Qed.

(** C10. The eighty SHA-1 constants are constant on each band of twenty
    rounds; the four band values are 0x5a827999, 0x6ed9eba1, 0x8f1bbcdc and
    0xca62c1d6, which are pairwise distinct and are floor(sqrt(p) * 2^30)
    for p = 2, 3, 5, 10. *)
Theorem sha1_constants_bands (t : nat) (Ht : (t < 80)%nat) :
  exists constants,
    sha1_constants = Ok constants /\
    length constants = 80%nat /\
    at_ constants t = at_ constants (20 * (t / 20)) /\
    at_ constants t = at_ sha1_band_values (t / 20) /\
    at_ constants t = (p <- at_ [2; 3; 5; 10] (t / 20) ;; Ok (Z.sqrt (p * 2 ^ 60))) /\
    NoDup sha1_band_values.
Proof.
  exists (flat_map (fun k => repeat k 20) sha1_band_values).
  split; [exact sha1_constants_value|].
  split; [reflexivity|].
  assert (Hd : NoDup sha1_band_values).
  { unfold sha1_band_values.
    repeat (constructor; [simpl; intuition discriminate|]). constructor. }
  revert t Ht. apply below_cases.
  repeat (constructor; [vm_compute; repeat split; try reflexivity; exact Hd|]).
  constructor.
Qed.

Lemma sha1_constants_bands_witness :
  exists constants,
    sha1_constants = Ok constants /\
    length constants = 80%nat /\
    at_ constants 37 = at_ constants (20 * (37 / 20)) /\
    at_ constants 37 = at_ sha1_band_values (37 / 20) /\
    at_ constants 37 = (p <- at_ [2; 3; 5; 10] (37 / 20) ;; Ok (Z.sqrt (p * 2 ^ 60))) /\
    NoDup sha1_band_values.
Proof. apply (sha1_constants_bands 37). lia. Defined.

(** ** Initialization vectors *)

(** The words of the SHA-224 vector are not the first 32 bits of the
    fractional parts of the square roots: at index 0 the vector holds
    0xc1059ed8, and the first 32 fractional bits of the square root of the
    ninth prime, 23, are 0xcbbb9d5d. *)
Lemma sha224_iv_not_first_bits :
  ~ (forall i, (i < 8)%nat ->
       (iv <- sha224_initialization_vector ;; at_ iv i) =
       (p <- prime (Z.of_nat i + 8) ;; sha2_constant uint32_t (wrap uint32_t p) 2)).
Proof.
  intros H. specialize (H 0%nat ltac:(lia)).
  rewrite sha224_initialization_vector_value in H.
  vm_compute in H. discriminate H.
Qed.

(** C3, amended. For every index i below 8: the SHA-256, SHA-384 and
    SHA-512 vector words at i are [sha2_constant] (the first W bits of the
    fractional part of the square root) of the prime i (SHA-256, SHA-512)
    or i+8 (SHA-384) at their word width; the SHA-224 word at i is the low
    32 bits of the 64-bit [sha2_constant] of the prime i+8, that is, bits
    33 to 64 of the fractional part of its square root. *)
Theorem initialization_vectors_from_roots (i : nat) (Hi : (i < 8)%nat) :
  exists p q iv224 iv256 iv384 iv512 c,
    prime (Z.of_nat i) = Ok p /\
    prime (Z.of_nat i + 8) = Ok q /\
    sha224_initialization_vector = Ok iv224 /\
    sha256_initialization_vector = Ok iv256 /\
    sha384_initialization_vector = Ok iv384 /\
    sha512_initialization_vector = Ok iv512 /\
    sha2_constant uint64_t q 2 = Ok c /\
    c = sqrt_fractional_bits uint64_t q /\
    at_ iv224 i = Ok (c mod 2 ^ 32) /\
    at_ iv384 i = Ok c /\
    at_ iv256 i = sha2_constant uint32_t p 2 /\
    at_ iv256 i = Ok (sqrt_fractional_bits uint32_t p) /\
    at_ iv512 i = sha2_constant uint64_t p 2 /\
    at_ iv512 i = Ok (sqrt_fractional_bits uint64_t p).
Proof.
  revert i Hi. apply below_cases.
  repeat (constructor;
          [eexists; eexists;
           exists fips_sha224_vector, fips_sha256_vector,
                  fips_sha384_vector, fips_sha512_vector;
           eexists;
           split; [vm_compute; reflexivity|];
           split; [vm_compute; reflexivity|];
           split; [exact sha224_initialization_vector_value|];
           split; [exact sha256_initialization_vector_value|];
           split; [exact sha384_initialization_vector_value|];
           split; [exact sha512_initialization_vector_value|];
           repeat (split; [vm_compute; reflexivity|]); vm_compute; reflexivity|]).
  constructor.
Qed.

Lemma initialization_vectors_from_roots_witness :
  exists p q iv224 iv256 iv384 iv512 c,
    prime (Z.of_nat 0) = Ok p /\
    prime (Z.of_nat 0 + 8) = Ok q /\
    sha224_initialization_vector = Ok iv224 /\
    sha256_initialization_vector = Ok iv256 /\
    sha384_initialization_vector = Ok iv384 /\
    sha512_initialization_vector = Ok iv512 /\
    sha2_constant uint64_t q 2 = Ok c /\
    c = sqrt_fractional_bits uint64_t q /\
    at_ iv224 0 = Ok (c mod 2 ^ 32) /\
    at_ iv384 0 = Ok c /\
    at_ iv256 0 = sha2_constant uint32_t p 2 /\
    at_ iv256 0 = Ok (sqrt_fractional_bits uint32_t p) /\
    at_ iv512 0 = sha2_constant uint64_t p 2 /\
    at_ iv512 0 = Ok (sqrt_fractional_bits uint64_t p).
Proof. apply (initialization_vectors_from_roots 0). lia. Defined.
(** * Further properties of the code *)

(** ** Byte order *)

Lemma be_value_le_value (l : list byte) : be_value l = le_value (rev l).
Proof. rewrite <- (rev_involutive l) at 1. apply be_value_rev. Qed.

Lemma bits_sizeof (w : word_t) : 8 * Z.of_nat (Z.to_nat (sizeof w)) = bits w.
Proof. destruct w; reflexivity. Qed.

Lemma byte_swap_in_range (w : word_t) (x : Z) : in_range w (byte_swap w x).
Proof.
  rewrite byte_swap_value, be_value_le_value.
  pose proof (le_value_bound (rev (digits (Z.to_nat (sizeof w)) x))) as H.
  rewrite length_rev, digits_length, bits_sizeof in H. exact H.
Qed.

(** [byte_swap] keeps a word in its type and undoes itself. *)
Theorem byte_swap_involutive (w : word_t) (x : Z) (Hx : in_range w x) :
  in_range w (byte_swap w x) /\ byte_swap w (byte_swap w x) = x.
Proof.
  split; [apply byte_swap_in_range|].
  rewrite (byte_swap_value w (byte_swap w x)), byte_swap_value.
  set (k := Z.to_nat (sizeof w)).
  rewrite (be_value_le_value (digits k x)).
  rewrite <- (digits_length k x) at 1.
  rewrite <- (length_rev (digits k x)), digits_le_value.
  rewrite be_value_rev, le_value_digits.
  unfold k. rewrite bits_sizeof. apply Z.mod_small. exact Hx.
Qed.

Lemma byte_swap_involutive_witness :
  in_range uint32_t (byte_swap uint32_t 0x01234567) /\
  byte_swap uint32_t (byte_swap uint32_t 0x01234567) = 0x01234567.
Proof. apply (byte_swap_involutive uint32_t 0x01234567). vm_compute. split; congruence. Defined.

(** [to_bytes] writes [sizeof] bytes per element; for an element of the
    word type they are its base-256 digits, most significant first for
    [big] and least significant first for [little], so the two orders are
    each other's reversal. *)
Theorem to_bytes_digits (w : word_t) (x : Z) (l : list Z) (Hx : in_range w x) :
  (forall e, Z.of_nat (length (to_bytes e w l)) = sizeof w * Z.of_nat (length l)) /\
  (forall e, to_bytes e w (x :: l) = to_bytes e w [x] ++ to_bytes e w l) /\
  be_value (to_bytes big w [x]) = x /\
  le_value (to_bytes little w [x]) = x /\
  to_bytes big w [x] = rev (to_bytes little w [x]).
Proof.
  split.
  { intros e. rewrite length_to_bytes. destruct w;
      change (sizeof uint32_t) with 4; change (sizeof uint64_t) with 8; lia. }
  split.
  { intros e. unfold to_bytes. cbn [flat_map]. rewrite app_nil_r. reflexivity. }
  unfold to_bytes. cbn [flat_map]. rewrite !app_nil_r.
  rewrite element_bytes_big, element_bytes_little.
  assert (E : le_value (digits (Z.to_nat (sizeof w)) x) = x).
  { rewrite le_value_digits, bits_sizeof. apply Z.mod_small. exact Hx. }
  split; [rewrite be_value_rev; exact E|].
  split; [exact E | reflexivity].
Qed.

Lemma to_bytes_digits_witness :
  (forall e, Z.of_nat (length (to_bytes e uint32_t [1; 2]))
             = sizeof uint32_t * Z.of_nat (length [1; 2])) /\
  (forall e, to_bytes e uint32_t [0x01234567; 1; 2]
             = to_bytes e uint32_t [0x01234567] ++ to_bytes e uint32_t [1; 2]) /\
  be_value (to_bytes big uint32_t [0x01234567]) = 0x01234567 /\
  le_value (to_bytes little uint32_t [0x01234567]) = 0x01234567 /\
  to_bytes big uint32_t [0x01234567] = rev (to_bytes little uint32_t [0x01234567]).
Proof.
  apply (to_bytes_digits uint32_t 0x01234567 [1; 2]). vm_compute. split; congruence.
Defined.

(** ** Rotations *)

Lemma pow2_pos (n : Z) : 0 <= n -> 0 < 2 ^ n.
Proof. intros H. apply Z.pow_pos_nonneg; lia. Qed.

Lemma pow2_split (a b : Z) : 0 <= a -> 0 <= b -> 2 ^ (a + b) = 2 ^ a * 2 ^ b.
Proof. intros. apply Z.pow_add_r; assumption. Qed.

(** The value of a rotation to the right: the low [n] bits move to the top. *)
Lemma rotate_right_value (w : word_t) (n x : Z) :
  0 < n < bits w -> in_range w x ->
  rotate_right w n x = x / 2 ^ n + (x mod 2 ^ n) * 2 ^ (bits w - n).
Proof.
  intros Hn Hx. unfold in_range, modulus in Hx.
  unfold rotate_right, wshr, wshl, wrap, modulus.
  pose proof (pow2_pos n ltac:(lia)) as Pn.
  pose proof (pow2_pos (bits w - n) ltac:(lia)) as Pm.
  assert (E : 2 ^ bits w = 2 ^ n * 2 ^ (bits w - n)).
  { rewrite <- pow2_split by lia. f_equal. lia. }
  rewrite Z.shiftr_div_pow2, Z.shiftl_mul_pow2 by lia.
  assert (Hmod : (x * 2 ^ (bits w - n)) mod 2 ^ bits w
                 = (x mod 2 ^ n) * 2 ^ (bits w - n)).
  { rewrite E. rewrite Z.mul_mod_distr_r by lia. reflexivity. }
  rewrite Hmod.
  rewrite <- (lor_shiftl_add (x / 2 ^ n) (x mod 2 ^ n) (bits w - n)).
  - rewrite Z.shiftl_mul_pow2 by lia. reflexivity.
  - lia.
  - split; [apply Z.div_pos; lia|].
    apply Z.div_lt_upper_bound; [lia|]. rewrite <- E. lia.
Qed.

Lemma rotate_left_value (w : word_t) (n x : Z) :
  0 < n < bits w -> in_range w x ->
  rotate_left w n x = x / 2 ^ (bits w - n) + (x mod 2 ^ (bits w - n)) * 2 ^ n.
Proof.
  intros Hn Hx. unfold in_range, modulus in Hx.
  unfold rotate_left, wshr, wshl, wrap, modulus.
  pose proof (pow2_pos n ltac:(lia)) as Pn.
  pose proof (pow2_pos (bits w - n) ltac:(lia)) as Pm.
  assert (E : 2 ^ bits w = 2 ^ (bits w - n) * 2 ^ n).
  { rewrite <- pow2_split by lia. f_equal. lia. }
  rewrite Z.shiftr_div_pow2, Z.shiftl_mul_pow2 by lia.
  assert (Hmod : (x * 2 ^ n) mod 2 ^ bits w = (x mod 2 ^ (bits w - n)) * 2 ^ n).
  { rewrite E. rewrite Z.mul_mod_distr_r by lia. reflexivity. }
  rewrite Hmod, Z.lor_comm.
  rewrite <- (lor_shiftl_add (x / 2 ^ (bits w - n)) (x mod 2 ^ (bits w - n)) n).
  - rewrite Z.shiftl_mul_pow2 by lia. reflexivity.
  - lia.
  - split; [apply Z.div_pos; lia|].
    apply Z.div_lt_upper_bound; [lia|]. rewrite <- E. lia.
Qed.

Lemma rotate_right_in_range (w : word_t) (n x : Z) :
  0 < n < bits w -> in_range w x -> in_range w (rotate_right w n x).
Proof.
  intros Hn Hx. rewrite rotate_right_value by assumption.
  unfold in_range, modulus in *.
  pose proof (pow2_pos n ltac:(lia)) as Pn.
  pose proof (pow2_pos (bits w - n) ltac:(lia)) as Pm.
  assert (E : 2 ^ bits w = 2 ^ n * 2 ^ (bits w - n)).
  { rewrite <- pow2_split by lia. f_equal. lia. }
  pose proof (Z.mod_pos_bound x (2 ^ n) Pn) as Hr.
  assert (Hq : 0 <= x / 2 ^ n < 2 ^ (bits w - n)).
  { split; [apply Z.div_pos; lia|].
    apply Z.div_lt_upper_bound; [lia|]. rewrite <- E. lia. }
  rewrite E. nia.
Qed.

(** On a word of the type and an amount strictly between 0 and the width,
    a rotation stays in the type, rotating left undoes rotating right, and
    rotating right by [n] is rotating left by the rest of the width. *)
Theorem rotate_left_right (w : word_t) (n x : Z)
    (Hn : 0 < n < bits w) (Hx : in_range w x) :
  in_range w (rotate_right w n x) /\
  rotate_left w n (rotate_right w n x) = x /\
  rotate_right w n x = rotate_left w (bits w - n) x.
Proof.
  pose proof (rotate_right_in_range w n x Hn Hx) as Hr.
  split; [exact Hr|]. split.
  - rewrite rotate_left_value by assumption.
    rewrite rotate_right_value by assumption.
    unfold in_range, modulus in Hx.
    pose proof (pow2_pos n ltac:(lia)) as Pn.
    pose proof (pow2_pos (bits w - n) ltac:(lia)) as Pm.
    assert (E : 2 ^ bits w = 2 ^ n * 2 ^ (bits w - n)).
    { rewrite <- pow2_split by lia. f_equal. lia. }
    pose proof (Z.mod_pos_bound x (2 ^ n) Pn) as Hm.
    assert (Hq : 0 <= x / 2 ^ n < 2 ^ (bits w - n)).
    { split; [apply Z.div_pos; lia|].
      apply Z.div_lt_upper_bound; [lia|]. rewrite <- E. lia. }
    rewrite Z.div_add by lia. rewrite Z.mod_add by lia.
    rewrite (Z.div_small (x / 2 ^ n)) by lia.
    rewrite (Z.mod_small (x / 2 ^ n)) by lia.
    pose proof (Z.div_mod x (2 ^ n) ltac:(lia)). lia.
  - rewrite rotate_right_value by assumption.
    rewrite rotate_left_value by (try assumption; lia).
    replace (bits w - (bits w - n)) with n by lia. reflexivity.
Qed.

Lemma rotate_left_right_witness :
  in_range uint32_t (rotate_right uint32_t 7 0x89abcdef) /\
  rotate_left uint32_t 7 (rotate_right uint32_t 7 0x89abcdef) = 0x89abcdef /\
  rotate_right uint32_t 7 0x89abcdef = rotate_left uint32_t (bits uint32_t - 7) 0x89abcdef.
Proof.
  apply (rotate_left_right uint32_t 7 0x89abcdef); vm_compute; split; congruence.
Defined.
(** ** The functions Ch, Maj and Parity *)

Lemma in_range_bits (w : word_t) (a : Z) :
  in_range w a <-> 0 <= a /\ forall i, bits w <= i -> Z.testbit a i = false.
Proof.
  assert (Hw : 0 < bits w) by (destruct w; reflexivity).
  unfold in_range, modulus. split.
  - intros [H0 H1]. split; [exact H0|]. intros i Hi.
    destruct (Z.eq_dec a 0) as [->|Hne]; [apply Z.bits_0|].
    apply Z.bits_above_log2; [exact H0|].
    assert (Z.log2 a < bits w) by (apply Z.log2_lt_pow2; lia). lia.
  - intros [H0 H1].
    assert (E : a mod 2 ^ bits w = a).
    { apply Z.bits_inj'. intros i Hi.
      destruct (Z.lt_ge_cases i (bits w)) as [Hlt|Hge].
      - apply Z.mod_pow2_bits_low. exact Hlt.
      - rewrite Z.mod_pow2_bits_high by lia. symmetry. apply H1. exact Hge. }
    rewrite <- E. apply Z.mod_pos_bound. apply Z.pow_pos_nonneg; lia.
Qed.

Lemma wrap_lnot_bit (w : word_t) (x i : Z) :
  0 <= i < bits w -> Z.testbit (wrap w (Z.lnot x)) i = negb (Z.testbit x i).
Proof.
  intros Hi. unfold wrap, modulus.
  rewrite Z.mod_pow2_bits_low by lia. apply Z.lnot_spec. lia.
Qed.

Lemma wrap_in_range (w : word_t) (x : Z) : in_range w (wrap w x).
Proof.
  unfold in_range, wrap, modulus. apply Z.mod_pos_bound.
  destruct w; reflexivity.
Qed.

(** Ch: each bit of [x] chooses the bit of the result from [y] or [z]. *)
Theorem choose_selects (w : word_t) (x y z i : Z)
    (Hx : in_range w x) (Hy : in_range w y) (Hz : in_range w z)
    (Hi : 0 <= i < bits w) :
  Z.testbit (choose w x y z) i =
    (if Z.testbit x i then Z.testbit y i else Z.testbit z i) /\
  in_range w (choose w x y z).
Proof.
  unfold choose. split.
  - rewrite Z.lxor_spec, !Z.land_spec, wrap_lnot_bit by exact Hi.
    destruct (Z.testbit x i), (Z.testbit y i), (Z.testbit z i); reflexivity.
  - apply in_range_bits in Hx, Hy, Hz.
    destruct Hx as [X0 X1], Hy as [Y0 Y1], Hz as [Z0 Z1].
    apply in_range_bits. split.
    + apply Z.lxor_nonneg. split; intros _; apply Z.land_nonneg; left;
        [apply (wrap_in_range w (Z.lnot x)) | exact X0].
    + intros j Hj. rewrite Z.lxor_spec, !Z.land_spec, (Y1 j Hj), (Z1 j Hj).
      rewrite !andb_false_r. reflexivity.
Qed.

Lemma choose_selects_witness :
  Z.testbit (choose uint32_t 0xf0f0f0f0 0x12345678 0x9abcdef0) 5 =
    (if Z.testbit 0xf0f0f0f0 5 then Z.testbit 0x12345678 5
     else Z.testbit 0x9abcdef0 5) /\
  in_range uint32_t (choose uint32_t 0xf0f0f0f0 0x12345678 0x9abcdef0).
Proof.
  apply (choose_selects uint32_t 0xf0f0f0f0 0x12345678 0x9abcdef0 5);
    vm_compute; split; congruence.
Defined.

(** Maj: a bit of the result is set when it is set in at least two of the
    three arguments. *)
Theorem majority_votes (w : word_t) (x y z i : Z)
    (Hx : in_range w x) (Hy : in_range w y) (Hz : in_range w z)
    (Hi : 0 <= i) :
  Z.testbit (majority x y z) i =
    (Z.testbit x i && Z.testbit y i
     || Z.testbit x i && Z.testbit z i
     || Z.testbit y i && Z.testbit z i) /\
  in_range w (majority x y z).
Proof.
  unfold majority. split.
  - rewrite !Z.lxor_spec, !Z.land_spec.
    destruct (Z.testbit x i), (Z.testbit y i), (Z.testbit z i); reflexivity.
  - apply in_range_bits in Hx, Hy, Hz.
    destruct Hx as [X0 X1], Hy as [Y0 Y1], Hz as [Z0 Z1].
    apply in_range_bits. split.
    + assert (0 <= Z.land x y) by (apply Z.land_nonneg; left; exact X0).
      assert (0 <= Z.land x z) by (apply Z.land_nonneg; left; exact X0).
      assert (0 <= Z.land y z) by (apply Z.land_nonneg; left; exact Y0).
      apply Z.lxor_nonneg. split; intros _; [assumption|].
      apply Z.lxor_nonneg. split; intros _; assumption.
    + intros j Hj.
      rewrite !Z.lxor_spec, !Z.land_spec, (X1 j Hj), (Y1 j Hj), (Z1 j Hj).
      reflexivity.
Qed.

Lemma majority_votes_witness :
  Z.testbit (majority 0xf0f0f0f0 0x12345678 0x9abcdef0) 4 =
    (Z.testbit 0xf0f0f0f0 4 && Z.testbit 0x12345678 4
     || Z.testbit 0xf0f0f0f0 4 && Z.testbit 0x9abcdef0 4
     || Z.testbit 0x12345678 4 && Z.testbit 0x9abcdef0 4) /\
  in_range uint32_t (majority 0xf0f0f0f0 0x12345678 0x9abcdef0).
Proof.
  apply (majority_votes uint32_t 0xf0f0f0f0 0x12345678 0x9abcdef0 4);
    vm_compute; try split; congruence.
Defined.

(** Parity: a bit of the result is set when it is set in an odd number of
    the three arguments. *)
Theorem parity_counts (x y z i : Z)
    (Hx : in_range uint32_t x) (Hy : in_range uint32_t y)
    (Hz : in_range uint32_t z) (Hi : 0 <= i) :
  Z.testbit (parity x y z) i =
    xorb (xorb (Z.testbit x i) (Z.testbit y i)) (Z.testbit z i) /\
  in_range uint32_t (parity x y z).
Proof.
  unfold parity. split.
  - rewrite !Z.lxor_spec. reflexivity.
  - apply in_range_bits in Hx, Hy, Hz.
    destruct Hx as [X0 X1], Hy as [Y0 Y1], Hz as [Z0 Z1].
    apply in_range_bits. split.
    + apply Z.lxor_nonneg. split; intros _; [exact Z0|].
      apply Z.lxor_nonneg. split; intros _; assumption.
    + intros j Hj. rewrite !Z.lxor_spec, (X1 j Hj), (Y1 j Hj), (Z1 j Hj).
      reflexivity.
Qed.

Lemma parity_counts_witness :
  Z.testbit (parity 0xf0f0f0f0 0x12345678 0x9abcdef0) 4 =
    xorb (xorb (Z.testbit 0xf0f0f0f0 4) (Z.testbit 0x12345678 4))
         (Z.testbit 0x9abcdef0 4) /\
  in_range uint32_t (parity 0xf0f0f0f0 0x12345678 0x9abcdef0).
Proof.
  apply (parity_counts 0xf0f0f0f0 0x12345678 0x9abcdef0 4);
    vm_compute; try split; congruence.
Defined.
(** ** [generate_array] *)






(** The eighty SHA-1 functions: Ch for the rounds 0 to 19, Parity for 20 to
    39, Maj for 40 to 59 and Parity for 60 to 79. *)
Theorem sha1_functions_bands (t : nat) (Ht : (t < 80)%nat) :
  exists fs f,
    sha1_functions = Ok fs /\ length fs = 80%nat /\ at_ fs t = Ok f /\
    forall x y z,
      f x y z =
        if (t <? 20)%nat then choose uint32_t x y z
        else if (t <? 40)%nat then parity x y z
        else if (t <? 60)%nat then majority x y z
        else parity x y z.
Proof.
  rewrite sha1_functions_value.
  revert t Ht. apply below_cases.
  repeat (constructor;
          [eexists; eexists; split; [reflexivity|]; split; [reflexivity|];
           split; [reflexivity|]; intros x y z; reflexivity|]).
  constructor.
Qed.

Lemma sha1_functions_bands_witness :
  exists fs f,
    sha1_functions = Ok fs /\ length fs = 80%nat /\ at_ fs 45 = Ok f /\
    forall x y z,
      f x y z =
        if (45 <? 20)%nat then choose uint32_t x y z
        else if (45 <? 40)%nat then parity x y z
        else if (45 <? 60)%nat then majority x y z
        else parity x y z.
Proof. apply (sha1_functions_bands 45). lia. Defined.

(** ** [float128_root] *)

(** [float128_root] returns the first Newton iterate, counted from the
    starting guess, that differs from its own Newton step by at most 1e-32
    in absolute value; no earlier iterate passes that test. *)
Theorem float128_root_first_within_tolerance (depth : nat)
    (value : Float128.t) (root : Z) (guess x : Float128.t)
    (H : float128_root depth value root guess = Ok x) :
  exists k,
    (k < depth)%nat /\
    x = Nat.iter k (newton_step value root) guess /\
    within_tolerance value root x = true /\
    forall j, (j < k)%nat ->
      within_tolerance value root (Nat.iter j (newton_step value root) guess)
        = false.
Proof.
  revert guess H. induction depth as [|depth IH]; intros guess H;
    [discriminate H|].
  cbn [float128_root] in H.
  fold (newton_step value root guess) in H.
  fold (within_tolerance value root guess) in H.
  destruct (within_tolerance value root guess) eqn:T.
  - injection H as <-. exists 0%nat.
    split; [lia|]. split; [reflexivity|]. split; [exact T|].
    intros j Hj. lia.
  - destruct (IH _ H) as [k [Hk [Ex [Tx Hj]]]].
    exists (S k). split; [lia|].
    split; [rewrite Nat.iter_succ_r; exact Ex|]. split; [exact Tx|].
    intros [|j] Hlt; [exact T|]. rewrite Nat.iter_succ_r. apply Hj. lia.
Qed.

Lemma float128_root_first_within_tolerance_witness :
  exists k,
    (k < constexpr_depth)%nat /\
    Float128.of_Z 3 = Nat.iter k (newton_step (Float128.of_Z 9) 2) Float128.lit_1 /\
    within_tolerance (Float128.of_Z 9) 2 (Float128.of_Z 3) = true /\
    forall j, (j < k)%nat ->
      within_tolerance (Float128.of_Z 9) 2
        (Nat.iter j (newton_step (Float128.of_Z 9) 2) Float128.lit_1) = false.
Proof.
  apply (float128_root_first_within_tolerance constexpr_depth (Float128.of_Z 9) 2
           Float128.lit_1 (Float128.of_Z 3)).
  vm_compute. reflexivity.
Defined.
(** ** Primes and roots *)

(** From 2 on, below the bound where its products wrap around and with
    depth to spare, [is_prime] decides primality; it accepts 0 and 1, as
    its note says. *)
Theorem is_prime_decides (depth : nat) (value : Z)
    (Hv : 2 <= value < no_wrap_bound) (Hd : (Z.to_nat value <= depth)%nat) :
  (exists b, is_prime depth value 2 = Ok b /\ (b = true <-> Znumtheory.prime value)) /\
  is_prime depth 0 2 = Ok true /\ is_prime depth 1 2 = Ok true /\
  ~ Znumtheory.prime 0 /\ ~ Znumtheory.prime 1.
Proof.
  split; [apply is_prime_correct; lia|].
  destruct depth as [|depth]; [lia|].
  split; [reflexivity|]. split; [reflexivity|].
  split; intros [H _]; lia.
Qed.

Lemma is_prime_decides_witness :
  (exists b, is_prime constexpr_depth 91 2 = Ok b /\ (b = true <-> Znumtheory.prime 91)) /\
  is_prime constexpr_depth 0 2 = Ok true /\ is_prime constexpr_depth 1 2 = Ok true /\
  ~ Znumtheory.prime 0 /\ ~ Znumtheory.prime 1.
Proof.
  apply (is_prime_decides constexpr_depth 91); vm_compute; try split; congruence || lia.
Defined.

(** [next_prime] returns a prime unchanged, so applying it to its own
    result changes nothing. *)
Theorem next_prime_of_prime (depth : nat) (p : Z)
    (Hp : Znumtheory.prime p) (Hb : p < no_wrap_bound)
    (Hd : (Z.to_nat p + 2 <= depth)%nat) :
  next_prime depth p = Ok p.
Proof.
  assert (H2 : 2 <= p) by (destruct Hp as [H _]; lia).
  destruct (next_prime_run p 0 Hp Hb p depth ltac:(lia) ltac:(lia) ltac:(lia))
    as [q [Eq [_ [Rq _]]]].
  rewrite Eq. f_equal. lia.
Qed.

Lemma next_prime_of_prime_witness : next_prime constexpr_depth 11 = Ok 11.
Proof.
  apply (next_prime_of_prime constexpr_depth 11);
    [exact prime_11 | vm_compute; reflexivity | vm_compute; lia].
Defined.

Lemma primes_checked :
  forallb (fun i => result_Z_eqb (prime (Z.of_nat i)) (at_ primes_to_409 i))
          (seq 0 80) = true.
Proof. vm_compute. reflexivity. Qed.

Lemma prime_at (i : nat) :
  (i < 80)%nat -> prime (Z.of_nat i) = at_ primes_to_409 i.
Proof.
  intros Hi. pose proof primes_checked as H.
  rewrite forallb_forall in H.
  specialize (H i ltac:(apply in_seq; lia)). cbv beta in H.
  destruct (prime (Z.of_nat i)) as [x|], (at_ primes_to_409 i) as [y|];
    try discriminate H.
  apply Z.eqb_eq in H. rewrite H. reflexivity.
Qed.

Lemma primes_to_409_checked :
  forallb (fun v => (v <? 2) || Bool.eqb (is_prime_bool v)
                                  (existsb (Z.eqb v) primes_to_409))
          (map Z.of_nat (seq 1 409)) = true.
Proof. vm_compute. reflexivity. Qed.

Lemma primes_to_409_complete (v : Z) :
  2 <= v <= 409 -> (Znumtheory.prime v <-> In v primes_to_409).
Proof.
  intros Hv.
  assert (Hb : v < no_wrap_bound)
    by (change no_wrap_bound with 18446744065119617025; lia).
  assert (Hd : (Z.to_nat v <= constexpr_depth)%nat).
  { change constexpr_depth with (Z.to_nat 512). apply Z2Nat.inj_le; lia. }
  destruct (is_prime_correct constexpr_depth v ltac:(lia) Hb Hd) as [b [Eb Pb]].
  clear Hb Hd.
  pose proof (between_cases _ 409 primes_to_409_checked v) as H.
  assert (Hr : 0 < v <= Z.of_nat 409) by (clear H; lia).
  specialize (H Hr). clear Hr. cbv beta in H.
  destruct (Z.ltb_spec v 2) as [Hlt|_]; [exfalso; clear H; lia|].
  apply Bool.eqb_prop in H.
  unfold is_prime_bool in H. rewrite Eb in H.
  assert (Hin : existsb (Z.eqb v) primes_to_409 = true <-> In v primes_to_409).
  { rewrite existsb_exists. split.
    - intros [x [Hx Ex]]. apply Z.eqb_eq in Ex. subst x. exact Hx.
    - intros Hx. exists v. split; [exact Hx | apply Z.eqb_refl]. }
  split.
  - intros Hp. apply Hin. rewrite <- H. apply Pb. exact Hp.
  - intros Hx. apply Pb. rewrite H. apply Hin. exact Hx.
Qed.

(** [prime] enumerates the primes in increasing order from index 0: for
    every index below 80 it returns the entry of that index in the list of
    all primes up to 409, which is strictly increasing. *)
Theorem prime_enumerates (index : nat) (Hi : (index < 80)%nat) :
  prime (Z.of_nat index) = at_ primes_to_409 index /\
  length primes_to_409 = 80%nat /\
  StronglySorted Z.lt primes_to_409 /\
  (forall v, 2 <= v <= 409 -> (Znumtheory.prime v <-> In v primes_to_409)) /\
  (forall v, In v primes_to_409 -> 2 <= v <= 409).
Proof.
  split; [apply prime_at; exact Hi|].
  split; [reflexivity|].
  split.
  { unfold primes_to_409.
    repeat (constructor; [|repeat (constructor; [reflexivity|]); constructor]).
    constructor. }
  split; [exact primes_to_409_complete|].
  intros v Hv.
  assert (F : Forall (fun v => 2 <= v <= 409) primes_to_409).
  { unfold primes_to_409. repeat (constructor; [lia|]). constructor. }
  rewrite Forall_forall in F. exact (F v Hv).
Qed.

Lemma prime_enumerates_witness :
  prime (Z.of_nat 79) = at_ primes_to_409 79 /\
  length primes_to_409 = 80%nat /\
  StronglySorted Z.lt primes_to_409 /\
  (forall v, 2 <= v <= 409 -> (Znumtheory.prime v <-> In v primes_to_409)) /\
  (forall v, In v primes_to_409 -> 2 <= v <= 409).
Proof. apply (prime_enumerates 79). lia. Defined.

Lemma root_fractional_bits_checked (r nbits p k : Z) :
  root_fractional_bits_check r nbits p k = true -> root_fractional_bits r nbits p k.
Proof.
  unfold root_fractional_bits_check, root_fractional_bits. intros H.
  apply andb_prop in H. destruct H as [H Hm].
  apply andb_prop in H. destruct H as [H0 H1].
  split; [lia|].
  apply existsb_exists in Hm. destruct Hm as [m [Hin Hm]].
  apply andb_prop in Hm. destruct Hm as [Ha Hb].
  exists m. split; [|lia].
  assert (F : Forall (fun m => 0 <= m)
                [0; 1; 2; 3; 4; 5; 6; 7; 8; 9; 10; 11; 12; 13; 14; 15; 16; 17;
                 18; 19; 20]) by (repeat (constructor; [lia|]); constructor).
  rewrite Forall_forall in F. exact (F m Hin).
Qed.

Lemma round_constants_checked :
  forallb (fun pk => root_fractional_bits_check 3 32 (fst pk) (snd pk))
          (combine primes_to_409 fips_32_bit_constants) = true /\
  forallb (fun pk => root_fractional_bits_check 3 64 (fst pk) (snd pk))
          (combine primes_to_409 fips_64_bit_constants) = true.
Proof. split; vm_compute; reflexivity. Qed.

Lemma combine_at {A B : Type} (la : list A) (lb : list B) (i : nat) (a : A) (b : B) :
  at_ la i = Ok a -> at_ lb i = Ok b -> In (a, b) (combine la lb).
Proof.
  unfold at_. revert lb i. induction la as [|x la IH]; intros [|y lb] [|i] Ha Hb;
    cbn [nth_error] in *; try discriminate.
  - injection Ha as <-. injection Hb as <-. left. reflexivity.
  - right. apply (IH lb i); assumption.
Qed.

(** Every round constant is exact: the constant of index i in the 32-bit
    table (i below 64) and in the 64-bit table (i below 80) holds the first
    32, respectively 64, bits of the fractional part of the cube root of
    the prime of index i. *)
Theorem round_constants_are_cube_roots (i : nat) (Hi : (i < 80)%nat) :
  exists p constants64 k64,
    prime (Z.of_nat i) = Ok p /\
    sha2_64_bit_constants = Ok constants64 /\
    at_ constants64 i = Ok k64 /\
    root_fractional_bits 3 64 p k64 /\
    ((i < 64)%nat ->
     exists constants32 k32,
       sha2_32_bit_constants = Ok constants32 /\
       at_ constants32 i = Ok k32 /\
       root_fractional_bits 3 32 p k32 /\
       k32 = k64 / 2 ^ 32).
Proof.
  destruct round_constants_checked as [C32 C64].
  rewrite forallb_forall in C32, C64.
  rewrite (prime_at i Hi).
  destruct (at_ok primes_to_409 i ltac:(exact Hi)) as [p Ep].
  destruct (at_ok fips_64_bit_constants i ltac:(exact Hi)) as [k64 Ek].
  exists p, fips_64_bit_constants, k64.
  split; [exact Ep|]. split; [exact sha2_64_bit_constants_value|].
  split; [exact Ek|].
  split.
  { apply root_fractional_bits_checked.
    exact (C64 (p, k64) (combine_at _ _ i p k64 Ep Ek)). }
  intros Hi'.
  destruct (at_ok fips_32_bit_constants i ltac:(exact Hi')) as [k32 Ek32].
  exists fips_32_bit_constants, k32.
  split; [exact sha2_32_bit_constants_value|]. split; [exact Ek32|].
  split.
  { apply root_fractional_bits_checked.
    exact (C32 (p, k32) (combine_at _ _ i p k32 Ep Ek32)). }
  unfold fips_32_bit_constants, at_ in Ek32.
  rewrite nth_error_map, nth_error_firstn in Ek32.
  destruct (Nat.ltb_spec i 64) as [_|?]; [|lia].
  unfold at_ in Ek. destruct (nth_error fips_64_bit_constants i) as [k|];
    [|discriminate Ek].
  injection Ek as <-. cbn [option_map] in Ek32. injection Ek32 as <-.
  apply Z.shiftr_div_pow2. lia.
Qed.

Lemma round_constants_are_cube_roots_witness :
  exists p constants64 k64,
    prime (Z.of_nat 5) = Ok p /\
    sha2_64_bit_constants = Ok constants64 /\
    at_ constants64 5 = Ok k64 /\
    root_fractional_bits 3 64 p k64 /\
    ((5 < 64)%nat ->
     exists constants32 k32,
       sha2_32_bit_constants = Ok constants32 /\
       at_ constants32 5 = Ok k32 /\
       root_fractional_bits 3 32 p k32 /\
       k32 = k64 / 2 ^ 32).
Proof. apply (round_constants_are_cube_roots 5). lia. Defined.
(** ** Words of a message *)

(** The big-endian bytes of a byte-swapped word are the little-endian
    bytes of the word. *)
Lemma element_bytes_byte_swap (w : word_t) (x : Z) :
  element_bytes big w (byte_swap w x) = element_bytes little w x.
Proof.
  rewrite element_bytes_big, element_bytes_little, byte_swap_value.
  set (k := Z.to_nat (sizeof w)).
  rewrite be_value_le_value.
  rewrite <- (digits_length k x) at 1.
  rewrite <- (length_rev (digits k x)), digits_le_value.
  apply rev_involutive.
Qed.

Lemma to_bytes_big_endian_to_host (w : word_t) (ws : list Z) :
  to_bytes big w (map (big_endian_to_host w) ws) = to_bytes little w ws.
Proof.
  unfold to_bytes, big_endian_to_host. cbn [native endian_eqb].
  induction ws as [|x ws IH]; [reflexivity|].
  cbn [map flat_map]. rewrite IH, element_bytes_byte_swap. reflexivity.
Qed.

Lemma Forall_firstn {A : Type} (P : A -> Prop) (n : nat) (l : list A) :
  Forall P l -> Forall P (firstn n l).
Proof.
  intros H. rewrite Forall_forall in *. intros x Hx.
  apply H. rewrite <- (firstn_skipn n l). apply in_or_app. left. exact Hx.
Qed.

Lemma Forall_skipn {A : Type} (P : A -> Prop) (n : nat) (l : list A) :
  Forall P l -> Forall P (skipn n l).
Proof.
  intros H. rewrite Forall_forall in *. intros x Hx.
  apply H. rewrite <- (firstn_skipn n l). apply in_or_app. right. exact Hx.
Qed.

Lemma Forall_chunks {A : Type} (P : A -> Prop) (k c : nat) (l : list A) :
  Forall P l -> Forall (Forall P) (chunks k c l).
Proof.
  revert l. induction c as [|c IH]; intros l H; cbn [chunks]; constructor.
  - apply Forall_firstn. exact H.
  - apply IH. apply Forall_skipn. exact H.
Qed.

Lemma word_of_bytes_in_range (w : word_t) (bs : list byte) :
  length bs = Z.to_nat (sizeof w) -> in_range w (word_of_bytes w 0 bs 0).
Proof.
  intros H. rewrite word_of_bytes_value by exact H.
  pose proof (le_value_bound bs) as B. rewrite H, bits_sizeof in B. exact B.
Qed.

(** The words that [preprocess_message] returns are words of the type,
    and after [big_endian_to_host], which is how the engine reads them,
    their big-endian bytes are the padded message: the words are the
    message read in big-endian order. *)
Theorem preprocess_message_big_endian_words (w : word_t) (msg : list byte)
    (Hfit : fits w (Z.of_nat (length msg))) :
  exists padded message_blocks,
    padded_message w msg = Ok padded /\
    preprocess_message w msg = Ok message_blocks /\
    Forall (Forall (in_range w)) message_blocks /\
    to_bytes big w (map (big_endian_to_host w) (concat message_blocks)) = padded.
Proof.
  destruct (padded_message_structure w msg Hfit) as [zeros [Hp Hz]].
  pose proof (length_padded w msg zeros Hz) as Hlen.
  destruct (preprocess_message_blocks w msg _ Hfit Hp Hlen)
    as [message_blocks [Hpre [Hser [_ [Hcount Hpos]]]]].
  eexists. exists message_blocks.
  split; [exact Hp|]. split; [exact Hpre|].
  split; [|rewrite to_bytes_big_endian_to_host; exact Hser].
  unfold preprocess_message in Hpre. rewrite Hp in Hpre. cbn [bind] in Hpre.
  injection Hpre as <-.
  apply Forall_chunks. apply Forall_forall. intros x Hx.
  apply in_map_iff in Hx. destruct Hx as [bs [<- Hbs]].
  apply word_of_bytes_in_range.
  set (nblocks := Z.to_nat (blocks w (Z.of_nat (length msg)))) in *.
  set (padded := msg ++ _) in *.
  assert (Hk : length padded = (Z.to_nat (sizeof w) * (16 * nblocks))%nat).
  { apply Nat2Z.inj. rewrite Hlen. unfold nblocks, block_bytes.
    destruct w; change (sizeof uint32_t) with 4; change (sizeof uint64_t) with 8;
      lia. }
  pose proof (Forall_length_chunks _ _ _ Hk) as F.
  rewrite Forall_forall in F. exact (F bs Hbs).
Qed.

Lemma preprocess_message_big_endian_words_witness :
  exists padded message_blocks,
    padded_message uint64_t [x61; x62; x63] = Ok padded /\
    preprocess_message uint64_t [x61; x62; x63] = Ok message_blocks /\
    Forall (Forall (in_range uint64_t)) message_blocks /\
    to_bytes big uint64_t (map (big_endian_to_host uint64_t) (concat message_blocks))
      = padded.
Proof.
  apply (preprocess_message_big_endian_words uint64_t [x61; x62; x63]).
  vm_compute. reflexivity.
Defined.

(** The conversion at the end of [sha512_t_initialization_vector] and
    [to_bytes<big>] are inverse to each other: eight 64-bit words survive
    being written and read back, and 64 bytes survive being read and
    written back. *)
Theorem words_of_hash_result_inverse (state : list Z) (hash_result : list byte)
    (Hs : length state = 8%nat) (Hr : Forall (in_range uint64_t) state)
    (Hb : length hash_result = 64%nat) :
  detail.words_of_hash_result (to_bytes big uint64_t state) = Ok state /\
  exists words,
    detail.words_of_hash_result hash_result = Ok words /\
    length words = 8%nat /\
    Forall (in_range uint64_t) words /\
    to_bytes big uint64_t words = hash_result.
Proof.
  split; [apply words_of_hash_result_to_bytes; assumption|].
  rewrite (words_of_hash_result_chunks hash_result Hb).
  eexists. split; [reflexivity|].
  assert (F : Forall (fun c => length c = 8%nat) (chunks 8 8 hash_result))
    by (apply Forall_length_chunks; rewrite Hb; reflexivity).
  split; [rewrite length_map; apply length_chunks|].
  split.
  - apply Forall_forall. intros x Hx. apply in_map_iff in Hx.
    destruct Hx as [c [<- Hc]]. unfold big_endian_to_host. cbn [native endian_eqb].
    apply byte_swap_in_range.
  - rewrite <- (map_map (fun c => word_of_bytes uint64_t 0 c 0)
                        (big_endian_to_host uint64_t)).
    rewrite to_bytes_big_endian_to_host.
    rewrite to_bytes_words_of_chunks by exact F.
    apply concat_chunks. rewrite Hb. reflexivity.
Qed.

Lemma words_of_hash_result_inverse_witness :
  detail.words_of_hash_result (to_bytes big uint64_t [1; 2; 3; 4; 5; 6; 7; 8])
    = Ok [1; 2; 3; 4; 5; 6; 7; 8] /\
  exists words,
    detail.words_of_hash_result (repeat x5a 64) = Ok words /\
    length words = 8%nat /\
    Forall (in_range uint64_t) words /\
    to_bytes big uint64_t words = repeat x5a 64.
Proof.
  apply (words_of_hash_result_inverse [1; 2; 3; 4; 5; 6; 7; 8] (repeat x5a 64));
    [reflexivity | | reflexivity].
  repeat (constructor; [vm_compute; split; congruence|]). constructor.
Defined.

(** ** The engine *)

Lemma fold_blocks_inv {S B : Type} (P : S -> Prop) (Q : B -> Prop)
    (step : S -> B -> result S) (bs : list B) :
  (forall s b, P s -> Q b -> exists s', step s b = Ok s' /\ P s') ->
  Forall Q bs ->
  forall s, P s -> exists s', fold_blocks step bs s = Ok s' /\ P s'.
Proof.
  intros Hstep. induction 1 as [|b bs Hb _ IH]; intros s Hs.
  - exists s. split; [reflexivity | exact Hs].
  - destruct (Hstep s b Hs Hb) as [s1 [E1 P1]].
    destruct (IH s1 P1) as [s' [E' P']].
    exists s'. cbn [fold_blocks]. rewrite E1. cbn [bind].
    split; [exact E' | exact P'].
Qed.

Lemma sha1_schedule_ok (block : list Z) :
  length block = 16%nat ->
  exists w, detail.sha1_schedule block = Ok w /\ length w = 80%nat.
Proof.
  intros Hb. unfold detail.sha1_schedule, for_loop.
  destruct (for_loop_from_inv (fun _ w => length w = 80%nat)
              (fun t w =>
                 x <- (if (t <? 16)%nat
                       then b <- at_ block t ;; Ok (big_endian_to_host uint32_t b)
                       else
                         w3 <- at_ w (t - 3) ;;
                         w8 <- at_ w (t - 8) ;;
                         w14 <- at_ w (t - 14) ;;
                         w16 <- at_ w (t - 16) ;;
                         Ok (rotate_left uint32_t 1
                               (Z.lxor (Z.lxor (Z.lxor w3 w8) w14) w16))) ;;
                 set_at w t x)
              80 0%nat (repeat 0 80))
    as [w [E L]].
  - apply repeat_length.
  - intros t w Ht Hw.
    destruct (Nat.ltb_spec t 16).
    + assert (Hi : (t < length block)%nat) by lia. at_step Hi.
      destruct (set_at_ok w t (big_endian_to_host uint32_t x) ltac:(lia))
        as [w' [E' L']].
      exists w'. split; [exact E' | lia].
    + assert (H3 : (t - 3 < length w)%nat) by lia. at_step H3.
      assert (H8 : (t - 8 < length w)%nat) by lia. at_step H8.
      assert (H14 : (t - 14 < length w)%nat) by lia. at_step H14.
      assert (H16 : (t - 16 < length w)%nat) by lia. at_step H16.
      match goal with
      | |- exists _, set_at w t ?v = _ /\ _ =>
          destruct (set_at_ok w t v ltac:(lia)) as [w' [E' L']]
      end.
      exists w'. split; [exact E' | lia].
  - exists w. split; [exact E | exact L].
Qed.

Lemma sha1_round_ok (fs : list (Z -> Z -> Z -> Z)) (ks w : list Z)
    (t : nat) (v : list Z) :
  length v = 5%nat ->
  (t < length fs)%nat -> (t < length ks)%nat -> (t < length w)%nat ->
  exists v', detail.sha1_round fs ks w t v = Ok v' /\ length v' = 5%nat.
Proof.
  intros Hv Hf Hk Hw.
  destruct v as [|a [|b [|c [|d [|e [|? ?]]]]]]; try discriminate Hv.
  unfold detail.sha1_round.
  cbn [at_ nth_error bind].
  at_step Hf. at_step Hk. at_step Hw.
  cbn [at_ nth_error bind set_at set_nth length Nat.ltb Nat.leb].
  eexists. split; reflexivity.
Qed.

Lemma sha1_block_ok (fs : list (Z -> Z -> Z -> Z)) (ks state block : list Z) :
  length fs = 80%nat -> length ks = 80%nat ->
  length state = 5%nat -> length block = 16%nat ->
  exists state',
    detail.sha1_block fs ks state block = Ok state' /\
    length state' = 5%nat /\ Forall (in_range uint32_t) state'.
Proof.
  intros Hf Hk Hs Hb. unfold detail.sha1_block.
  destruct (sha1_schedule_ok block Hb) as [w [Ew Lw]].
  rewrite Ew. cbn [bind]. unfold for_loop.
  destruct (for_loop_from_inv (fun _ v => length v = 5%nat)
              (detail.sha1_round fs ks w) (length w) 0%nat state Hs)
    as [v [Ev Lv]].
  { intros t v Ht Hv. apply sha1_round_ok; [exact Hv | lia | lia | lia]. }
  rewrite Ev. cbn [bind].
  destruct (add_working_in_range uint32_t state v ltac:(lia)) as [L F].
  eexists. split; [reflexivity|]. split; [lia | exact F].
Qed.

Lemma fits_uint32_t (n : Z) : fits uint64_t n -> fits uint32_t n.
Proof.
  unfold fits.
  change (bits uint32_t) with 32. change (block_bits uint32_t) with 512.
  change (bits uint64_t) with 64. change (block_bits uint64_t) with 1024. lia.
Qed.

(** [sha1] returns twenty bytes for every message, the empty one included,
    without fault. *)
Theorem sha1_digest_length (message : list byte)
    (Hfit : fits uint32_t (Z.of_nat (length message))) :
  exists digest, sha1 message = Ok digest /\ length digest = 20%nat.
Proof.
  unfold sha1, detail.sha1, detail.sha1_state.
  rewrite sha1_functions_value, sha1_constants_value. cbn [bind].
  destruct (padded_message_structure uint32_t message Hfit) as [zeros [Hpad Hz]].
  destruct (preprocess_message_blocks uint32_t message _ Hfit Hpad
              (length_padded uint32_t message zeros Hz))
    as [message_blocks [Hp [_ [Hb _]]]].
  rewrite Hp. cbn [bind].
  set (fs := flat_map (fun f => repeat f 20)
               [choose uint32_t; parity; majority; parity]).
  set (ks := flat_map (fun k => repeat k 20) sha1_band_values).
  assert (Lf : length fs = 80%nat) by reflexivity.
  assert (Lk : length ks = 80%nat) by reflexivity.
  destruct (fold_blocks_inv (fun s => length s = 5%nat)
              (fun b => length b = 16%nat)
              (detail.sha1_block fs ks)
              message_blocks) with (s := sha1_initialization_vector)
    as [state [Es Ls]].
  - intros s b Hs Hb'.
    destruct (sha1_block_ok fs ks s b Lf Lk Hs Hb') as [s' [E [L _]]].
    exists s'. split; [exact E | exact L].
  - exact Hb.
  - reflexivity.
  - rewrite Es. cbn [bind]. eexists. split; [reflexivity|].
    rewrite length_to_bytes, Ls. reflexivity.
Qed.

Lemma sha1_digest_length_witness :
  exists digest, sha1 [] = Ok digest /\ length digest = 20%nat.
Proof. apply (sha1_digest_length []). vm_compute. reflexivity. Defined.

(** [detail::sha2] completes for every message, every vector of eight
    words and every table of constants, whatever its length: the state is
    eight words of the type, and the digest is the leading
    [bytes<digest_bits>] bytes of its big-endian serialisation. *)
Theorem sha2_completes (digest_bits : Z) (w_t : word_t) (message : list byte)
    (initialization_vector constants : list Z)
    (Hfit : fits w_t (Z.of_nat (length message)))
    (Hiv : length initialization_vector = 8%nat)
    (Hd : 0 < digest_bits <= 8 * bits w_t) :
  exists state digest,
    detail.sha2_state w_t message initialization_vector constants = Ok state /\
    length state = 8%nat /\ Forall (in_range w_t) state /\
    detail.sha2 digest_bits w_t message initialization_vector constants = Ok digest /\
    digest = firstn (Z.to_nat (bytes digest_bits)) (to_bytes big w_t state) /\
    Z.of_nat (length digest) = bytes digest_bits /\
    detail.sha2 (8 * bits w_t) w_t message initialization_vector constants
      = Ok (to_bytes big w_t state).
Proof.
  destruct (sha2_state_ok w_t message initialization_vector constants Hfit Hiv)
    as [state [Es [Ls Rs]]].
  destruct (sha2_digest digest_bits w_t _ _ _ _ Es Ls Hd) as [Ed Ld].
  assert (Hw : 0 < bits w_t) by (destruct w_t; reflexivity).
  destruct (sha2_digest (8 * bits w_t) w_t _ _ _ _ Es Ls ltac:(lia)) as [Ef Lf].
  exists state. eexists.
  split; [exact Es|]. split; [exact Ls|]. split; [exact Rs|].
  split; [exact Ed|]. split; [reflexivity|]. split; [exact Ld|].
  rewrite Ef. f_equal. apply firstn_all2.
  rewrite length_to_bytes, Ls. destruct w_t; vm_compute; lia.
Qed.

Lemma sha2_completes_witness :
  exists state digest,
    detail.sha2_state uint32_t [x61] [1; 2; 3; 4; 5; 6; 7; 8] [9; 10] = Ok state /\
    length state = 8%nat /\ Forall (in_range uint32_t) state /\
    detail.sha2 100 uint32_t [x61] [1; 2; 3; 4; 5; 6; 7; 8] [9; 10] = Ok digest /\
    digest = firstn (Z.to_nat (bytes 100)) (to_bytes big uint32_t state) /\
    Z.of_nat (length digest) = bytes 100 /\
    detail.sha2 (8 * bits uint32_t) uint32_t [x61] [1; 2; 3; 4; 5; 6; 7; 8] [9; 10]
      = Ok (to_bytes big uint32_t state).
Proof.
  apply (sha2_completes 100 uint32_t [x61] [1; 2; 3; 4; 5; 6; 7; 8] [9; 10]);
    [vm_compute; reflexivity | reflexivity | vm_compute; split; congruence].
Defined.
(** ** The public hash functions *)

Lemma sha2_public (digest_bits : Z) (w_t : word_t) (message : list byte)
    (iv_table constants_table : result (list Z)) (iv constants : list Z) :
  iv_table = Ok iv -> constants_table = Ok constants ->
  length iv = 8%nat ->
  fits w_t (Z.of_nat (length message)) ->
  0 < digest_bits <= 8 * bits w_t ->
  exists state,
    detail.sha2_state w_t message iv constants = Ok state /\
    length state = 8%nat /\
    (iv' <- iv_table ;; constants' <- constants_table ;;
     detail.sha2 digest_bits w_t message iv' constants')
      = Ok (firstn (Z.to_nat (bytes digest_bits)) (to_bytes big w_t state)) /\
    Z.of_nat (length (firstn (Z.to_nat (bytes digest_bits)) (to_bytes big w_t state)))
      = bytes digest_bits.
Proof.
  intros -> -> Hiv Hfit Hd. cbn [bind].
  destruct (sha2_state_ok w_t message iv constants Hfit Hiv) as [state [Es [Ls _]]].
  destruct (sha2_digest digest_bits w_t _ _ _ _ Es Ls Hd) as [Ed Ld].
  exists state. split; [exact Es|]. split; [exact Ls|].
  split; [exact Ed | exact Ld].
Qed.

Ltac bits_bound := vm_compute; split; congruence.

(** Each of [sha224], [sha256], [sha384] and [sha512] returns, for every
    message and without fault, a digest of 28, 32, 48 and 64 bytes. *)
Theorem sha2_family_digest_lengths (message : list byte)
    (Hfit : fits uint64_t (Z.of_nat (length message))) :
  exists d224 d256 d384 d512,
    sha224 message = Ok d224 /\ length d224 = 28%nat /\
    sha256 message = Ok d256 /\ length d256 = 32%nat /\
    sha384 message = Ok d384 /\ length d384 = 48%nat /\
    sha512 message = Ok d512 /\ length d512 = 64%nat.
Proof.
  pose proof (fits_uint32_t _ Hfit) as Hfit32.
  destruct (sha2_public 224 uint32_t message _ _ _ _
              sha224_initialization_vector_value sha2_32_bit_constants_value
              eq_refl Hfit32 ltac:(bits_bound)) as [s1 [_ [_ [E1 L1]]]].
  destruct (sha2_public 256 uint32_t message _ _ _ _
              sha256_initialization_vector_value sha2_32_bit_constants_value
              eq_refl Hfit32 ltac:(bits_bound)) as [s2 [_ [_ [E2 L2]]]].
  destruct (sha2_public 384 uint64_t message _ _ _ _
              sha384_initialization_vector_value sha2_64_bit_constants_value
              eq_refl Hfit ltac:(bits_bound)) as [s3 [_ [_ [E3 L3]]]].
  destruct (sha2_public 512 uint64_t message _ _ _ _
              sha512_initialization_vector_value sha2_64_bit_constants_value
              eq_refl Hfit ltac:(bits_bound)) as [s4 [_ [_ [E4 L4]]]].
  do 4 eexists.
  split; [exact E1|]. split; [apply Nat2Z.inj; rewrite L1; reflexivity|].
  split; [exact E2|]. split; [apply Nat2Z.inj; rewrite L2; reflexivity|].
  split; [exact E3|]. split; [apply Nat2Z.inj; rewrite L3; reflexivity|].
  split; [exact E4|]. apply Nat2Z.inj; rewrite L4; reflexivity.
Qed.

Lemma sha2_family_digest_lengths_witness :
  exists d224 d256 d384 d512,
    sha224 [] = Ok d224 /\ length d224 = 28%nat /\
    sha256 [] = Ok d256 /\ length d256 = 32%nat /\
    sha384 [] = Ok d384 /\ length d384 = 48%nat /\
    sha512 [] = Ok d512 /\ length d512 = 64%nat.
Proof. apply (sha2_family_digest_lengths []). vm_compute. reflexivity. Defined.

(** [sha224] is the engine and the constants of [sha256] run from another
    vector and cut to 28 bytes, and [sha384] is those of [sha512] run from
    another vector and cut to 48 bytes. *)
Theorem sha224_sha384_truncate (message : list byte)
    (Hfit : fits uint64_t (Z.of_nat (length message))) :
  exists iv224 iv256 iv384 iv512 constants32 constants64 full224 full384,
    sha224_initialization_vector = Ok iv224 /\
    sha256_initialization_vector = Ok iv256 /\
    sha384_initialization_vector = Ok iv384 /\
    sha512_initialization_vector = Ok iv512 /\
    sha2_32_bit_constants = Ok constants32 /\
    sha2_64_bit_constants = Ok constants64 /\
    iv224 <> iv256 /\ iv384 <> iv512 /\
    sha256 message = detail.sha2 256 uint32_t message iv256 constants32 /\
    sha512 message = detail.sha2 512 uint64_t message iv512 constants64 /\
    detail.sha2 256 uint32_t message iv224 constants32 = Ok full224 /\
    detail.sha2 512 uint64_t message iv384 constants64 = Ok full384 /\
    sha224 message = Ok (firstn 28 full224) /\
    sha384 message = Ok (firstn 48 full384).
Proof.
  pose proof (fits_uint32_t _ Hfit) as Hfit32.
  destruct (sha2_state_ok uint32_t message fips_sha224_vector
              fips_32_bit_constants Hfit32 eq_refl) as [s1 [Es1 [Ls1 _]]].
  destruct (sha2_state_ok uint64_t message fips_sha384_vector
              fips_64_bit_constants Hfit eq_refl) as [s3 [Es3 [Ls3 _]]].
  destruct (sha2_digest 256 uint32_t _ _ _ _ Es1 Ls1 ltac:(bits_bound)) as [F1 _].
  destruct (sha2_digest 224 uint32_t _ _ _ _ Es1 Ls1 ltac:(bits_bound)) as [T1 _].
  destruct (sha2_digest 512 uint64_t _ _ _ _ Es3 Ls3 ltac:(bits_bound)) as [F3 _].
  destruct (sha2_digest 384 uint64_t _ _ _ _ Es3 Ls3 ltac:(bits_bound)) as [T3 _].
  exists fips_sha224_vector, fips_sha256_vector, fips_sha384_vector,
         fips_sha512_vector, fips_32_bit_constants, fips_64_bit_constants.
  do 2 eexists.
  split; [exact sha224_initialization_vector_value|].
  split; [exact sha256_initialization_vector_value|].
  split; [exact sha384_initialization_vector_value|].
  split; [exact sha512_initialization_vector_value|].
  split; [exact sha2_32_bit_constants_value|].
  split; [exact sha2_64_bit_constants_value|].
  split; [vm_compute; congruence|].
  split; [vm_compute; congruence|].
  split.
  { unfold sha256.
    rewrite sha256_initialization_vector_value, sha2_32_bit_constants_value.
    reflexivity. }
  split.
  { unfold sha512.
    rewrite sha512_initialization_vector_value, sha2_64_bit_constants_value.
    reflexivity. }
  split; [exact F1|]. split; [exact F3|].
  assert (L1 : length (to_bytes big uint32_t s1) = 32%nat)
    by (rewrite length_to_bytes, Ls1; reflexivity).
  assert (L3 : length (to_bytes big uint64_t s3) = 64%nat)
    by (rewrite length_to_bytes, Ls3; reflexivity).
  change (Z.to_nat (bytes 256)) with 32%nat.
  change (Z.to_nat (bytes 512)) with 64%nat.
  rewrite <- L1 at 1. rewrite <- L3 at 1. rewrite !firstn_all.
  split.
  - unfold sha224.
    rewrite sha224_initialization_vector_value, sha2_32_bit_constants_value.
    exact T1.
  - unfold sha384.
    rewrite sha384_initialization_vector_value, sha2_64_bit_constants_value.
    exact T3.
Qed.

Lemma sha224_sha384_truncate_witness :
  exists iv224 iv256 iv384 iv512 constants32 constants64 full224 full384,
    sha224_initialization_vector = Ok iv224 /\
    sha256_initialization_vector = Ok iv256 /\
    sha384_initialization_vector = Ok iv384 /\
    sha512_initialization_vector = Ok iv512 /\
    sha2_32_bit_constants = Ok constants32 /\
    sha2_64_bit_constants = Ok constants64 /\
    iv224 <> iv256 /\ iv384 <> iv512 /\
    sha256 [x61] = detail.sha2 256 uint32_t [x61] iv256 constants32 /\
    sha512 [x61] = detail.sha2 512 uint64_t [x61] iv512 constants64 /\
    detail.sha2 256 uint32_t [x61] iv224 constants32 = Ok full224 /\
    detail.sha2 512 uint64_t [x61] iv384 constants64 = Ok full384 /\
    sha224 [x61] = Ok (firstn 28 full224) /\
    sha384 [x61] = Ok (firstn 48 full384).
Proof. apply (sha224_sha384_truncate [x61]). vm_compute. reflexivity. Defined.



(** ** The literal operator [_hex_bytes] *)

Lemma hex2val_cases (c : ascii) :
  (is_hex_digit c = true -> exists v, hex2val c = Ok v /\ 0 <= v < 16) /\
  (is_hex_digit c = false -> hex2val c = Err invalid_argument).
Proof.
  unfold is_hex_digit, hex2val.
  change (detail.chr "0") with 48. change (detail.chr "9") with 57.
  change (detail.chr "a") with 97. change (detail.chr "f") with 102.
  change (detail.chr "A") with 65. change (detail.chr "F") with 70.
  cbv zeta.
  destruct (Z.leb_spec 48 (detail.chr c)), (Z.leb_spec (detail.chr c) 57),
    (Z.leb_spec 97 (detail.chr c)), (Z.leb_spec (detail.chr c) 102),
    (Z.leb_spec 65 (detail.chr c)), (Z.leb_spec (detail.chr c) 70);
    cbn [andb orb]; split; intros Hd; try discriminate Hd; try lia;
    try reflexivity; eexists; (split; [reflexivity | lia]).
Qed.

Lemma hex_pairs_ok (chars : list ascii) (n : nat) :
  length chars = (2 * n)%nat -> forallb is_hex_digit chars = true ->
  exists bs, hex_pairs chars = Ok bs /\ length bs = n.
Proof.
  revert chars. induction n as [|n IH]; intros chars L H.
  - destruct chars; [|discriminate L]. exists []. split; reflexivity.
  - destruct chars as [|hi [|lo rest]]; try (cbn [length] in L; lia).
    cbn [forallb] in H.
    apply andb_prop in H. destruct H as [Hh H].
    apply andb_prop in H. destruct H as [Hl H].
    destruct (proj1 (hex2val_cases hi) Hh) as [h [Eh _]].
    destruct (proj1 (hex2val_cases lo) Hl) as [l [El _]].
    destruct (IH rest ltac:(cbn [length] in L; lia) H) as [bs [E Lb]].
    exists (byte_of_Z (Z.lor (Z.shiftl h 4) l) :: bs).
    cbn [hex_pairs]. rewrite Eh, El, E. cbn [bind].
    split; [reflexivity | cbn [length]; rewrite Lb; reflexivity].
Qed.

Lemma hex_pairs_err (chars : list ascii) (n : nat) :
  length chars = (2 * n)%nat -> forallb is_hex_digit chars = false ->
  hex_pairs chars = Err invalid_argument.
Proof.
  revert chars. induction n as [|n IH]; intros chars L H.
  - destruct chars; [discriminate H | discriminate L].
  - destruct chars as [|hi [|lo rest]]; try (cbn [length] in L; lia).
    cbn [forallb] in H. cbn [hex_pairs].
    destruct (is_hex_digit hi) eqn:Hh.
    + destruct (proj1 (hex2val_cases hi) Hh) as [h [Eh _]]. rewrite Eh. cbn [bind].
      destruct (is_hex_digit lo) eqn:Hl.
      * destruct (proj1 (hex2val_cases lo) Hl) as [l [El _]]. rewrite El. cbn [bind].
        cbn [andb] in H.
        rewrite (IH rest ltac:(cbn [length] in L; lia) H). reflexivity.
      * rewrite (proj2 (hex2val_cases lo) Hl). reflexivity.
    + rewrite (proj2 (hex2val_cases hi) Hh). reflexivity.
Qed.

(** [_hex_bytes] rejects a literal of fewer than two or of an odd number
    of characters; otherwise it returns one byte per pair of characters when
    all of them are hexadecimal digits of either case, and throws
    [std::invalid_argument], with no partial result, when one is not. *)
Theorem hex_bytes_cases (s : string) :
  let chars := list_ascii_of_string s in
  ((length chars < 2)%nat \/ Nat.even (length chars) = false ->
   hex_bytes s = Err constraint_not_satisfied) /\
  ((2 <= length chars)%nat -> Nat.even (length chars) = true ->
   (forallb is_hex_digit chars = true ->
    exists bs, hex_bytes s = Ok bs /\ (2 * length bs)%nat = length chars) /\
   (forallb is_hex_digit chars = false -> hex_bytes s = Err invalid_argument)).
Proof.
  intros chars. unfold hex_bytes. fold chars. split.
  - intros [H|H].
    + destruct (Nat.leb_spec 2 (length chars)); [lia | reflexivity].
    + rewrite H, andb_false_r. reflexivity.
  - intros H2 He.
    destruct (Nat.leb_spec 2 (length chars)); [|lia]. rewrite He. cbn [andb].
    apply Nat.even_spec in He. destruct He as [n Hn].
    split; intros Hd.
    + destruct (hex_pairs_ok chars n Hn Hd) as [bs [E L]].
      exists bs. split; [exact E | lia].
    + exact (hex_pairs_err chars n Hn Hd).
Qed.

Local Open Scope string_scope.

Lemma hex_bytes_cases_witness :
  hex_bytes "abc" = Err constraint_not_satisfied /\
  (exists bs, hex_bytes "0aF3" = Ok bs /\
              (2 * length bs)%nat = length (list_ascii_of_string "0aF3")) /\
  hex_bytes "0g" = Err invalid_argument.
Proof.
  split; [apply (hex_bytes_cases "abc"); right; reflexivity|].
  split; [apply (hex_bytes_cases "0aF3"); [vm_compute; lia | reflexivity | reflexivity]
         | apply (hex_bytes_cases "0g"); [vm_compute; lia | reflexivity | reflexivity]].
Defined.

Local Close Scope string_scope.
(** ** Padding keeps messages apart *)

Lemma app_same_length_tail {A : Type} (a1 a2 f1 f2 : list A) :
  a1 ++ f1 = a2 ++ f2 -> length f1 = length f2 -> a1 = a2 /\ f1 = f2.
Proof.
  intros H L.
  assert (La : length a1 = length a2).
  { apply (f_equal (@length A)) in H. rewrite !length_app in H. lia. }
  split.
  - apply (f_equal (firstn (length a1))) in H.
    rewrite firstn_app, firstn_all, Nat.sub_diag, firstn_O, app_nil_r in H.
    rewrite La, firstn_app, firstn_all, Nat.sub_diag, firstn_O, app_nil_r in H.
    exact H.
  - apply (f_equal (skipn (length a1))) in H.
    rewrite skipn_app, skipn_all, Nat.sub_diag in H. cbn [skipn app] in H.
    rewrite La, skipn_app, skipn_all, Nat.sub_diag in H. cbn [skipn app] in H.
    exact H.
Qed.

(** Two messages with the same padded form, and so two messages with the
    same blocks, are the same message: the length field and the byte 0x80
    tell where the message ends. *)
Theorem padded_message_injective (w : word_t) (m1 m2 : list byte)
    (H1 : fits w (Z.of_nat (length m1))) (H2 : fits w (Z.of_nat (length m2)))
    (H : preprocess_message w m1 = preprocess_message w m2) :
  padded_message w m1 = padded_message w m2 /\ m1 = m2.
Proof.
  destruct (padded_message_structure w m1 H1) as [z1 [P1 Z1]].
  destruct (padded_message_structure w m2 H2) as [z2 [P2 Z2]].
  destruct (preprocess_message_blocks w m1 _ H1 P1 (length_padded w m1 z1 Z1))
    as [b1 [E1 [S1 _]]].
  destruct (preprocess_message_blocks w m2 _ H2 P2 (length_padded w m2 z2 Z2))
    as [b2 [E2 [S2 _]]].
  rewrite E1, E2 in H. injection H as Hb. rewrite Hb in S1.
  rewrite S2 in S1.
  assert (Hn : Z.of_nat (length m1) = Z.of_nat (length m2)).
  { assert (R : forall (m : list byte) z F,
                m ++ [x80] ++ repeat x00 z ++ F
                = (m ++ [x80] ++ repeat x00 z) ++ F)
      by (intros; rewrite <- !app_assoc; reflexivity).
    pose proof S1 as S. rewrite (R m1), (R m2) in S.
    apply app_same_length_tail in S;
      [|rewrite !length_app, !repeat_length, !length_to_bytes; reflexivity].
    destruct S as [_ F].
    apply (f_equal be_value) in F.
    assert (B : forall m : list byte, fits w (Z.of_nat (length m)) ->
                          0 <= 8 * Z.of_nat (length m) < 2 ^ 64).
    { intros m Hm. unfold fits in Hm.
      assert (0 < block_bits w) by (destruct w; reflexivity).
      assert (0 < bits w) by (destruct w; reflexivity). lia. }
    rewrite !be_value_length_field in F by (apply B; assumption). lia. }
  assert (Hm : m1 = m2).
  { apply (f_equal (firstn (length m2))) in S1.
    rewrite firstn_app, firstn_all, Nat.sub_diag, firstn_O, app_nil_r in S1.
    replace (length m2) with (length m1) in S1 by lia.
    rewrite firstn_app, firstn_all, Nat.sub_diag, firstn_O, app_nil_r in S1.
    symmetry. exact S1. }
  split; [rewrite Hm; reflexivity | exact Hm].
Qed.

Lemma padded_message_injective_witness :
  padded_message uint32_t [x61] = padded_message uint32_t [x61] /\ [x61] = [x61].
Proof.
  apply (padded_message_injective uint32_t [x61] [x61]);
    [vm_compute; reflexivity | vm_compute; reflexivity | reflexivity].
Defined.
(** ** Blocks are chained: extending a padded message *)

Lemma chunks_app {A : Type} (k c1 c2 : nat) :
  forall a b : list A,
    length a = (k * c1)%nat ->
    chunks k (c1 + c2) (a ++ b) = chunks k c1 a ++ chunks k c2 b.
Proof.
  induction c1 as [|c1 IH]; intros a b L.
  - rewrite Nat.mul_0_r in L. destruct a; [reflexivity | discriminate].
  - cbn [Nat.add chunks app].
    assert (Lk : (k <= length a)%nat) by lia.
    rewrite firstn_app, skipn_app.
    replace (k - length a)%nat with 0%nat by lia.
    cbn [firstn skipn]. rewrite app_nil_r.
    rewrite IH; [reflexivity|]. rewrite length_skipn. lia.
Qed.

Lemma fold_blocks_app {S B : Type} (step : S -> B -> result S) (a b : list B) :
  forall s,
    fold_blocks step (a ++ b) s = (s' <- fold_blocks step a s ;; fold_blocks step b s').
Proof.
  induction a as [|x a IH]; intros s; cbn [app fold_blocks bind]; [reflexivity|].
  destruct (step s x) as [s'|e]; cbn [bind]; [apply IH | reflexivity].
Qed.

Lemma preprocess_message_of_padded (w : word_t) (msg padded : list byte) :
  padded_message w msg = Ok padded ->
  preprocess_message w msg =
    Ok (chunks 16 (Z.to_nat (blocks w (Z.of_nat (length msg))))
          (map (fun bs => word_of_bytes w 0 bs 0)
               (chunks (Z.to_nat (sizeof w))
                       (16 * Z.to_nat (blocks w (Z.of_nat (length msg)))) padded))).
Proof.
  intros E. unfold preprocess_message. rewrite E. reflexivity.
Qed.

(** The blocks of a padded message followed by a suffix: the blocks of the
    message, then the blocks that hold the suffix and its own padding. *)
Lemma preprocess_message_extension (w : word_t) (message suffix : list byte) :
  fits w (Z.of_nat (length message)) ->
  fits w (blocks w (Z.of_nat (length message)) * block_bytes w
          + Z.of_nat (length suffix)) ->
  exists padded message_blocks tail zeros,
    padded_message w message = Ok padded /\
    preprocess_message w message = Ok message_blocks /\
    Forall (fun block => length block = 16%nat) message_blocks /\
    preprocess_message w (padded ++ suffix) = Ok (message_blocks ++ tail) /\
    Forall (fun block => length block = 16%nat) tail /\
    to_bytes little w (concat tail) =
      suffix ++ [x80] ++ repeat x00 zeros ++
      (repeat x00 (Z.to_nat (2 * sizeof w - 8)) ++
       to_bytes big uint64_t [8 * Z.of_nat (length (padded ++ suffix))]).
Proof.
  intros Hm He.
  destruct (padded_message_structure w message Hm) as [z1 [E1 L1]].
  pose proof (length_padded w message z1 L1) as Lp.
  set (padded := message ++ [x80] ++ repeat x00 z1 ++
                 (repeat x00 (Z.to_nat (2 * sizeof w - 8)) ++
                  to_bytes big uint64_t [8 * Z.of_nat (length message)])) in *.
  assert (He' : fits w (Z.of_nat (length (padded ++ suffix)))).
  { rewrite length_app, Nat2Z.inj_add, Lp. exact He. }
  destruct (padded_message_structure w (padded ++ suffix) He') as [z2 [E2 L2]].
  pose proof (length_padded w (padded ++ suffix) z2 L2) as Lp2.
  set (rest := suffix ++ [x80] ++ repeat x00 z2 ++
               (repeat x00 (Z.to_nat (2 * sizeof w - 8)) ++
                to_bytes big uint64_t [8 * Z.of_nat (length (padded ++ suffix))])).
  assert (R : (padded ++ suffix) ++ [x80] ++ repeat x00 z2 ++
              (repeat x00 (Z.to_nat (2 * sizeof w - 8)) ++
               to_bytes big uint64_t [8 * Z.of_nat (length (padded ++ suffix))])
              = padded ++ rest).
  { unfold rest. rewrite <- app_assoc. reflexivity. }
  rewrite R in E2, Lp2. clear R.
  set (n1 := blocks w (Z.of_nat (length message))) in *.
  set (n2 := blocks w (Z.of_nat (length (padded ++ suffix)))) in *.
  assert (Hbb : 0 < block_bytes w /\ block_bytes w = 16 * sizeof w /\ 0 < sizeof w)
    by (destruct w; vm_compute; repeat split; reflexivity).
  destruct Hbb as [Hbb [Hbs Hsz]].
  assert (Hn1 : 0 <= n1) by nia.
  assert (Lr : Z.of_nat (length rest) = (n2 - n1) * block_bytes w).
  { rewrite length_app, Nat2Z.inj_add in Lp2. lia. }
  assert (Hn : n1 <= n2) by nia.
  exists padded,
    (chunks 16 (Z.to_nat n1)
       (map (fun bs => word_of_bytes w 0 bs 0)
            (chunks (Z.to_nat (sizeof w)) (16 * Z.to_nat n1) padded))),
    (chunks 16 (Z.to_nat (n2 - n1))
       (map (fun bs => word_of_bytes w 0 bs 0)
            (chunks (Z.to_nat (sizeof w)) (16 * Z.to_nat (n2 - n1)) rest))),
    z2.
  assert (Lpn : length padded = (Z.to_nat (sizeof w) * (16 * Z.to_nat n1))%nat) by nia.
  assert (Lrn : length rest = (Z.to_nat (sizeof w) * (16 * Z.to_nat (n2 - n1)))%nat)
    by nia.
  split; [exact E1|].
  split; [exact (preprocess_message_of_padded w message padded E1)|].
  split.
  { apply Forall_length_chunks. rewrite length_map, length_chunks. reflexivity. }
  split.
  { rewrite (preprocess_message_of_padded w _ _ E2). fold n2. f_equal.
    replace (Z.to_nat n2) with (Z.to_nat n1 + Z.to_nat (n2 - n1))%nat by lia.
    rewrite Nat.mul_add_distr_l.
    rewrite (chunks_app _ _ _ padded rest Lpn), map_app.
    apply chunks_app. rewrite length_map, length_chunks. reflexivity. }
  split.
  { apply Forall_length_chunks. rewrite length_map, length_chunks. reflexivity. }
  rewrite concat_chunks by (rewrite length_map, length_chunks; reflexivity).
  rewrite to_bytes_words_of_chunks by (apply Forall_length_chunks; exact Lrn).
  rewrite concat_chunks by exact Lrn. reflexivity.
Qed.

(** Blocks are chained. The blocks of a padded message followed by a
    suffix are the blocks of the message, then blocks that hold only the
    suffix, its padding and the total length; the state after them is the
    state of the message run on through these last blocks. So the state of
    the longer message follows from the state, and the length, of the
    shorter one. *)
Theorem sha2_length_extension (w_t : word_t) (message suffix : list byte)
    (initialization_vector constants : list Z)
    (Hiv : length initialization_vector = 8%nat)
    (Hm : fits w_t (Z.of_nat (length message)))
    (He : fits w_t (blocks w_t (Z.of_nat (length message)) * block_bytes w_t
                    + Z.of_nat (length suffix))) :
  exists padded state message_blocks tail zeros,
    padded_message w_t message = Ok padded /\
    detail.sha2_state w_t message initialization_vector constants = Ok state /\
    preprocess_message w_t message = Ok message_blocks /\
    preprocess_message w_t (padded ++ suffix) = Ok (message_blocks ++ tail) /\
    to_bytes big w_t (map (big_endian_to_host w_t) (concat tail)) =
      suffix ++ [x80] ++ repeat x00 zeros ++
      (repeat x00 (Z.to_nat (2 * sizeof w_t - 8)) ++
       to_bytes big uint64_t [8 * Z.of_nat (length (padded ++ suffix))]) /\
    detail.sha2_state w_t (padded ++ suffix) initialization_vector constants =
      fold_blocks (detail.sha2_block w_t constants) tail state.
Proof.
  destruct (preprocess_message_extension w_t message suffix Hm He)
    as [padded [bm [tail [zeros [Ep [Em [Fm [Ee [Ft Eb]]]]]]]]].
  destruct (sha2_state_ok w_t message initialization_vector constants Hm Hiv)
    as [state [Es _]].
  exists padded, state, bm, tail, zeros.
  split; [exact Ep|]. split; [exact Es|]. split; [exact Em|].
  split; [exact Ee|].
  split; [rewrite to_bytes_big_endian_to_host; exact Eb|].
  unfold detail.sha2_state in *. rewrite Ee. rewrite Em in Es.
  cbn [bind] in *. rewrite fold_blocks_app, Es. reflexivity.
Qed.

Lemma sha2_length_extension_witness :
  exists padded state message_blocks tail zeros,
    padded_message uint32_t [x61] = Ok padded /\
    detail.sha2_state uint32_t [x61] [1; 2; 3; 4; 5; 6; 7; 8] [9; 10] = Ok state /\
    preprocess_message uint32_t [x61] = Ok message_blocks /\
    preprocess_message uint32_t (padded ++ [x62]) = Ok (message_blocks ++ tail) /\
    to_bytes big uint32_t (map (big_endian_to_host uint32_t) (concat tail)) =
      [x62] ++ [x80] ++ repeat x00 zeros ++
      (repeat x00 (Z.to_nat (2 * sizeof uint32_t - 8)) ++
       to_bytes big uint64_t [8 * Z.of_nat (length (padded ++ [x62]))]) /\
    detail.sha2_state uint32_t (padded ++ [x62]) [1; 2; 3; 4; 5; 6; 7; 8] [9; 10] =
      fold_blocks (detail.sha2_block uint32_t [9; 10]) tail state.
Proof.
  apply (sha2_length_extension uint32_t [x61] [x62] [1; 2; 3; 4; 5; 6; 7; 8] [9; 10]).
  - reflexivity.
  - vm_compute. reflexivity.
  - vm_compute. reflexivity.
Defined.

(** For [sha512] the digest is the whole state, so the digest of the
    longer message follows from the digest of the shorter one: reading the
    digest back into words, as [sha512_t_initialization_vector] does, and
    running the engine over the last blocks gives it. *)
Theorem sha512_length_extension (message suffix : list byte)
    (Hm : fits uint64_t (Z.of_nat (length message)))
    (He : fits uint64_t
            (blocks uint64_t (Z.of_nat (length message)) * block_bytes uint64_t
             + Z.of_nat (length suffix))) :
  exists padded digest state constants message_blocks tail zeros,
    padded_message uint64_t message = Ok padded /\
    sha512 message = Ok digest /\
    detail.words_of_hash_result digest = Ok state /\
    sha2_64_bit_constants = Ok constants /\
    preprocess_message uint64_t message = Ok message_blocks /\
    preprocess_message uint64_t (padded ++ suffix) = Ok (message_blocks ++ tail) /\
    to_bytes big uint64_t (map (big_endian_to_host uint64_t) (concat tail)) =
      suffix ++ [x80] ++ repeat x00 zeros ++
      to_bytes big uint64_t [0; 8 * Z.of_nat (length (padded ++ suffix))] /\
    sha512 (padded ++ suffix) =
      (state' <- fold_blocks (detail.sha2_block uint64_t constants) tail state ;;
       Ok (to_bytes big uint64_t state')).
Proof.
  destruct (preprocess_message_extension uint64_t message suffix Hm He)
    as [padded [bm [tail [zeros [Ep [Em [Fm [Ee [Ft Eb]]]]]]]]].
  destruct (sha2_state_ok uint64_t message fips_sha512_vector
              fips_64_bit_constants Hm eq_refl) as [state [Es [Ls Rs]]].
  exists padded, (to_bytes big uint64_t state), state, fips_64_bit_constants,
    bm, tail, zeros.
  split; [exact Ep|].
  split.
  { unfold sha512.
    rewrite sha512_initialization_vector_value, sha2_64_bit_constants_value.
    cbn [bind]. unfold detail.sha2. rewrite Es. reflexivity. }
  split; [exact (words_of_hash_result_to_bytes state Ls Rs)|].
  split; [exact sha2_64_bit_constants_value|].
  split; [exact Em|]. split; [exact Ee|].
  split; [rewrite to_bytes_big_endian_to_host; exact Eb|].
  unfold sha512.
  rewrite sha512_initialization_vector_value, sha2_64_bit_constants_value.
  cbn [bind]. unfold detail.sha2, detail.sha2_state in *.
  rewrite Ee. rewrite Em in Es. cbn [bind] in *.
  rewrite fold_blocks_app, Es. cbn [bind].
  destruct (fold_blocks (detail.sha2_block uint64_t fips_64_bit_constants) tail state);
    reflexivity.
Qed.

Lemma sha512_length_extension_witness :
  exists padded digest state constants message_blocks tail zeros,
    padded_message uint64_t [x61; x62; x63] = Ok padded /\
    sha512 [x61; x62; x63] = Ok digest /\
    detail.words_of_hash_result digest = Ok state /\
    sha2_64_bit_constants = Ok constants /\
    preprocess_message uint64_t [x61; x62; x63] = Ok message_blocks /\
    preprocess_message uint64_t (padded ++ [x64]) = Ok (message_blocks ++ tail) /\
    to_bytes big uint64_t (map (big_endian_to_host uint64_t) (concat tail)) =
      [x64] ++ [x80] ++ repeat x00 zeros ++
      to_bytes big uint64_t [0; 8 * Z.of_nat (length (padded ++ [x64]))] /\
    sha512 (padded ++ [x64]) =
      (state' <- fold_blocks (detail.sha2_block uint64_t constants) tail state ;;
       Ok (to_bytes big uint64_t state')).
Proof.
  apply (sha512_length_extension [x61; x62; x63] [x64]).
  - vm_compute. reflexivity.
  - vm_compute. reflexivity.
Defined.

Lemma fold_blocks_sha1_ok (fs : list (Z -> Z -> Z -> Z)) (ks : list Z)
    (message_blocks : list (list Z)) :
  length fs = 80%nat -> length ks = 80%nat ->
  Forall (fun block => length block = 16%nat) message_blocks ->
  forall state,
    length state = 5%nat ->
    (message_blocks = [] -> Forall (in_range uint32_t) state) ->
    exists state',
      fold_blocks (detail.sha1_block fs ks) message_blocks state = Ok state' /\
      length state' = 5%nat /\ Forall (in_range uint32_t) state'.
Proof.
  intros Lf Lk.
  induction 1 as [|block message_blocks Hb _ IH]; intros state Hs Hr.
  - exists state. split; [reflexivity|]. split; [exact Hs | apply Hr; reflexivity].
  - destruct (sha1_block_ok fs ks state block Lf Lk Hs Hb) as [s1 [E1 [L1 F1]]].
    destruct (IH s1 L1 (fun _ => F1)) as [s' [E' [L' F']]].
    exists s'. cbn [fold_blocks]. rewrite E1. cbn [bind].
    split; [exact E'|]. split; [exact L' | exact F'].
Qed.

(** The same for [sha1], whose twenty bytes are its five state words: the
    digest of a padded message followed by a suffix is the engine run from
    the words of the digest of the message over the last blocks. *)
Theorem sha1_length_extension (message suffix : list byte)
    (Hm : fits uint32_t (Z.of_nat (length message)))
    (He : fits uint32_t
            (blocks uint32_t (Z.of_nat (length message)) * block_bytes uint32_t
             + Z.of_nat (length suffix))) :
  exists padded state fs ks message_blocks tail zeros,
    padded_message uint32_t message = Ok padded /\
    sha1_functions = Ok fs /\ sha1_constants = Ok ks /\
    length state = 5%nat /\ Forall (in_range uint32_t) state /\
    sha1 message = Ok (to_bytes big uint32_t state) /\
    preprocess_message uint32_t message = Ok message_blocks /\
    preprocess_message uint32_t (padded ++ suffix) = Ok (message_blocks ++ tail) /\
    to_bytes big uint32_t (map (big_endian_to_host uint32_t) (concat tail)) =
      suffix ++ [x80] ++ repeat x00 zeros ++
      to_bytes big uint64_t [8 * Z.of_nat (length (padded ++ suffix))] /\
    sha1 (padded ++ suffix) =
      (state' <- fold_blocks (detail.sha1_block fs ks) tail state ;;
       Ok (to_bytes big uint32_t state')).
Proof.
  destruct (preprocess_message_extension uint32_t message suffix Hm He)
    as [padded [bm [tail [zeros [Ep [Em [Fm [Ee [Ft Eb]]]]]]]]].
  set (fs := flat_map (fun f => repeat f 20)
               [choose uint32_t; parity; majority; parity]).
  set (ks := flat_map (fun k => repeat k 20) sha1_band_values).
  assert (Lf : length fs = 80%nat) by reflexivity.
  assert (Lk : length ks = 80%nat) by reflexivity.
  assert (Hne : bm <> []).
  { intros ->. destruct (padded_message_structure uint32_t message Hm)
      as [z [Hpad Hz]].
    destruct (preprocess_message_blocks uint32_t message _ Hm Hpad
                (length_padded uint32_t message z Hz))
      as [bm' [Hp [_ [_ [Hn Hpos]]]]].
    rewrite Em in Hp. injection Hp as <-. cbn [length] in Hn. lia. }
  destruct (fold_blocks_sha1_ok fs ks bm Lf Lk Fm sha1_initialization_vector
              eq_refl (fun E => False_ind _ (Hne E)))
    as [state [Es [Ls Rs]]].
  exists padded, state, fs, ks, bm, tail, zeros.
  split; [exact Ep|].
  split; [exact sha1_functions_value|]. split; [exact sha1_constants_value|].
  split; [exact Ls|]. split; [exact Rs|].
  split.
  { unfold sha1, detail.sha1, detail.sha1_state.
    rewrite sha1_functions_value, sha1_constants_value. cbn [bind].
    rewrite Em. cbn [bind]. fold fs ks. rewrite Es. reflexivity. }
  split; [exact Em|]. split; [exact Ee|].
  split; [rewrite to_bytes_big_endian_to_host; exact Eb|].
  unfold sha1, detail.sha1, detail.sha1_state.
  rewrite sha1_functions_value, sha1_constants_value. cbn [bind].
  rewrite Ee. cbn [bind]. fold fs ks.
  rewrite fold_blocks_app, Es. reflexivity.
Qed.

Lemma sha1_length_extension_witness :
  exists padded state fs ks message_blocks tail zeros,
    padded_message uint32_t [] = Ok padded /\
    sha1_functions = Ok fs /\ sha1_constants = Ok ks /\
    length state = 5%nat /\ Forall (in_range uint32_t) state /\
    sha1 [] = Ok (to_bytes big uint32_t state) /\
    preprocess_message uint32_t [] = Ok message_blocks /\
    preprocess_message uint32_t (padded ++ [x61]) = Ok (message_blocks ++ tail) /\
    to_bytes big uint32_t (map (big_endian_to_host uint32_t) (concat tail)) =
      [x61] ++ [x80] ++ repeat x00 zeros ++
      to_bytes big uint64_t [8 * Z.of_nat (length (padded ++ [x61]))] /\
    sha1 (padded ++ [x61]) =
      (state' <- fold_blocks (detail.sha1_block fs ks) tail state ;;
       Ok (to_bytes big uint32_t state')).
Proof.
  apply (sha1_length_extension [] [x61]).
  - vm_compute. reflexivity.
  - vm_compute. reflexivity.
Defined.
(** ** The functions Sigma and sigma *)

Lemma lxor_in_range (w : word_t) (a b : Z) :
  in_range w a -> in_range w b -> in_range w (Z.lxor a b).
Proof.
  intros Ha Hb. apply in_range_bits in Ha, Hb. apply in_range_bits.
  destruct Ha as [Ha0 Ha], Hb as [Hb0 Hb]. split.
  - apply Z.lxor_nonneg. tauto.
  - intros i Hi. rewrite Z.lxor_spec, Ha, Hb by exact Hi. reflexivity.
Qed.

Lemma wshr_in_range (w : word_t) (n x : Z) :
  0 <= n -> in_range w x -> in_range w (wshr x n).
Proof.
  intros Hn Hx. unfold wshr, in_range in *. rewrite Z.shiftr_div_pow2 by exact Hn.
  pose proof (pow2_pos n Hn) as Hp. split.
  - apply Z.div_pos; lia.
  - apply Z.le_lt_trans with x; [|lia].
    apply Z.div_le_upper_bound; nia.
Qed.

(** Bit [i] of a rotation to the right by [n] is bit [i + n] of the word,
    counted around the width. *)
Lemma rotate_right_bit (w : word_t) (n x i : Z) :
  0 < n < bits w -> in_range w x -> 0 <= i ->
  Z.testbit (rotate_right w n x) i =
    if i <? bits w then Z.testbit x ((i + n) mod bits w) else false.
Proof.
  intros Hn Hx Hi. apply in_range_bits in Hx. destruct Hx as [Hx0 Hx].
  unfold rotate_right, wshr, wshl, wrap, modulus.
  rewrite Z.lor_spec, Z.shiftr_spec by exact Hi.
  destruct (Z.ltb_spec i (bits w)) as [Hlt|Hge].
  - rewrite Z.mod_pow2_bits_low by lia.
    rewrite Z.shiftl_spec by exact Hi.
    destruct (Z_lt_ge_dec (i + n) (bits w)) as [Hs|Hs].
    + rewrite Z.mod_small by lia.
      rewrite (Z.testbit_neg_r x (i - (bits w - n))) by lia.
      apply orb_false_r.
    + rewrite (Hx (i + n)) by lia. cbn [orb]. f_equal.
      replace (i + n) with ((i - (bits w - n)) + 1 * bits w) by lia.
      rewrite Z.mod_add by lia. rewrite Z.mod_small by lia. reflexivity.
  - rewrite (Hx (i + n)) by lia.
    rewrite Z.mod_pow2_bits_high by lia. reflexivity.
Qed.

Lemma rotate_right_lxor (w : word_t) (n x y : Z) :
  0 < n < bits w -> in_range w x -> in_range w y ->
  rotate_right w n (Z.lxor x y) =
    Z.lxor (rotate_right w n x) (rotate_right w n y).
Proof.
  intros Hn Hx Hy. apply Z.bits_inj'. intros i Hi.
  rewrite Z.lxor_spec.
  rewrite !rotate_right_bit by (try apply lxor_in_range; assumption).
  destruct (i <? bits w); [apply Z.lxor_spec | reflexivity].
Qed.

Lemma lxor_shuffle (a1 b1 c1 a2 b2 c2 : Z) :
  Z.lxor (Z.lxor (Z.lxor a1 a2) (Z.lxor b1 b2)) (Z.lxor c1 c2) =
  Z.lxor (Z.lxor (Z.lxor a1 b1) c1) (Z.lxor (Z.lxor a2 b2) c2).
Proof.
  apply Z.bits_inj'. intros i _. rewrite !Z.lxor_spec.
  destruct (Z.testbit a1 i), (Z.testbit b1 i), (Z.testbit c1 i),
    (Z.testbit a2 i), (Z.testbit b2 i), (Z.testbit c2 i); reflexivity.
Qed.

Ltac sigma_linear :=
  rewrite !rotate_right_lxor by (try assumption; split; reflexivity);
  try (unfold wshr; rewrite Z.shiftr_lxor);
  apply lxor_shuffle.

Ltac sigma_in_range :=
  repeat apply lxor_in_range;
  first [ apply rotate_right_in_range; [split; reflexivity | assumption]
        | apply wshr_in_range; [discriminate | assumption] ].

(** The four functions Sigma0, Sigma1, sigma0 and sigma1 keep a word in
    its type and distribute over exclusive or: each is a sum, bit by bit,
    of rotations and shifts of its argument. *)
Theorem sigma_functions_linear (w : word_t) (x y : Z)
    (Hx : in_range w x) (Hy : in_range w y) :
  (Sigma0 w (Z.lxor x y) = Z.lxor (Sigma0 w x) (Sigma0 w y) /\
   Sigma1 w (Z.lxor x y) = Z.lxor (Sigma1 w x) (Sigma1 w y) /\
   sigma0 w (Z.lxor x y) = Z.lxor (sigma0 w x) (sigma0 w y) /\
   sigma1 w (Z.lxor x y) = Z.lxor (sigma1 w x) (sigma1 w y)) /\
  (in_range w (Sigma0 w x) /\ in_range w (Sigma1 w x) /\
   in_range w (sigma0 w x) /\ in_range w (sigma1 w x)).
Proof.
  split.
  - destruct w; unfold Sigma0, Sigma1, sigma0, sigma1;
      (split; [sigma_linear | split; [sigma_linear | split; sigma_linear]]).
  - destruct w; unfold Sigma0, Sigma1, sigma0, sigma1;
      (split; [sigma_in_range | split; [sigma_in_range | split; sigma_in_range]]).
Qed.

Lemma sigma_functions_linear_witness :
  (Sigma0 uint32_t (Z.lxor 0x6a09e667 0xbb67ae85) =
     Z.lxor (Sigma0 uint32_t 0x6a09e667) (Sigma0 uint32_t 0xbb67ae85) /\
   Sigma1 uint32_t (Z.lxor 0x6a09e667 0xbb67ae85) =
     Z.lxor (Sigma1 uint32_t 0x6a09e667) (Sigma1 uint32_t 0xbb67ae85) /\
   sigma0 uint32_t (Z.lxor 0x6a09e667 0xbb67ae85) =
     Z.lxor (sigma0 uint32_t 0x6a09e667) (sigma0 uint32_t 0xbb67ae85) /\
   sigma1 uint32_t (Z.lxor 0x6a09e667 0xbb67ae85) =
     Z.lxor (sigma1 uint32_t 0x6a09e667) (sigma1 uint32_t 0xbb67ae85)) /\
  (in_range uint32_t (Sigma0 uint32_t 0x6a09e667) /\
   in_range uint32_t (Sigma1 uint32_t 0x6a09e667) /\
   in_range uint32_t (sigma0 uint32_t 0x6a09e667) /\
   in_range uint32_t (sigma1 uint32_t 0x6a09e667)).
Proof.
  apply (sigma_functions_linear uint32_t 0x6a09e667 0xbb67ae85).
  - vm_compute. split; [discriminate | reflexivity].
  - vm_compute. split; [discriminate | reflexivity].
Defined.

(** Whether [float128_root] returns is decided by the first Newton iterate
    that passes the tolerance test: when it is reached within the depth of
    the evaluation it is the result, and when the depth is used up before
    it the evaluation fails instead of returning an approximation. *)
Theorem float128_root_runs (depth : nat) (value : Float128.t) (root : Z)
    (guess : Float128.t) (k : nat)
    (Hk : forall j, (j < k)%nat ->
            within_tolerance value root
              (Nat.iter j (newton_step value root) guess) = false) :
  ((k < depth)%nat ->
   within_tolerance value root (Nat.iter k (newton_step value root) guess) = true ->
   float128_root depth value root guess =
     Ok (Nat.iter k (newton_step value root) guess)) /\
  ((depth <= k)%nat ->
   float128_root depth value root guess = Err depth_exceeded).
Proof.
  revert guess k Hk. induction depth as [|depth IH]; intros guess k Hk.
  - split; [lia | reflexivity].
  - cbn [float128_root].
    fold (newton_step value root guess).
    fold (within_tolerance value root guess).
    destruct k as [|k].
    + split; [|lia]. intros _ T.
      change (Nat.iter 0 (newton_step value root) guess) with guess in *.
      rewrite T. reflexivity.
    + pose proof (Hk 0%nat ltac:(lia)) as T0.
      change (Nat.iter 0 (newton_step value root) guess) with guess in T0.
      rewrite T0.
      destruct (IH (newton_step value root guess) k) as [Hok Herr].
      { intros j Hj. rewrite <- Nat.iter_succ_r. apply Hk. lia. }
      rewrite Nat.iter_succ_r. split.
      * intros Hlt T. apply Hok; [lia | exact T].
      * intros Hle. apply Herr. lia.
Qed.

Lemma float128_root_runs_witness :
  float128_root 1 (Float128.of_Z 9) 2 (Float128.of_Z 3) = Ok (Float128.of_Z 3) /\
  float128_root 2 (Float128.of_Z 9) 2 Float128.lit_1 = Err depth_exceeded.
Proof.
  split.
  - apply (proj1 (float128_root_runs 1 (Float128.of_Z 9) 2 (Float128.of_Z 3) 0
                    (fun j Hj => False_ind _ (Nat.nlt_0_r j Hj)))).
    + lia.
    + vm_compute. reflexivity.
  - assert (Hk : forall j, (j < 2)%nat ->
              within_tolerance (Float128.of_Z 9) 2
                (Nat.iter j (newton_step (Float128.of_Z 9) 2) Float128.lit_1)
              = false).
    { intros j Hj. destruct j as [|[|j]]; [vm_compute; reflexivity ..|lia]. }
    apply (proj2 (float128_root_runs 2 (Float128.of_Z 9) 2 Float128.lit_1 2 Hk)).
    lia.
Defined.
